(** * StorageReplicatedMergeTree: replication control plane

    A shallow embedding of [dbms/src/Storages/StorageReplicatedMergeTree.cpp]
    and the properties of its log-entry codec, bootstrap checks, log fan-in,
    executor and merge predicate. *)

From Stdlib Require Import ZArith Ascii String List Lia.
From stdpp Require Import base decidable option list strings gmap sets pretty sorting.

Set Warnings "-clear-no-such-hyp".

Local Open Scope string_scope.
Local Open Scope Z_scope.


(** ** Exceptions and results *)

Module Exn.

(** The error codes the file throws, the codes of the IO helpers it calls, and
    the coordinator's return codes carried by [zkutil::KeeperException]. *)
Inductive ErrorCode :=
  | CANNOT_PARSE_INPUT_ASSERTION_FAILED
  | ATTEMPT_TO_READ_AFTER_EOF
  | CANNOT_PARSE_QUOTED_STRING
  | UNKNOWN_IDENTIFIER
  | NOT_FOUND_EXPECTED_DATA_PART
  | TOO_MANY_UNEXPECTED_DATA_PARTS
  | ADDING_REPLICA_TO_NON_EMPTY_TABLE
  | REPLICA_IS_ALREADY_ACTIVE
  | NO_REPLICA_HAS_PART
  | UNEXPECTED_LOG_ENTRY_TYPE
  | EXTERNAL_FAILURE.

Inductive KeeperCode := ZNoNode | ZNodeExists | ZNotEmpty | ZBadArguments.

Inductive t :=
  | Exception (code : ErrorCode)
  | KeeperException (code : KeeperCode).

#[global] Instance ErrorCode_eq_dec : EqDecision ErrorCode.
Proof. solve_decision. Defined.
#[global] Instance KeeperCode_eq_dec : EqDecision KeeperCode.
Proof. solve_decision. Defined.
#[global] Instance t_eq_dec : EqDecision t.
Proof. solve_decision. Defined.

End Exn.

(** A call either returns a value or throws.  [OutOfFuel] is not a behaviour
    of the program: it is the answer of a loop of the model that was given too
    little fuel, and no handler catches it. *)
Inductive Result (A : Type) :=
  | Ok (a : A)
  | Throw (e : Exn.t)
  | OutOfFuel.
Arguments Ok {A} a.
Arguments Throw {A} e.
Arguments OutOfFuel {A}.

Definition rbind {A B} (r : Result A) (k : A → Result B) : Result B :=
  match r with
  | Ok a => k a
  | Throw e => Throw e
  | OutOfFuel => OutOfFuel
  end.

#[global] Instance Result_ret : MRet Result := @Ok.
#[global] Instance Result_bind : MBind Result := λ A B k r, rbind r k.

(** ** Text buffers *)

Module IO.

Definition LF : string := String (ascii_of_nat 10) "".
#[global] Arguments LF : simpl never.

(** Modelled from the spec: [assertString] of DB/IO/ReadHelpers is not part of
    the source file.  The spec uses it for "require byte-equivalence": the
    buffer must continue with exactly the bytes of [s], which are consumed;
    anything else is an assertion failure.  A read buffer is the string that
    remains to be read. *)
Fixpoint assertString (s buf : string) : Result string :=
  match s with
  | "" => Ok buf
  | String c s' =>
      match buf with
      | String d buf' =>
          if decide (c = d) then assertString s' buf'
          else Throw (Exn.Exception Exn.CANNOT_PARSE_INPUT_ASSERTION_FAILED)
      | "" => Throw (Exn.Exception Exn.CANNOT_PARSE_INPUT_ASSERTION_FAILED)
      end
  end.

(** Modelled from the spec: [assertEOF] is not part of the source file; the
    buffer has to be exhausted. *)
Definition assertEOF (buf : string) : Result unit :=
  match buf with
  | "" => Ok ()
  | _ => Throw (Exn.Exception Exn.ATTEMPT_TO_READ_AFTER_EOF)
  end.

Definition is_field_end (c : ascii) : bool :=
  bool_decide (c = ascii_of_nat 10) || bool_decide (c = ascii_of_nat 9).

(** Modelled from the spec: [readString] is not part of the source file.  The
    log entry text is a sequence of lines, one field per line; a field is read
    up to, and not including, the end of its line (a tab ends a field as well
    in the engine's text format) or the end of the buffer.  It never throws. *)
Fixpoint readString (buf : string) : string * string :=
  match buf with
  | "" => ("", "")
  | String c buf' =>
      if is_field_end c then ("", buf)
      else let '(s, rest) := readString buf' in (String c s, rest)
  end.

(** A string a field can carry: no line end and no tab. *)
Fixpoint plain (s : string) : bool :=
  match s with
  | "" => true
  | String c s' => negb (is_field_end c) && plain s'
  end.

(** Modelled from the spec: [toString] of an integer (and [operator<<] on the
    string stream) gives its decimal text. *)
Definition toString (x : Z) : string := pretty x.

(** Unsigned 64-bit arithmetic wraps around. *)
Definition wrap64 (x : Z) : Z := x mod 2 ^ 64.

(** The loop [while (s.size() < 10) s = '0' + s;] that pads an index to ten
    digits; it turns at most ten times. *)
Fixpoint zero_pad (fuel : nat) (s : string) : string :=
  match fuel with
  | O => s
  | S fuel' =>
      if decide (String.length s < 10)%nat then zero_pad fuel' ("0" +:+ s) else s
  end.

Definition pad10 (s : string) : string := zero_pad 10 s.

(** Modelled from the spec: [parse<UInt64>] and [readText(int)] of the IO
    helpers are not part of the source file.  The spec gives the texts they
    read as "decimal integer": the leading decimal digits are read, with the
    wrap-around of the 64-bit accumulator; an empty buffer is an error. *)
Fixpoint readUIntText_go (acc : Z) (buf : string) : Z * string :=
  match buf with
  | "" => (acc, "")
  | String c buf' =>
      match Ascii.is_nat c with
      | Some d => readUIntText_go (wrap64 (acc * 10 + Z.of_nat d)) buf'
      | None => (acc, buf)
      end
  end.

Definition readUIntText (buf : string) : Result (Z * string) :=
  match buf with
  | "" => Throw (Exn.Exception Exn.ATTEMPT_TO_READ_AFTER_EOF)
  | _ => Ok (readUIntText_go 0 buf)
  end.

Definition parse_UInt64 (s : string) : Result Z :=
  '(x, _) ← readUIntText s; Ok x.

(** [s.substr(n)]. *)
Fixpoint substr_from (n : nat) (s : string) : string :=
  match n, s with
  | O, _ => s
  | S n', String _ s' => substr_from n' s'
  | S _, "" => ""
  end.

Fixpoint has_slash (p : string) : bool :=
  match p with
  | "" => false
  | String c p' => bool_decide (c = "/"%char) || has_slash p'
  end.

(** The path of the parent node: everything before the last slash (the root
    is the empty path). *)
Fixpoint dirname (p : string) : string :=
  match p with
  | "" => ""
  | String c p' => if has_slash p' then String c (dirname p') else ""
  end.

(** [path.substr(path.find_last_of('/') + 1)]: the name after the last slash. *)
Fixpoint basename (p : string) : string :=
  match p with
  | "" => ""
  | String c p' =>
      if has_slash p' then basename p'
      else if bool_decide (c = "/"%char) then p' else p
  end.

End IO.

(** ** Log entries *)

Module LogEntry.

Inductive Type_ := GET_PART | MERGE_PARTS.

#[global] Instance Type_eq_dec : EqDecision Type_.
Proof. solve_decision. Defined.

Record t := mk {
  znode_name : string;
  type : Type_;
  source_replica : string;
  new_part_name : string;
  parts_to_merge : list string;
}.

#[global] Instance t_eq_dec : EqDecision t.
Proof. solve_decision. Defined.

Import IO.

(** [LogEntry::writeText]: the text appended to the write buffer. *)
Definition writeText (e : t) : string :=
  "format version: 1" +:+ LF +:+
  "source replica: " +:+ source_replica e +:+ LF +:+
  match type e with
  | GET_PART => "get" +:+ LF +:+ new_part_name e
  | MERGE_PARTS =>
      "merge" +:+ LF +:+
      foldr (λ s acc, s +:+ LF +:+ acc) "" (parts_to_merge e) +:+
      "into" +:+ LF +:+ new_part_name e
  end +:+ LF.

(** The [while (true)] loop of the merge branch of [readText].  Every turn that
    does not throw consumes the line end it asserts, so fuel larger than the
    length of the buffer is never used up. *)
Fixpoint readText_merge_loop (fuel : nat) (parts : list string) (buf : string)
  : Result (list string * string) :=
  match fuel with
  | O => OutOfFuel
  | S fuel' =>
      let '(s, buf) := readString buf in
      buf ← assertString LF buf;
      if decide (s = "into") then Ok (parts, buf)
      else readText_merge_loop fuel' (parts ++ [s]) buf
  end.

(** [LogEntry::readText], reading into the entry [e]: the method assigns the
    fields it parses and leaves the others as they are.  It returns the entry
    and the rest of the buffer. *)
Definition readText (e : t) (buf : string) : Result (t * string) :=
  buf ← assertString ("format version: 1" +:+ LF) buf;
  buf ← assertString "source replica: " buf;
  let '(src, buf) := readString buf in
  let e := mk (znode_name e) (type e) src (new_part_name e) (parts_to_merge e) in
  buf ← assertString LF buf;
  let '(type_str, buf) := readString buf in
  buf ← assertString LF buf;
  '(e, buf) ←
    (if decide (type_str = "get") then
       let '(name, buf) := readString buf in
       Ok (mk (znode_name e) GET_PART (source_replica e) name (parts_to_merge e), buf)
     else if decide (type_str = "merge") then
       '(parts, buf) ← readText_merge_loop (S (String.length buf)) (parts_to_merge e) buf;
       let '(name, buf) := readString buf in
       Ok (mk (znode_name e) MERGE_PARTS (source_replica e) name parts, buf)
     else Ok (e, buf));
  buf ← assertString LF buf;
  Ok (e, buf).

(** The fields the codec carries (everything but [znode_name]). *)
Definition same_record (a b : t) : Prop :=
  type a = type b ∧ source_replica a = source_replica b ∧
  new_part_name a = new_part_name b ∧ parts_to_merge a = parts_to_merge b.

(** Modelled from the spec: [LogEntry::parse] and [LogEntry::toString] are
    declared in the header, which is not part of the source.  [toString] is the
    text of [writeText]; [parse] reads a fresh entry with [readText] and
    requires the whole text to be consumed.  A fresh entry has empty strings;
    its [type] is not initialised by the constructor and is taken to be the
    first enumerator. *)
Definition fresh : t := mk "" GET_PART "" "" [].

Definition toString (e : t) : string := writeText e.

Definition parse (s : string) : Result t :=
  '(e, rest) ← readText fresh s;
  _ ← assertEOF rest;
  Ok e.

(** The payload lines of a merge entry followed by [tail]. *)
Definition lines (ps : list string) (tail : string) : string :=
  foldr (λ s acc, s +:+ LF +:+ acc) tail ps.

End LogEntry.


(** ** The coordinator *)

Module zkutil.

Import IO.

Inductive CreateMode :=
  | Persistent
  | Ephemeral
  | PersistentSequential
  | EphemeralSequential.

Definition is_sequential (mode : CreateMode) : bool :=
  match mode with
  | PersistentSequential | EphemeralSequential => true
  | _ => false
  end.

Definition is_ephemeral (mode : CreateMode) : bool :=
  match mode with
  | Ephemeral | EphemeralSequential => true
  | _ => false
  end.

Record Stat := { czxid : Z }.

Record Node := {
  node_data : string;
  node_stat : Stat;
  node_ephemeral : bool;
  (** number of changes to the children; the next sequential suffix *)
  node_cversion : Z;
}.

(** Modelled from the spec: the coordinator client library ([zkutil]) is not
    part of the source file.  The spec describes a hierarchical node store with
    [create], [get], [exists], [children], [tryRemove], sequential creation with
    a zero-padded ten-digit suffix, a creation transaction id ([czxid]) per
    node, and [multi(ops)], an atomic batch of Create/SetData/Remove.
    Nodes are keyed by their absolute path; the root has the empty path and is
    present in every store; [zxid] is the id of the last transaction. *)
Record ZooKeeper := {
  nodes : gmap string Node;
  zxid : Z;
}.

Inductive Op :=
  | Create (path data : string) (mode : CreateMode)
  | SetData (path data : string) (version : Z)
  | Remove (path : string) (version : Z).

Inductive OpResult :=
  | CreateResult (path_created : string)
  | SetDataResult
  | RemoveResult.

Definition getPathCreated (r : OpResult) : string :=
  match r with
  | CreateResult p => p
  | _ => ""
  end.

Definition bump_cversion (n : Node) : Node :=
  {| node_data := node_data n; node_stat := node_stat n;
     node_ephemeral := node_ephemeral n; node_cversion := node_cversion n + 1 |}.

Definition set_node_data (data : string) (n : Node) : Node :=
  {| node_data := data; node_stat := node_stat n;
     node_ephemeral := node_ephemeral n; node_cversion := node_cversion n |}.

(** Modelled from the spec: the names of the children of [path], in no
    particular order. *)
Definition children (ns : gmap string Node) (path : string) : list string :=
  omap (λ kv : string * Node,
          if decide (kv.1 ≠ "" ∧ dirname kv.1 = path) then Some (basename kv.1) else None)
       (map_to_list ns).

(** Modelled from the spec: one operation of a transaction with id [z], on the
    nodes [ns].  A node is created under an existing parent, at a free path,
    a sequential one with the parent's counter, zero-padded to ten digits, as
    its suffix; data is set on, and a node without children removed from, an
    existing path.  The file passes version -1 ("any version") everywhere, so
    versions are not kept. *)
Definition apply_op (z : Z) (op : Op) (ns : gmap string Node)
  : Result (OpResult * gmap string Node) :=
  match op with
  | Create path data mode =>
      match ns !! dirname path with
      | None => Throw (Exn.KeeperException Exn.ZNoNode)
      | Some parent =>
          let path' :=
            if is_sequential mode
            then path +:+ pad10 (toString (node_cversion parent))
            else path in
          match ns !! path' with
          | Some _ => Throw (Exn.KeeperException Exn.ZNodeExists)
          | None =>
              Ok (CreateResult path',
                  <[path' := {| node_data := data; node_stat := {| czxid := z |};
                                node_ephemeral := is_ephemeral mode;
                                node_cversion := 0 |}]>
                    (<[dirname path := bump_cversion parent]> ns))
          end
      end
  | SetData path data _ =>
      match ns !! path with
      | None => Throw (Exn.KeeperException Exn.ZNoNode)
      | Some n => Ok (SetDataResult, <[path := set_node_data data n]> ns)
      end
  | Remove path _ =>
      match ns !! path with
      | None => Throw (Exn.KeeperException Exn.ZNoNode)
      | Some _ =>
          match children ns path with
          | _ :: _ => Throw (Exn.KeeperException Exn.ZNotEmpty)
          | [] => Ok (RemoveResult, alter bump_cversion (dirname path) (delete path ns))
          end
      end
  end.

Fixpoint apply_ops (z : Z) (ops : list Op) (ns : gmap string Node)
  : Result (list OpResult * gmap string Node) :=
  match ops with
  | [] => Ok ([], ns)
  | op :: ops' =>
      '(r, ns') ← apply_op z op ns;
      '(rs, ns'') ← apply_ops z ops' ns';
      Ok (r :: rs, ns'')
  end.

(** Modelled from the spec: [multi] is "an atomic batch of
    Create/SetData/Remove": all the operations take effect in one transaction,
    or none does and the call throws. *)
Definition multi (ops : list Op) (zk : ZooKeeper) : Result (list OpResult) * ZooKeeper :=
  match apply_ops (zxid zk + 1) ops (nodes zk) with
  | Ok (rs, ns) => (Ok rs, {| nodes := ns; zxid := zxid zk + 1 |})
  | Throw e => (Throw e, zk)
  | OutOfFuel => (OutOfFuel, zk)
  end.

(** Modelled from the spec: [create], [tryGet] (with the node's [Stat]),
    [get], [exists] and [getChildren] of the coordinator facade; [get] and
    [getChildren] throw when there is no such node. *)
Definition create (path data : string) (mode : CreateMode) (zk : ZooKeeper)
  : Result string * ZooKeeper :=
  match multi [Create path data mode] zk with
  | (Ok rs, zk') => (Ok (getPathCreated (default RemoveResult (head rs))), zk')
  | (Throw e, zk') => (Throw e, zk')
  | (OutOfFuel, zk') => (OutOfFuel, zk')
  end.

Definition tryGet (zk : ZooKeeper) (path : string) : option (string * Stat) :=
  match nodes zk !! path with
  | Some n => Some (node_data n, node_stat n)
  | None => None
  end.

Definition get (zk : ZooKeeper) (path : string) : Result string :=
  match tryGet zk path with
  | Some (d, _) => Ok d
  | None => Throw (Exn.KeeperException Exn.ZNoNode)
  end.

Definition exists_ (zk : ZooKeeper) (path : string) : bool :=
  bool_decide (is_Some (nodes zk !! path)).

Definition getChildren (zk : ZooKeeper) (path : string) : Result (list string) :=
  match nodes zk !! path with
  | Some _ => Ok (children (nodes zk) path)
  | None => Throw (Exn.KeeperException Exn.ZNoNode)
  end.

(** Modelled from the spec: [tryRemove] returns the code instead of throwing;
    [None] is [Ok]. *)
Definition tryRemove (path : string) (zk : ZooKeeper) : option Exn.KeeperCode * ZooKeeper :=
  match multi [Remove path (-1)] zk with
  | (Ok _, zk') => (None, zk')
  | (Throw (Exn.KeeperException c), zk') => (Some c, zk')
  | (_, zk') => (Some Exn.ZBadArguments, zk')
  end.

(** A store holding the root only. *)
Definition empty : ZooKeeper :=
  {| nodes := {[ "" := {| node_data := ""; node_stat := {| czxid := 0 |};
                          node_ephemeral := false; node_cversion := 0 |} ]};
     zxid := 0 |}.

End zkutil.

(** Modelled from the spec: [AbandonableLockInZooKeeper::check] is not part of
    the source file.  The spec has it return "one of {LIVE, ABANDONED, ...}";
    [UNLOCKED] stands for the states it leaves open. *)
Module AbandonableLockInZooKeeper.

Inductive State := UNLOCKED | LIVE | ABANDONED.

#[global] Instance State_eq_dec : EqDecision State.
Proof. solve_decision. Defined.

Class Check := check : string → zkutil.ZooKeeper → State.

End AbandonableLockInZooKeeper.

(** ** Parts and the external collaborators *)

Module MergeTreeData.

(** Modelled from the spec: [MergeTreeData::DataPart] is declared outside the
    source file; these are the attributes the file uses.  [left] and [right]
    are unsigned 64-bit block numbers, as the loops over them are. *)
Record DataPart := {
  name : string;
  left : Z;
  right : Z;
  size : Z;
  checksums : string;
}.

#[global] Instance DataPart_eq_dec : EqDecision DataPart.
Proof. solve_decision. Defined.

(** What [createTable] and [checkTableStructure] read of the table
    definition.  An AST is kept as the text [formatAST] prints for it; [None]
    is the null pointer. *)
Record Structure := {
  date_column_name : string;
  sampling_expression : option string;
  index_granularity : Z;
  mode : Z;
  sign_column : string;
  primary_expr_ast : option string;
  (** [getColumnsList()]: column name and the name of its type *)
  columns : list (string * string);
}.

(** Modelled from the spec: the on-disk part store ([MergeTreeData] and the
    merger) is an external collaborator outside the source file; the spec lists
    the operations the core calls.  [Data] is the state of the store; each
    operation returns the new state next to its result. *)
Class PartStore (Data : Type) := {
  getDataParts : Data → list DataPart;
  getContainingPart : Data → string → option DataPart;
  renameAndDetachPart : DataPart → string → Data → Data;
  renameTempPartAndReplace : DataPart → Data → list DataPart * Data;
  clearOldParts : Data → Data;
  mergeParts : list DataPart → string → Data → Result DataPart * Data;
}.

(** Modelled from the spec: the inter-replica part fetcher is an external
    collaborator; [fetchPart part_name replica_path host port] downloads a part
    or fails. *)
Class PartFetcher := fetcher_fetchPart : string → string → string → Z → Result DataPart.

(** [std::random_shuffle]: some rearrangement of the replicas. *)
Class Shuffle := random_shuffle : list string → list string.

End MergeTreeData.

(** Modelled from the spec: [writeBackQuotedString] and [readBackQuotedString]
    of the IO helpers are not part of the source file.  The spec says only that
    column names are "back-quoted with the engine's quoting rules"; the writer
    gives the quoted text of a name, the reader takes a quoted name off the
    buffer or throws. *)
Class BackQuoting := {
  writeBackQuotedString : string → string;
  readBackQuotedString : string → Result (string * string);
}.

(** The laws the spec's "bit-for-bit equality is required on reopen" asks of
    the quoting: a written name is read back, and nothing but the written text
    of a name is read as that name.  The reader is a function of the library:
    it returns or throws. *)
Class BackQuotingExact `{BackQuoting} := {
  read_write_quoted : ∀ name rest,
    readBackQuotedString (writeBackQuotedString name +:+ rest) = Ok (name, rest);
  read_quoted_exact : ∀ buf name rest,
    readBackQuotedString buf = Ok (name, rest) →
    buf = writeBackQuotedString name +:+ rest;
  read_quoted_total : ∀ buf, readBackQuotedString buf ≠ OutOfFuel;
}.

(** ** The storage object and its methods *)

Inductive LogLevel := TRACE | DEBUG | INFO | ERROR.

Inductive ProfileEvent :=
  | ReplicatedPartMerges
  | ReplicatedPartFetches
  | ReplicatedPartFetchesOfMerged
  | ObsoleteReplicatedParts.

Section storage.

Import IO MergeTreeData.
Context {Data : Type}.

(** The members of [StorageReplicatedMergeTree] the methods below touch, the
    coordinator, and what they write to the log and the profile counters. *)
Record Storage := {
  zookeeper : zkutil.ZooKeeper;
  data : Data;
  structure : Structure;
  zookeeper_path : string;
  replica_name : string;
  replica_path : string;
  queue : list LogEntry.t;
  future_parts : gset string;
  currently_merging : gset string;
  shutdown_called : bool;
  log : list (LogLevel * string);
  profile_events : list ProfileEvent;
}.

Definition set_zookeeper (zk : zkutil.ZooKeeper) (s : Storage) : Storage :=
  {| zookeeper := zk; data := data s; structure := structure s;
     zookeeper_path := zookeeper_path s; replica_name := replica_name s;
     replica_path := replica_path s; queue := queue s;
     future_parts := future_parts s; currently_merging := currently_merging s;
     shutdown_called := shutdown_called s; log := log s;
     profile_events := profile_events s |}.

Definition set_data (d : Data) (s : Storage) : Storage :=
  {| zookeeper := zookeeper s; data := d; structure := structure s;
     zookeeper_path := zookeeper_path s; replica_name := replica_name s;
     replica_path := replica_path s; queue := queue s;
     future_parts := future_parts s; currently_merging := currently_merging s;
     shutdown_called := shutdown_called s; log := log s;
     profile_events := profile_events s |}.

Definition set_queue (q : list LogEntry.t) (s : Storage) : Storage :=
  {| zookeeper := zookeeper s; data := data s; structure := structure s;
     zookeeper_path := zookeeper_path s; replica_name := replica_name s;
     replica_path := replica_path s; queue := q;
     future_parts := future_parts s; currently_merging := currently_merging s;
     shutdown_called := shutdown_called s; log := log s;
     profile_events := profile_events s |}.

Definition set_future_parts (fp : gset string) (s : Storage) : Storage :=
  {| zookeeper := zookeeper s; data := data s; structure := structure s;
     zookeeper_path := zookeeper_path s; replica_name := replica_name s;
     replica_path := replica_path s; queue := queue s;
     future_parts := fp; currently_merging := currently_merging s;
     shutdown_called := shutdown_called s; log := log s;
     profile_events := profile_events s |}.

Definition set_currently_merging (cm : gset string) (s : Storage) : Storage :=
  {| zookeeper := zookeeper s; data := data s; structure := structure s;
     zookeeper_path := zookeeper_path s; replica_name := replica_name s;
     replica_path := replica_path s; queue := queue s;
     future_parts := future_parts s; currently_merging := cm;
     shutdown_called := shutdown_called s; log := log s;
     profile_events := profile_events s |}.

Definition add_log (level : LogLevel) (msg : string) (s : Storage) : Storage :=
  {| zookeeper := zookeeper s; data := data s; structure := structure s;
     zookeeper_path := zookeeper_path s; replica_name := replica_name s;
     replica_path := replica_path s; queue := queue s;
     future_parts := future_parts s; currently_merging := currently_merging s;
     shutdown_called := shutdown_called s; log := (log s ++ [(level, msg)])%list;
     profile_events := profile_events s |}.

Definition add_profile_event (ev : ProfileEvent) (s : Storage) : Storage :=
  {| zookeeper := zookeeper s; data := data s; structure := structure s;
     zookeeper_path := zookeeper_path s; replica_name := replica_name s;
     replica_path := replica_path s; queue := queue s;
     future_parts := future_parts s; currently_merging := currently_merging s;
     shutdown_called := shutdown_called s; log := log s;
     profile_events := (profile_events s ++ [ev])%list |}.

(** A method runs on the storage object: it returns or throws, and leaves the
    object in a new state either way. *)
Definition M (A : Type) : Type := Storage → Result A * Storage.

#[global] Instance M_ret : MRet M := λ A a s, (Ok a, s).
#[global] Instance M_bind : MBind M := λ A B k m s,
  match m s with
  | (Ok a, s') => k a s'
  | (Throw e, s') => (Throw e, s')
  | (OutOfFuel, s') => (OutOfFuel, s')
  end.

Definition throw {A} (e : Exn.t) : M A := λ s, (Throw e, s).
Definition out_of_fuel {A} : M A := λ s, (OutOfFuel, s).
Definition get_storage : M Storage := λ s, (Ok s, s).
Definition modify (f : Storage → Storage) : M unit := λ s, (Ok (), f s).
Definition lift {A} (r : Result A) : M A := λ s, (r, s).

(** [try { m } catch (...) { handler }]. *)
Definition try_catch {A} (m : M A) (handler : Exn.t → M A) : M A := λ s,
  match m s with
  | (Throw e, s') => handler e s'
  | other => other
  end.

Definition LOG (level : LogLevel) (msg : string) : M unit := modify (add_log level msg).
Definition increment (ev : ProfileEvent) : M unit := modify (add_profile_event ev).

(** Calls of the coordinator on the object's session. *)
Definition zk_multi (ops : list zkutil.Op) : M (list zkutil.OpResult) := λ s,
  let '(r, zk) := zkutil.multi ops (zookeeper s) in (r, set_zookeeper zk s).
Definition zk_create (path data : string) (mode : zkutil.CreateMode) : M string := λ s,
  let '(r, zk) := zkutil.create path data mode (zookeeper s) in (r, set_zookeeper zk s).
Definition zk_tryRemove (path : string) : M (option Exn.KeeperCode) := λ s,
  let '(c, zk) := zkutil.tryRemove path (zookeeper s) in (Ok c, set_zookeeper zk s).
Definition zk_get (path : string) : M string := λ s, (zkutil.get (zookeeper s) path, s).
Definition zk_tryGet (path : string) : M (option (string * zkutil.Stat)) := λ s,
  (Ok (zkutil.tryGet (zookeeper s) path), s).
Definition zk_getChildren (path : string) : M (list string) := λ s,
  (zkutil.getChildren (zookeeper s) path, s).

(** Run [f] on every element in turn, stopping at the first throw. *)
Fixpoint for_each {A} (f : A → M unit) (l : list A) : M unit :=
  match l with
  | [] => mret ()
  | x :: l' => _ ← f x; for_each f l'
  end.

End storage.

Arguments Storage : clear implicits.
Arguments M : clear implicits.

Section methods.

Import IO MergeTreeData.
Context {Data : Type}.
Context `{!PartStore Data, !PartFetcher, !Shuffle, !BackQuoting}.
Context `{!AbandonableLockInZooKeeper.Check}.

#[local] Abbreviation M := (M Data).
#[local] Abbreviation Storage := (Storage Data).

(** *** Table structure *)

(** [formattedAST]: the empty string for a null AST. *)
Definition formattedAST (ast : option string) : string :=
  match ast with
  | None => ""
  | Some text => text
  end.

(** The lines the loop of [createTable] writes for the columns. *)
Fixpoint write_columns (cols : list (string * string)) : string :=
  match cols with
  | [] => ""
  | (col_name, col_type) :: cols' =>
      writeBackQuotedString col_name +:+ " " +:+ col_type +:+ LF +:+ write_columns cols'
  end.

(** The text [createTable] stores in [/metadata]. *)
Definition metadata_text (d : Structure) : string :=
  "metadata format version: 1" +:+ LF +:+
  "date column: " +:+ date_column_name d +:+ LF +:+
  "sampling expression: " +:+ formattedAST (sampling_expression d) +:+ LF +:+
  "index granularity: " +:+ toString (index_granularity d) +:+ LF +:+
  "mode: " +:+ toString (mode d) +:+ LF +:+
  "sign column: " +:+ sign_column d +:+ LF +:+
  "primary key: " +:+ formattedAST (primary_expr_ast d) +:+ LF +:+
  "columns:" +:+ LF +:+
  write_columns (columns d).

Definition createTable : M unit :=
  s ← get_storage;
  let zp := zookeeper_path s in
  _ ← zk_create zp "" zkutil.Persistent;
  _ ← zk_create (zp +:+ "/metadata") (metadata_text (structure s)) zkutil.Persistent;
  _ ← zk_create (zp +:+ "/replicas") "" zkutil.Persistent;
  _ ← zk_create (zp +:+ "/blocks") "" zkutil.Persistent;
  _ ← zk_create (zp +:+ "/block_numbers") "" zkutil.Persistent;
  _ ← zk_create (zp +:+ "/leader_election") "" zkutil.Persistent;
  _ ← zk_create (zp +:+ "/temp") "" zkutil.Persistent;
  mret ().

(** The loop of [checkTableStructure] over the columns. *)
Fixpoint check_columns (cols : list (string * string)) (buf : string) : Result string :=
  match cols with
  | [] => Ok buf
  | (col_name, col_type) :: cols' =>
      '(name, buf) ← readBackQuotedString buf;
      if decide (name ≠ col_name) then Throw (Exn.Exception Exn.UNKNOWN_IDENTIFIER)
      else
        buf ← assertString " " buf;
        buf ← assertString col_type buf;
        buf ← assertString LF buf;
        check_columns cols' buf
  end.

(** The checks of [checkTableStructure] on the text read from [/metadata]. *)
Definition check_metadata (d : Structure) (metadata_str : string) : Result unit :=
  buf ← assertString "metadata format version: 1" metadata_str;
  buf ← assertString (LF +:+ "date column: ") buf;
  buf ← assertString (date_column_name d) buf;
  buf ← assertString (LF +:+ "sampling expression: ") buf;
  buf ← assertString (formattedAST (sampling_expression d)) buf;
  buf ← assertString (LF +:+ "index granularity: ") buf;
  buf ← assertString (toString (index_granularity d)) buf;
  buf ← assertString (LF +:+ "mode: ") buf;
  buf ← assertString (toString (mode d)) buf;
  buf ← assertString (LF +:+ "sign column: ") buf;
  buf ← assertString (sign_column d) buf;
  buf ← assertString (LF +:+ "primary key: ") buf;
  buf ← assertString (formattedAST (primary_expr_ast d)) buf;
  buf ← assertString (LF +:+ "columns:" +:+ LF) buf;
  buf ← check_columns (columns d) buf;
  assertEOF buf.

Definition checkTableStructure : M unit :=
  s ← get_storage;
  metadata_str ← zk_get (zookeeper_path s +:+ "/metadata");
  lift (check_metadata (structure s) metadata_str).

(** *** Reconciling the local parts *)

(** The first loop of [checkParts]: an expected name that is found locally is
    erased from the set, a local part that is not expected is collected. *)
Definition checkParts_scan (expected_parts : gset string) (parts : list DataPart)
  : gset string * list DataPart :=
  foldl (λ (acc : gset string * list DataPart) part,
           if decide (name part ∈ acc.1)
           then (acc.1 ∖ {[ name part ]}, acc.2)
           else (acc.1, (acc.2 ++ [part])%list))
        (expected_parts, []) parts.

Definition checkParts : M unit :=
  s ← get_storage;
  expected_parts_vec ← zk_getChildren (replica_path s +:+ "/parts");
  let expected_parts : gset string := list_to_set expected_parts_vec in
  let parts := getDataParts (data s) in
  let '(expected_parts, unexpected_parts) := checkParts_scan expected_parts parts in
  if negb (bool_decide (expected_parts = ∅))
  then throw (Exn.Exception Exn.NOT_FOUND_EXPECTED_DATA_PART)
  else if bool_decide (1 < length unexpected_parts)%nat
  then throw (Exn.Exception Exn.TOO_MANY_UNEXPECTED_DATA_PARTS)
  else
    for_each (λ part,
      _ ← LOG ERROR ("Unexpected part " +:+ name part +:+ ". Renaming it to ignored_" +:+ name part);
      modify (λ s, set_data (renameAndDetachPart part "ignored_" (data s)) s))
      unexpected_parts.

(** The local parts that the coordinator does not list, and the names the
    coordinator lists of which there is no local part. *)
Definition unexpected_parts (expected : gset string) (parts : list DataPart) : list DataPart :=
  filter (λ p, name p ∉ expected) parts.


(** *** Pulling the logs into the queue *)

(** Modelled from the spec: [LogEntry::tagPartsAsCurrentlyMerging] is declared
    in the header, which is not part of the source.  "If the entry is a
    MERGE_PARTS, each name in parts_to_merge is added to currently_merging." *)
Definition tagPartsAsCurrentlyMerging (entry : LogEntry.t) : M unit :=
  match LogEntry.type entry with
  | LogEntry.MERGE_PARTS =>
      modify (λ s, set_currently_merging
                     (currently_merging s ∪ list_to_set (LogEntry.parts_to_merge entry)) s)
  | LogEntry.GET_PART => mret ()
  end.


Definition queue_push_back (entry : LogEntry.t) : M unit :=
  modify (λ s, set_queue (queue s ++ [entry])%list s).

Record LogIterator := {
  replica : string;
  index : Z;
  timestamp : Z;
  entry_str : string;
}.

(** [LogIterator::operator<]. *)
Definition LogIterator_lt (lhs rhs : LogIterator) : bool :=
  bool_decide (timestamp lhs < timestamp rhs).

(** [LogIterator::readEntry]. *)
Definition readEntry (it : LogIterator) (zk : zkutil.ZooKeeper) (zookeeper_path : string)
  : bool * LogIterator :=
  let index_str := pad10 (toString (index it)) in
  match zkutil.tryGet zk
          (zookeeper_path +:+ "/replicas/" +:+ replica it +:+ "/log/log-" +:+ index_str) with
  | None => (false, it)
  | Some (str, stat) =>
      (true, {| replica := replica it; index := index it;
                timestamp := zkutil.czxid stat; entry_str := str |})
  end.

(** [std::priority_queue<LogIterator>] by its contract: [top] is an element
    that is not [operator<] any other element.  The elements are kept in a list
    with the top at its head; among equal elements the one pushed first is on
    top (the standard leaves that order open). *)
Fixpoint pq_push (x : LogIterator) (pq : list LogIterator) : list LogIterator :=
  match pq with
  | [] => [x]
  | y :: pq' => if LogIterator_lt y x then x :: pq else y :: pq_push x pq'
  end.

(** The order in which the list holds the queue: later timestamps first. *)
Definition later_first (a b : LogIterator) : Prop := timestamp b ≤ timestamp a.

(** The body of the first loop of [pullLogsToQueue]: the iterator of one
    replica, at the log pointer this replica keeps for it (created at the first
    entry of the log when there is none yet). *)
Definition pull_init_iterator (replica : string) : M LogIterator :=
  s ← get_storage;
  ptr ← zk_tryGet (replica_path s +:+ "/log_pointers/" +:+ replica);
  index ←
    match ptr with
    | Some (index_str, _) => lift (parse_UInt64 index_str)
    | None =>
        entries ← zk_getChildren (zookeeper_path s +:+ "/replicas/" +:+ replica +:+ "/log");
        let entries := merge_sort String.le entries in
        index ← lift (match entries with
                      | [] => Ok 0
                      | entry :: _ => parse_UInt64 (substr_from 4 entry)
                      end);
        _ ← zk_create (replica_path s +:+ "/log_pointers/" +:+ replica) (toString index)
              zkutil.Persistent;
        mret index
    end;
  mret {| replica := replica; index := index; timestamp := 0; entry_str := "" |}.

Fixpoint pull_init (replicas : list string) (priority_queue : list LogIterator)
  : M (list LogIterator) :=
  match replicas with
  | [] => mret priority_queue
  | replica :: replicas' =>
      iterator ← pull_init_iterator replica;
      s ← get_storage;
      let '(found, iterator) := readEntry iterator (zookeeper s) (zookeeper_path s) in
      pull_init replicas' (if found then pq_push iterator priority_queue else priority_queue)
  end.

(** What the second loop of [pullLogsToQueue] does with the iterator it popped:
    one [multi] creates the queue node and advances the log pointer, then the
    entry is put at the end of the queue in memory. *)
Definition pull_entry (iterator : LogIterator) : M unit :=
  entry ← lift (LogEntry.parse (entry_str iterator));
  s ← get_storage;
  results ← zk_multi
    [ zkutil.Create (replica_path s +:+ "/queue/queue-") (entry_str iterator)
        zkutil.PersistentSequential;
      zkutil.SetData (replica_path s +:+ "/log_pointers/" +:+ replica iterator)
        (toString (wrap64 (index iterator + 1))) (-1) ];
  let path_created := zkutil.getPathCreated (default zkutil.RemoveResult (head results)) in
  let entry :=
    LogEntry.mk (basename path_created) (LogEntry.type entry) (LogEntry.source_replica entry)
      (LogEntry.new_part_name entry) (LogEntry.parts_to_merge entry) in
  _ ← tagPartsAsCurrentlyMerging entry;
  queue_push_back entry.

(** The second loop, [while (!priority_queue.empty())]; one unit of fuel per
    turn. *)
Fixpoint pull_loop (fuel : nat) (priority_queue : list LogIterator) (count : Z) : M Z :=
  match priority_queue with
  | [] => mret count
  | iterator :: priority_queue =>
      match fuel with
      | O => out_of_fuel
      | S fuel' =>
          _ ← pull_entry iterator;
          let iterator :=
            {| replica := replica iterator; index := wrap64 (index iterator + 1);
               timestamp := timestamp iterator; entry_str := entry_str iterator |} in
          s ← get_storage;
          let '(found, iterator) := readEntry iterator (zookeeper s) (zookeeper_path s) in
          pull_loop fuel' (if found then pq_push iterator priority_queue else priority_queue)
            (count + 1)
      end
  end.

Definition pullLogsToQueue (fuel : nat) : M unit :=
  s ← get_storage;
  replicas ← zk_getChildren (zookeeper_path s +:+ "/replicas");
  priority_queue ← pull_init replicas [];
  count ← pull_loop fuel priority_queue 0;
  if bool_decide (0 < count)
  then LOG DEBUG ("Pulled " +:+ toString count +:+ " entries to queue")
  else mret ().

(** *** Executing a log entry *)

Fixpoint shouldExecute_loop (entry : LogEntry.t) (names : list string) : M bool :=
  match names with
  | [] => mret true
  | part_name :: names' =>
      s ← get_storage;
      if bool_decide (part_name ∈ future_parts s) then
        _ ← LOG TRACE ("Not merging into part " +:+ LogEntry.new_part_name entry +:+
                       " yet because part " +:+ part_name +:+ " is not ready yet.");
        mret false
      else shouldExecute_loop entry names'
  end.

Definition shouldExecuteLogEntry (entry : LogEntry.t) : M bool :=
  match LogEntry.type entry with
  | LogEntry.MERGE_PARTS => shouldExecute_loop entry (LogEntry.parts_to_merge entry)
  | LogEntry.GET_PART => mret true
  end.

Definition findActiveReplicaHavingPart (part_name : string) : M string :=
  s ← get_storage;
  replicas ← zk_getChildren (zookeeper_path s +:+ "/replicas");
  let replicas := random_shuffle replicas in
  match
    List.find (λ replica,
      zkutil.exists_ (zookeeper s)
        (zookeeper_path s +:+ "/replicas/" +:+ replica +:+ "/parts/" +:+ part_name)
      && zkutil.exists_ (zookeeper s)
           (zookeeper_path s +:+ "/replicas/" +:+ replica +:+ "/is_active"))
      replicas
  with
  | Some replica => mret replica
  | None => throw (Exn.Exception Exn.NO_REPLICA_HAS_PART)
  end.

(** The text of [/host]: ["host: H\nport: P\n"]. *)
Definition parse_host_port (host_port_str : string) : Result (string * Z) :=
  buf ← assertString "host: " host_port_str;
  let '(host, buf) := readString buf in
  buf ← assertString (LF +:+ "port: ") buf;
  '(port, buf) ← readUIntText buf;
  buf ← assertString LF buf;
  _ ← assertEOF buf;
  Ok (host, port).

(** The operations that remove the coordinator nodes of [parts]. *)
Definition remove_part_ops (replica_path : string) (parts : list DataPart) : list zkutil.Op :=
  flat_map (λ part,
    [ zkutil.Remove (replica_path +:+ "/parts/" +:+ name part +:+ "/checksums") (-1);
      zkutil.Remove (replica_path +:+ "/parts/" +:+ name part) (-1) ]) parts.

Definition create_part_ops (replica_path : string) (part : DataPart) : list zkutil.Op :=
  [ zkutil.Create (replica_path +:+ "/parts/" +:+ name part) "" zkutil.Persistent;
    zkutil.Create (replica_path +:+ "/parts/" +:+ name part +:+ "/checksums")
      (checksums part) zkutil.Persistent ].

Definition fetchPart (part_name replica_name : string) : M unit :=
  _ ← LOG DEBUG ("Fetching part " +:+ part_name +:+ " from " +:+ replica_name);
  s ← get_storage;
  host_port_str ← zk_get (zookeeper_path s +:+ "/replicas/" +:+ replica_name +:+ "/host");
  '(host, port) ← lift (parse_host_port host_port_str);
  part ← lift (fetcher_fetchPart part_name
                 (zookeeper_path s +:+ "/replicas/" +:+ replica_name) host port);
  let '(removed_parts, d) := renameTempPartAndReplace part (data s) in
  _ ← modify (set_data d);
  _ ← for_each (λ removed_part,
         _ ← LOG DEBUG ("Part " +:+ name removed_part +:+
                        " is rendered obsolete by fetching part " +:+ part_name);
         increment ObsoleteReplicatedParts) removed_parts;
  _ ← zk_multi (create_part_ops (replica_path s) part
                ++ remove_part_ops (replica_path s) removed_parts)%list;
  _ ← increment ReplicatedPartFetches;
  LOG DEBUG "Fetched part".

(** The loop of the merge branch that looks up the parts to merge; it stops at
    the first part that is missing or covered by another part. *)
Fixpoint collect_parts (entry : LogEntry.t) (names : list string) (parts : list DataPart)
  : M (bool * list DataPart) :=
  match names with
  | [] => mret (true, parts)
  | part_name :: names' =>
      s ← get_storage;
      match getContainingPart (data s) part_name with
      | None => mret (false, parts)
      | Some part =>
          if decide (name part ≠ part_name) then
            _ ← LOG ERROR ("Log and parts set look inconsistent: " +:+ part_name +:+
                           " is covered by " +:+ name part +:+
                           " but should be merged into " +:+ LogEntry.new_part_name entry);
            mret (false, parts)
          else collect_parts entry names' (parts ++ [part])%list
      end
  end.

(** The merge branch of [executeLogEntry]; it returns [do_fetch]. *)
Definition execute_merge (entry : LogEntry.t) : M bool :=
  '(have_all_parts, parts) ← collect_parts entry (LogEntry.parts_to_merge entry) [];
  if negb have_all_parts then
    _ ← LOG DEBUG ("Don't have all parts for merge " +:+ LogEntry.new_part_name entry +:+
                   "; will try to fetch it instead");
    mret true
  else
    s ← get_storage;
    let '(merged, d) := mergeParts parts (LogEntry.new_part_name entry) (data s) in
    _ ← modify (set_data d);
    part ← lift merged;
    _ ← zk_multi (create_part_ops (replica_path s) part
                  ++ remove_part_ops (replica_path s) parts)%list;
    _ ← modify (λ s, set_data (clearOldParts (data s)) s);
    _ ← increment ReplicatedPartMerges;
    mret false.

(** The position of the first merge in the queue that takes [part_name]. *)
Fixpoint find_merge_entry (queue : list LogEntry.t) (part_name : string) : option nat :=
  match queue with
  | [] => None
  | it :: queue' =>
      if bool_decide (LogEntry.type it = LogEntry.MERGE_PARTS)
         && bool_decide (part_name ∈ LogEntry.parts_to_merge it)
      then Some O
      else S <$> find_merge_entry queue' part_name
  end.

(** The loop that moves entries to the end of the queue.  Iterators are
    positions in the list: after [queue.splice(queue.end(), queue, it0, it)]
    the element that followed [it0] is at the position of [it0], and
    [merge_entry] is one position earlier.  Each turn either steps forward or
    brings [merge_entry] one position closer, so the length of the queue is
    fuel enough. *)
Fixpoint splice_loop (fuel : nat) (parts_for_merge : gset string)
    (queue : list LogEntry.t) (it merge_entry : nat) : list LogEntry.t :=
  match fuel with
  | O => queue
  | S fuel' =>
      match queue !! it with
      | None => queue
      | Some e0 =>
          if decide (it = merge_entry) then queue
          else if bool_decide (LogEntry.new_part_name e0 ∈ parts_for_merge)
          then splice_loop fuel' parts_for_merge (delete it queue ++ [e0])%list
                 it (merge_entry - 1)%nat
          else splice_loop fuel' parts_for_merge queue (S it) merge_entry
      end
  end.

(** The handler of a failed fetch, under the queue mutex. *)
Definition reprioritize (entry : LogEntry.t) (queue : list LogEntry.t) : list LogEntry.t :=
  match find_merge_entry queue (LogEntry.new_part_name entry) with
  | None => queue
  | Some merge_entry =>
      let parts_for_merge : gset string :=
        list_to_set (default [] (LogEntry.parts_to_merge <$> queue !! merge_entry)) in
      if bool_decide (parts_for_merge = ∅) then queue
      else splice_loop (length queue) parts_for_merge queue 0 merge_entry
  end.

(** The statements inside [try] of the fetch block. *)
Definition fetch_body (entry : LogEntry.t) : M unit :=
  replica ← findActiveReplicaHavingPart (LogEntry.new_part_name entry);
  _ ← fetchPart (LogEntry.new_part_name entry) replica;
  match LogEntry.type entry with
  | LogEntry.MERGE_PARTS => increment ReplicatedPartFetchesOfMerged
  | LogEntry.GET_PART => mret ()
  end.

Definition execute_fetch (entry : LogEntry.t) : M unit :=
  try_catch (fetch_body entry)
    (λ e, _ ← modify (λ s, set_queue (reprioritize entry (queue s)) s); throw e).

(** The first block of [executeLogEntry]: is the part, or a part covering it,
    already here and registered in the coordinator? *)
Definition already_have (entry : LogEntry.t) (s : Storage) : bool :=
  match getContainingPart (data s) (LogEntry.new_part_name entry) with
  | Some containing_part =>
      zkutil.exists_ (zookeeper s) (replica_path s +:+ "/parts/" +:+ name containing_part)
  | None => false
  end.

Definition is_own_get (entry : LogEntry.t) (s : Storage) : bool :=
  bool_decide (LogEntry.type entry = LogEntry.GET_PART)
  && bool_decide (LogEntry.source_replica entry = replica_name s).

(** What [executeLogEntry] does once the entry was not skipped, up to the
    decision [do_fetch]: the error about a part of the own log, and the merge,
    if the entry is one and its parts are here. *)
Definition execute_decide (entry : LogEntry.t) : M bool :=
  s ← get_storage;
  _ ← (if is_own_get entry s
       then LOG ERROR ("Part " +:+ LogEntry.new_part_name entry +:+
                       " from own log doesn't exist. This is a bug.")
       else mret ());
  match LogEntry.type entry with
  | LogEntry.GET_PART => mret true
  | LogEntry.MERGE_PARTS => execute_merge entry
  end.

Definition execute_rest (entry : LogEntry.t) : M unit :=
  do_fetch ← execute_decide entry;
  if do_fetch : bool then execute_fetch entry else mret ().

(** [executeLogEntry].  An entry has one of the two types, so the final
    [else throw] of the source is never reached. *)
Definition executeLogEntry (entry : LogEntry.t) : M unit :=
  s ← get_storage;
  if already_have entry s then
    if negb (is_own_get entry s)
    then LOG DEBUG ("Skipping action for part " +:+ LogEntry.new_part_name entry +:+
                    " - part already exists")
    else mret ()
  else execute_rest entry.

(** *** The executor thread *)

(** The scan of the queue for the first entry to execute; it returns the
    position of the entry. *)
Fixpoint find_work (queue : list LogEntry.t) (pos : nat) : M (option (nat * LogEntry.t)) :=
  match queue with
  | [] => mret None
  | it :: queue' =>
      should ← shouldExecuteLogEntry it;
      if should : bool then mret (Some (pos, it)) else find_work queue' (S pos)
  end.

(** Modelled from the spec: the taggers are declared in the header.  "Tags
    release their set membership when cleared or on entry destruction."  The
    future-part tag of the claimed entry has that entry as its only holder. *)
Definition release_future_part (entry : LogEntry.t) : M unit :=
  modify (λ s, set_future_parts (future_parts s ∖ {[ LogEntry.new_part_name entry ]}) s).

(** The tag on the parts to merge is released with its last holder: the entry
    that was erased from the queue and executed. *)
Definition release_currently_merging (entry : LogEntry.t) : M unit :=
  match LogEntry.type entry with
  | LogEntry.MERGE_PARTS =>
      modify (λ s, set_currently_merging
                     (currently_merging s ∖ list_to_set (LogEntry.parts_to_merge entry)) s)
  | LogEntry.GET_PART => mret ()
  end.

(** The part of a turn of [queueThread] that runs once an entry was claimed:
    execute it, remove its queue node, and on failure put it back at the end
    of the queue.  Nothing is thrown out of it. *)
Definition queueThread_execute (entry : LogEntry.t) : M unit :=
  success ←
    try_catch
      (_ ← executeLogEntry entry;
       s ← get_storage;
       code ← zk_tryRemove (replica_path s +:+ "/queue/" +:+ LogEntry.znode_name entry);
       _ ← (match code with
            | None => mret ()
            | Some _ =>
                LOG ERROR ("Couldn't remove " +:+ replica_path s +:+ "/queue/" +:+
                           LogEntry.znode_name entry +:+
                           ". There must be a bug somewhere. Ignoring it.")
            end);
       mret true)
      (λ e,
         _ ← (if decide (e = Exn.Exception Exn.NO_REPLICA_HAS_PART)
              then LOG INFO "No active replica has part"
              else LOG ERROR "queueThread: exception");
         mret false);
  s ← get_storage;
  if shutdown_called s then
    _ ← release_future_part entry;
    release_currently_merging entry
  else if success : bool then
    _ ← release_currently_merging entry;
    release_future_part entry
  else
    _ ← release_future_part entry;
    queue_push_back entry.


(** *** The merge predicate *)

Definition block_number_path (zookeeper_path : string) (number : Z) : string :=
  zookeeper_path +:+ "/block_numbers/block-" +:+ pad10 (toString number).

(** The loop [for (UInt64 number = ...; number <= last; ++number)] of
    [canMergeParts], one unit of fuel per turn. *)
Fixpoint canMergeParts_loop (fuel : nat) (left right : DataPart) (number last : Z) : M bool :=
  if bool_decide (number ≤ last)%Z then
    match fuel with
    | O => out_of_fuel
    | S fuel' =>
        s ← get_storage;
        let path := block_number_path (zookeeper_path s) number in
        if decide (AbandonableLockInZooKeeper.check path (zookeeper s)
                   ≠ AbandonableLockInZooKeeper.ABANDONED) then
          _ ← LOG DEBUG ("Can't merge parts " +:+ name left +:+ " and " +:+ name right +:+
                         " because block " +:+ path +:+ " exists");
          mret false
        else canMergeParts_loop fuel' left right (wrap64 (number + 1)) last
    end
  else mret true.

Definition canMergeParts (fuel : nat) (left right : DataPart) : M bool :=
  s ← get_storage;
  if bool_decide (name left ∈ currently_merging s)
     || bool_decide (name right ∈ currently_merging s)
  then mret false
  else canMergeParts_loop fuel left right
         (wrap64 (MergeTreeData.right left + 1)) (wrap64 (MergeTreeData.left right - 1)).

(** What a method leaves alone when it touches neither the queue nor the
    flags of the executor. *)
Definition same_queue (s s' : Storage) : Prop :=
  queue s' = queue s ∧ shutdown_called s' = shutdown_called s.

Definition keeps_queue {A} (m : M A) : Prop :=
  ∀ s r s', m s = (r, s') → same_queue s s'.

(** What the storage object becomes through whole entries only: each step is
    a turn of the loop of [pullLogsToQueue] whose [multi] went through. *)
Inductive pulled : Storage → Storage → Prop :=
  | pulled_refl s : pulled s s
  | pulled_step iterator s s' s'' :
      pull_entry iterator s = (Ok (), s') → pulled s' s'' → pulled s s''.


(** *** Bringing a replica up *)

(** The constructor's [zookeeper_path.erase(zookeeper_path.end() - 1)], done
    when the path is not empty and ends in a slash: one slash is taken off. *)
Fixpoint erase_trailing_slash (p : string) : string :=
  match p with
  | "" => ""
  | String c p' =>
      match p' with
      | "" => if bool_decide (c = "/"%char) then "" else p
      | _ => String c (erase_trailing_slash p')
      end
  end.

(** The members as the constructor's initialiser list and its first two
    statements leave them; [zk] is the session of the context and [d] the
    local part store that [data(...)] opens. *)
Definition init (zk : zkutil.ZooKeeper) (d : Data) (definition : Structure)
    (zookeeper_path_ replica_name_ : string) : Storage :=
  let zookeeper_path := erase_trailing_slash zookeeper_path_ in
  {| zookeeper := zk; data := d; structure := definition;
     zookeeper_path := zookeeper_path; replica_name := replica_name_;
     replica_path := zookeeper_path +:+ "/replicas/" +:+ replica_name_;
     queue := []; future_parts := ∅; currently_merging := ∅;
     shutdown_called := false; log := []; profile_events := [] |}.

Definition createReplica : M unit :=
  s ← get_storage;
  let rp := replica_path s in
  _ ← zk_create rp "" zkutil.Persistent;
  _ ← zk_create (rp +:+ "/host") "" zkutil.Persistent;
  _ ← zk_create (rp +:+ "/log") "" zkutil.Persistent;
  _ ← zk_create (rp +:+ "/log_pointers") "" zkutil.Persistent;
  _ ← zk_create (rp +:+ "/queue") "" zkutil.Persistent;
  _ ← zk_create (rp +:+ "/parts") "" zkutil.Persistent;
  mret ().

(** The text [activateReplica] puts in [/host]. *)
Definition host_text (host : string) (port : Z) : string :=
  "host: " +:+ host +:+ LF +:+ "port: " +:+ toString port +:+ LF.

(** [activateReplica]; [host] and [port] are what the context answers to
    [getInterserverIOHost()] and [getInterserverIOPort()].  The holder that
    removes the ephemeral node when the object goes away is left out. *)
Definition activateReplica (host : string) (port : Z) : M unit :=
  s ← get_storage;
  _ ← try_catch
        (zk_multi
           [ zkutil.Create (replica_path s +:+ "/is_active") "" zkutil.Ephemeral;
             zkutil.SetData (replica_path s +:+ "/host") (host_text host port) (-1) ])
        (λ e, if decide (e = Exn.KeeperException Exn.ZNodeExists)
              then throw (Exn.Exception Exn.REPLICA_IS_ALREADY_ACTIVE)
              else throw e);
  mret ().

(** The loop of [isTableEmpty] over the replicas. *)
Fixpoint isTableEmpty_loop (replicas : list string) : M bool :=
  match replicas with
  | [] => mret true
  | replica :: replicas' =>
      s ← get_storage;
      parts ← zk_getChildren (zookeeper_path s +:+ "/replicas/" +:+ replica +:+ "/parts");
      if negb (bool_decide (parts = [])) then mret false
      else isTableEmpty_loop replicas'
  end.

Definition isTableEmpty : M bool :=
  s ← get_storage;
  replicas ← zk_getChildren (zookeeper_path s +:+ "/replicas");
  isTableEmpty_loop replicas.

(** The body of the loop of [loadQueue] for the node [child]. *)
Definition load_entry (child : string) : M unit :=
  s ← get_storage;
  text ← zk_get (replica_path s +:+ "/queue/" +:+ child);
  entry ← lift (LogEntry.parse text);
  let entry :=
    LogEntry.mk child (LogEntry.type entry) (LogEntry.source_replica entry)
      (LogEntry.new_part_name entry) (LogEntry.parts_to_merge entry) in
  _ ← tagPartsAsCurrentlyMerging entry;
  queue_push_back entry.

Definition loadQueue : M unit :=
  s ← get_storage;
  children ← zk_getChildren (replica_path s +:+ "/queue");
  let children := merge_sort String.le children in
  for_each load_entry children.

(** The body of the constructor after the paths are set, up to and including
    [activateReplica]; the leader election and the threads it starts next are
    left out. *)
Definition startup (attach : bool) (host : string) (port : Z) : M unit :=
  s ← get_storage;
  _ ← (if negb attach then
         _ ← (if negb (zkutil.exists_ (zookeeper s) (zookeeper_path s))
              then createTable else mret ());
         empty ← isTableEmpty;
         if negb empty
         then throw (Exn.Exception Exn.ADDING_REPLICA_TO_NON_EMPTY_TABLE)
         else
           _ ← checkTableStructure;
           createReplica
       else
         _ ← checkTableStructure;
         checkParts);
  _ ← loadQueue;
  activateReplica host port.

(** *** The leader's bookkeeping *)

(** The loop of [mergeSelectingThread] that looks for a big merge among the
    parts being merged; [size * index_granularity] is a product of two
    [size_t]. *)
Fixpoint has_big_merge_loop (names : list string) : M bool :=
  match names with
  | [] => mret false
  | part_name :: names' =>
      s ← get_storage;
      match getContainingPart (data s) part_name with
      | None => has_big_merge_loop names'
      | Some part =>
          if decide (name part ≠ part_name) then
            _ ← LOG INFO ("currently_merging contains obsolete part " +:+ part_name +:+
                          " contained in" +:+ name part);
            has_big_merge_loop names'
          else if bool_decide (25 * 1024 * 1024
                               < wrap64 (size part * index_granularity (structure s)))
          then mret true
          else has_big_merge_loop names'
      end
  end.

Definition has_big_merge : M bool :=
  s ← get_storage;
  has_big_merge_loop (elements (currently_merging s)).

(** What [mergeSelectingThread] does with the parts [selectPartsToMerge] chose:
    the merge is written to the end of this replica's log. *)
Definition log_merge_entry (parts : list DataPart) (merged_name : string) : M unit :=
  s ← get_storage;
  let entry :=
    LogEntry.mk "" LogEntry.MERGE_PARTS (replica_name s) merged_name (name <$> parts) in
  _ ← zk_create (replica_path s +:+ "/log/log-") (LogEntry.toString entry)
        zkutil.PersistentSequential;
  mret ().

(** *** Predicates of the statements *)

(** A method leaves the member (or coordinator, or log) [f] as it was,
    however it ends. *)
Definition preserves {A B} (f : Storage → B) (m : M A) : Prop :=
  ∀ s r s', m s = (r, s') → f s' = f s.

(** What the coordinator holds: the data of every node, by path. *)
Definition contents (zk : zkutil.ZooKeeper) : gmap string string :=
  zkutil.node_data <$> zkutil.nodes zk.

(** The entries are what [loadQueue] makes of the queue nodes [children]:
    each has the name of its node and the fields parsed from the node's
    text. *)
Definition loaded_from (zk : zkutil.ZooKeeper) (replica_path : string)
    (children : list string) (entries : list LogEntry.t) : Prop :=
  Forall2 (λ child entry,
    LogEntry.znode_name entry = child
    ∧ ∃ text parsed,
        zkutil.get zk (replica_path +:+ "/queue/" +:+ child) = Ok text
        ∧ LogEntry.parse text = Ok parsed ∧ LogEntry.same_record entry parsed)
    children entries.

(** The part is in the local store under its own name, and big: more than
    25 MiB, by the product [mergeSelectingThread] computes. *)
Definition big_part_here (s : Storage) (part_name : string) : Prop :=
  ∃ part, getContainingPart (data s) part_name = Some part ∧ name part = part_name
          ∧ 25 * 1024 * 1024 < wrap64 (size part * index_granularity (structure s)).

(** The coordinator paths of a part: its node under [/parts] and the node of
    its checksums. *)
Definition part_paths (replica_path : string) (part : DataPart) : list string :=
  [ replica_path +:+ "/parts/" +:+ name part;
    replica_path +:+ "/parts/" +:+ name part +:+ "/checksums" ].

(** The coordinator holds [after] once [part] was registered in [before] and
    the parts [removed] were taken out. *)
Definition registered (replica_path : string) (part : DataPart) (removed : list DataPart)
    (before after : gmap string string) : Prop :=
  after
  = foldr delete
      (<[replica_path +:+ "/parts/" +:+ name part +:+ "/checksums" := checksums part]>
         (<[replica_path +:+ "/parts/" +:+ name part := ""]> before))
      (flat_map (part_paths replica_path) removed).

(** The entry may be executed: what [shouldExecuteLogEntry] tests. *)
Definition executable (s : Storage) (entry : LogEntry.t) : Prop :=
  LogEntry.type entry = LogEntry.MERGE_PARTS →
  Forall (λ part_name, part_name ∉ future_parts s) (LogEntry.parts_to_merge entry).

End methods.

(** ** A concrete table to run the model on *)

Module Example.

Import IO MergeTreeData.

(** A part store that keeps its parts in a list, in which a part is covered by
    itself only, and that records the directories it detached. *)
Record Store := {
  parts : list DataPart;
  detached : list string;
}.

#[global] Instance store_ops : PartStore Store := {|
  getDataParts d := parts d;
  getContainingPart d part_name :=
    List.find (λ p, bool_decide (name p = part_name)) (parts d);
  renameAndDetachPart part prefix d :=
    {| parts := List.filter (λ p, negb (bool_decide (name p = name part))) (parts d);
       detached := (detached d ++ [prefix +:+ name part])%list |};
  renameTempPartAndReplace part d :=
    ([], {| parts := (parts d ++ [part])%list; detached := detached d |});
  clearOldParts d := d;
  mergeParts ps new_name d :=
    let merged := {| name := new_name; left := 0; right := 0; size := 0; checksums := "" |} in
    (Ok merged,
     {| parts := (List.filter (λ p, negb (bool_decide (p ∈ ps))) (parts d) ++ [merged])%list;
        detached := detached d |});
|}.

(** No replica can be reached. *)
#[global] Instance fetcher_down : PartFetcher :=
  λ _ _ _ _, Throw (Exn.Exception Exn.EXTERNAL_FAILURE).

#[global] Instance shuffle_id : Shuffle := λ replicas, replicas.

(** No block number has an abandoned lock. *)
#[global] Instance check_unlocked : AbandonableLockInZooKeeper.Check :=
  λ _ _, AbandonableLockInZooKeeper.UNLOCKED.

(** Back quotes around the name, with a backslash before every back quote and
    backslash of the name; the reader accepts nothing else. *)
Definition needs_escape (c : ascii) : bool :=
  bool_decide (c = "`"%char) || bool_decide (c = "\"%char).

Fixpoint escape (s : string) : string :=
  match s with
  | "" => ""
  | String c s' =>
      if needs_escape c then String "\"%char (String c (escape s'))
      else String c (escape s')
  end.

Fixpoint read_quoted_body (buf : string) : Result (string * string) :=
  match buf with
  | "" => Throw (Exn.Exception Exn.CANNOT_PARSE_QUOTED_STRING)
  | String c buf' =>
      if bool_decide (c = "`"%char) then Ok ("", buf')
      else if bool_decide (c = "\"%char) then
        match buf' with
        | String d buf'' =>
            if needs_escape d then
              '(s, rest) ← read_quoted_body buf''; Ok (String d s, rest)
            else Throw (Exn.Exception Exn.CANNOT_PARSE_QUOTED_STRING)
        | "" => Throw (Exn.Exception Exn.CANNOT_PARSE_QUOTED_STRING)
        end
      else '(s, rest) ← read_quoted_body buf'; Ok (String c s, rest)
  end.

#[global] Instance quoting : BackQuoting := {|
  writeBackQuotedString col_name := "`" +:+ escape col_name +:+ "`";
  readBackQuotedString buf :=
    match buf with
    | String c buf' =>
        if bool_decide (c = "`"%char) then read_quoted_body buf'
        else Throw (Exn.Exception Exn.CANNOT_PARSE_QUOTED_STRING)
    | "" => Throw (Exn.Exception Exn.CANNOT_PARSE_QUOTED_STRING)
    end;
|}.

(** The coordinator after creating the nodes [paths], with their data, one
    after the other. *)
Definition zk_with (paths : list (string * string)) : zkutil.ZooKeeper :=
  foldl (λ zk pd, (zkutil.create pd.1 pd.2 zkutil.Persistent zk).2) zkutil.empty paths.

Definition structure0 : Structure :=
  {| date_column_name := "EventDate"; sampling_expression := None;
     index_granularity := 8192; mode := 0; sign_column := "";
     primary_expr_ast := Some "CounterID, EventDate";
     columns := [("EventDate", "Date"); ("CounterID", "UInt32"); ("a`b", "String")] |}.

(** Replica [r1] of the table at [/t]. *)
Definition storage (zk : zkutil.ZooKeeper) (d : Store) (q : list LogEntry.t) : Storage Store :=
  {| zookeeper := zk; data := d; structure := structure0;
     zookeeper_path := "/t"; replica_name := "r1"; replica_path := "/t/replicas/r1";
     queue := q; future_parts := ∅; currently_merging := ∅;
     shutdown_called := false; log := []; profile_events := [] |}.

Definition part (part_name : string) (l r : Z) : DataPart :=
  {| name := part_name; left := l; right := r; size := 1; checksums := "" |}.

Definition get_entry (source part_name : string) : LogEntry.t :=
  LogEntry.mk "" LogEntry.GET_PART source part_name [].

Definition merge_entry (source : string) (sources : list string) (part_name : string)
  : LogEntry.t :=
  LogEntry.mk "" LogEntry.MERGE_PARTS source part_name sources.

(** Two replicas; [r1] wrote part [20140401_0_0_0] and logged it, then [r2]
    wrote part [20140401_1_1_0] and logged it.  Replica [r1] has no log pointers
    yet. *)
Definition two_logs : zkutil.ZooKeeper :=
  zk_with
    [ ("/t", ""); ("/t/replicas", "");
      ("/t/replicas/r1", ""); ("/t/replicas/r1/log", "");
      ("/t/replicas/r1/log_pointers", ""); ("/t/replicas/r1/queue", "");
      ("/t/replicas/r2", ""); ("/t/replicas/r2/log", "");
      ("/t/replicas/r1/log/log-0000000000",
         LogEntry.toString (get_entry "r1" "20140401_0_0_0"));
      ("/t/replicas/r2/log/log-0000000000",
         LogEntry.toString (get_entry "r2" "20140401_1_1_0")) ].

End Example.

(** * Properties *)

(** Unfolding the plumbing of the method monad, and nothing else. *)
Ltac munfold :=
  unfold LOG, increment, queue_push_back;
  unfold mbind, M_bind, mret, M_ret, get_storage, modify, throw, lift, out_of_fuel;
  cbv beta iota zeta.

(** ** Properties of the text helpers *)

Section io_lemmas.

Import IO.
#[local] Arguments String.append !_ _ / : simpl nomatch.

Lemma app_assoc_s (a b c : string) : (a +:+ b) +:+ c = a +:+ (b +:+ c).
Proof. induction a as [|x a IH]; simpl; [done | by rewrite IH]. Qed.

Lemma app_empty_r (a : string) : a +:+ "" = a.
Proof. induction a as [|x a IH]; simpl; [done | by rewrite IH]. Qed.

Lemma length_app_s (a b : string) :
  String.length (a +:+ b) = (String.length a + String.length b)%nat.
Proof. induction a as [|x a IH]; simpl; [done | by rewrite IH]. Qed.

Lemma assertString_app (s rest : string) : assertString s (s +:+ rest) = Ok rest.
Proof.
  induction s as [|c s IH]; simpl; [done |].
  by rewrite decide_True.
Qed.

Lemma assertString_self (s : string) : assertString s s = Ok "".
Proof. rewrite <- (app_empty_r s) at 2. apply assertString_app. Qed.

Lemma assertString_Ok_inv (s buf rest : string) :
  assertString s buf = Ok rest → buf = s +:+ rest.
Proof.
  revert buf. induction s as [|c s IH]; intros buf; simpl.
  - by intros [= ->].
  - destruct buf as [|d buf]; [done |].
    case_decide; [| done]. subst d. intros Hs. by rewrite (IH _ Hs).
Qed.

Lemma assertString_Ok_iff (s buf rest : string) :
  assertString s buf = Ok rest ↔ buf = s +:+ rest.
Proof.
  split; [apply assertString_Ok_inv |]. intros ->. apply assertString_app.
Qed.

Lemma assertString_no_fuel (s buf : string) : assertString s buf ≠ OutOfFuel.
Proof.
  revert buf. induction s as [|c s IH]; intros buf; simpl; [done |].
  destruct buf as [|d buf]; [done |]. by case_decide.
Qed.

Lemma assertString_shorter (s buf rest : string) :
  assertString s buf = Ok rest →
  String.length buf = (String.length s + String.length rest)%nat.
Proof. intros ->%assertString_Ok_inv. apply length_app_s. Qed.

Lemma assertEOF_Ok_iff (buf : string) : assertEOF buf = Ok () ↔ buf = "".
Proof. destruct buf; simpl; split; congruence. Qed.

Lemma readString_length (buf : string) :
  (String.length (readString buf).2 ≤ String.length buf)%nat.
Proof.
  induction buf as [|c buf IH]; simpl; [lia |].
  destruct (is_field_end c); simpl; [lia |].
  destruct (readString buf); simpl in *. lia.
Qed.

(** A plain field followed by a line end is read back whole. *)
Lemma readString_plain (s rest : string) :
  plain s = true → readString (s +:+ LF +:+ rest) = (s, LF +:+ rest).
Proof.
  induction s as [|c s IH]; cbn [String.append readString plain].
  - intros _. unfold LF at 1. by cbn.
  - intros [Hc Hs]%andb_true_iff. apply negb_true_iff in Hc. rewrite Hc.
    by rewrite (IH Hs).
Qed.

Lemma readString_plain_end (s : string) :
  plain s = true → readString (s +:+ LF) = (s, LF).
Proof. intros Hs. exact (readString_plain s "" Hs). Qed.

End io_lemmas.

(** ** Properties of the log entry codec *)

Section codec.

Import IO LogEntry.

Ltac rsimpl := cbn [mbind Result_bind rbind].

Lemma lines_cons (p : string) (ps : list string) (tail : string) :
  lines (p :: ps) tail = p +:+ LF +:+ lines ps tail.
Proof. reflexivity. Qed.

Lemma lines_app_tail (ps : list string) (tail : string) :
  foldr (λ s acc, s +:+ LF +:+ acc) "" ps +:+ tail = lines ps tail.
Proof.
  unfold lines. induction ps as [|p ps IH]; cbn [foldr]; [done |].
  by rewrite !app_assoc_s, IH.
Qed.

Lemma lines_app (ps qs : list string) (tail : string) :
  lines (ps ++ qs) tail = lines ps (lines qs tail).
Proof. unfold lines. by rewrite foldr_app. Qed.

Lemma lines_length (ps : list string) (tail : string) :
  (length ps ≤ String.length (lines ps tail))%nat.
Proof.
  unfold lines. induction ps as [|p ps IH]; cbn [foldr length]; [lia |].
  rewrite !length_app_s. change (String.length LF) with 1%nat. lia.
Qed.

(** The merge loop never runs out of the fuel [readText] gives it. *)
Lemma readText_merge_loop_fuel (fuel : nat) (parts : list string) (buf : string) :
  (String.length buf < fuel)%nat → readText_merge_loop fuel parts buf ≠ OutOfFuel.
Proof.
  revert parts buf. induction fuel as [|fuel IH]; intros parts buf Hlt; [lia |].
  cbn [readText_merge_loop]. pose proof (readString_length buf) as Hlen.
  destruct (readString buf) as [s buf1]; simpl in Hlen.
  destruct (assertString LF buf1) as [buf2| |] eqn:Ha; [| done |].
  - apply assertString_shorter in Ha. change (String.length LF) with 1%nat in Ha.
    rsimpl. case_decide; [done |]. apply IH. lia.
  - by apply assertString_no_fuel in Ha.
Qed.

(** [readText] returns or throws on every input. *)
Lemma readText_total (e : LogEntry.t) (buf : string) : readText e buf ≠ OutOfFuel.
Proof.
  unfold readText.
  destruct (assertString _ buf) as [b1| |] eqn:H1;
    [| done | by apply assertString_no_fuel in H1].
  rsimpl. destruct (assertString _ b1) as [b2| |] eqn:H2;
    [| done | by apply assertString_no_fuel in H2].
  rsimpl. destruct (readString b2) as [src b3].
  destruct (assertString LF b3) as [b4| |] eqn:H3;
    [| done | by apply assertString_no_fuel in H3].
  rsimpl. destruct (readString b4) as [ty b5].
  destruct (assertString LF b5) as [b6| |] eqn:H4;
    [| done | by apply assertString_no_fuel in H4].
  rsimpl. cbn [znode_name type source_replica new_part_name parts_to_merge].
  case_decide.
  { destruct (readString b6) as [n b7]. rsimpl.
    destruct (assertString LF b7) eqn:H5; [done | done |].
    by apply assertString_no_fuel in H5. }
  case_decide.
  - pose proof (readText_merge_loop_fuel (S (String.length b6)) (parts_to_merge e) b6) as Hf.
    destruct (readText_merge_loop _ _ b6) as [[ps b7]| |]; [| done |].
    + rsimpl. destruct (readString b7) as [n b8]. rsimpl.
      destruct (assertString LF b8) eqn:H5; [done | done |].
      by apply assertString_no_fuel in H5.
    + exfalso. apply Hf; [lia | done].
  - rsimpl. destruct (assertString LF b6) eqn:H5; [done | done |].
    by apply assertString_no_fuel in H5.
Qed.

(** The loop reads back the source parts that [writeText] wrote, as long as
    none of them is the end marker or carries a field end. *)
Lemma readText_merge_loop_lines (ps acc : list string) (fuel : nat) (tail : string) :
  Forall (λ p, plain p = true) ps → "into" ∉ ps → (length ps < fuel)%nat →
  readText_merge_loop fuel acc (lines ps ("into" +:+ LF +:+ tail))
  = Ok ((acc ++ ps)%list, tail).
Proof.
  revert acc fuel. induction ps as [|p ps IH]; intros acc fuel Hpl Hin Hf.
  - destruct fuel as [|fuel]; [simpl in Hf; lia |].
    rewrite app_nil_r. change (lines [] ?t) with t.
    cbn [readText_merge_loop].
    rewrite (readString_plain "into" tail eq_refl), assertString_app.
    rsimpl. by rewrite decide_True.
  - destruct fuel as [|fuel]; [simpl in Hf; lia |].
    apply Forall_cons in Hpl as [Hp Hps].
    apply not_elem_of_cons in Hin as [Hne Hin].
    rewrite lines_cons. cbn [readText_merge_loop]. rewrite (readString_plain _ _ Hp).
    rewrite assertString_app. cbn. rewrite decide_False by congruence.
    etrans; [apply (IH (acc ++ [p])%list fuel Hps Hin); simpl in Hf; lia |].
    by rewrite <- app_assoc.
Qed.

(** The parts a successful loop returns are the ones it was given followed by
    parts that are not the end marker. *)
Lemma readText_merge_loop_no_into (fuel : nat) (acc ps : list string) (buf rest : string) :
  readText_merge_loop fuel acc buf = Ok (ps, rest) →
  ∃ new, ps = (acc ++ new)%list ∧ "into" ∉ new.
Proof.
  revert acc buf. induction fuel as [|fuel IH]; intros acc buf; [done |].
  cbn [readText_merge_loop]. destruct (readString buf) as [s b1].
  destruct (assertString LF b1) as [b2| |]; [| done | done].
  rsimpl. destruct (decide (s = "into")) as [Hs|Hs].
  - intros [= <- <-]. exists []. rewrite app_nil_r. split; [done | apply not_elem_of_nil].
  - intros Hl. destruct (IH _ _ Hl) as (new & -> & Hn). exists (s :: new).
    rewrite <- app_assoc. split; [done |]. apply not_elem_of_cons. by split.
Qed.

(** No entry read by [readText] into an entry without source parts has a
    source part named "into". *)
Lemma readText_no_into (e0 e : LogEntry.t) (buf rest : string) :
  parts_to_merge e0 = [] → readText e0 buf = Ok (e, rest) →
  "into" ∉ parts_to_merge e.
Proof.
  intros H0. unfold readText.
  destruct (assertString _ buf) as [b1| |]; [| done | done].
  rsimpl. destruct (assertString _ b1) as [b2| |]; [| done | done].
  rsimpl. destruct (readString b2) as [src b3].
  destruct (assertString LF b3) as [b4| |]; [| done | done].
  rsimpl. destruct (readString b4) as [ty b5].
  destruct (assertString LF b5) as [b6| |]; [| done | done].
  rsimpl. cbn [znode_name type source_replica new_part_name parts_to_merge].
  rewrite H0. case_decide.
  { destruct (readString b6) as [n b7]. rsimpl.
    destruct (assertString LF b7); [| done | done].
    rsimpl. intros [= <- _]. cbn. set_solver. }
  case_decide.
  - destruct (readText_merge_loop _ _ b6) as [[ps b7]| |] eqn:Hl; [| done | done].
    apply readText_merge_loop_no_into in Hl as (new & -> & Hn).
    rsimpl. destruct (readString b7) as [n b8]. rsimpl.
    destruct (assertString LF b8); [| done | done].
    rsimpl. intros [= <- _]. by cbn.
  - rsimpl. destruct (assertString LF b6); [| done | done].
    rsimpl. intros [= <- _]. cbn. set_solver.
Qed.

(** The text [writeText] gives a merge entry. *)
Lemma writeText_merge (e : LogEntry.t) :
  type e = MERGE_PARTS →
  writeText e =
  "format version: 1" +:+ LF +:+ "source replica: " +:+ source_replica e +:+ LF +:+
  "merge" +:+ LF +:+ lines (parts_to_merge e) ("into" +:+ LF +:+ new_part_name e +:+ LF).
Proof.
  intros Ht. unfold writeText. rewrite Ht.
  rewrite <- lines_app_tail. by rewrite !app_assoc_s.
Qed.

(** What [readText] makes of the text of a merge entry whose source replica is
    plain and whose source parts start with the plain parts [pre], none of them
    the end marker: the loop stops at the first line "into", and the next line
    is taken for the name of the new part. *)
Lemma readText_merge_prefix (e0 : LogEntry.t) (src tail : string) (pre : list string) :
  plain src = true → Forall (λ p, plain p = true) pre → "into" ∉ pre →
  readText e0 ("format version: 1" +:+ LF +:+ "source replica: " +:+ src +:+ LF +:+
               "merge" +:+ LF +:+ lines pre ("into" +:+ LF +:+ tail))
  = (let '(name, buf) := readString tail in
     buf ← assertString LF buf;
     Ok (mk (znode_name e0) MERGE_PARTS src name (parts_to_merge e0 ++ pre)%list, buf)).
Proof.
  intros Hsrc Hpre Hin. unfold readText.
  change ("format version: 1" +:+ LF +:+ ?r) with (("format version: 1" +:+ LF) +:+ r).
  rewrite assertString_app. rsimpl.
  rewrite assertString_app. rsimpl.
  rewrite (readString_plain _ _ Hsrc). rewrite assertString_app. rsimpl.
  rewrite (readString_plain "merge" _ eq_refl). rewrite assertString_app. rsimpl.
  rewrite decide_False by done. rewrite decide_True by done.
  cbn [znode_name type source_replica new_part_name parts_to_merge].
  rewrite readText_merge_loop_lines; [| done | done |].
  - rsimpl. destruct (readString tail) as [name buf]. rsimpl.
    by destruct (assertString LF buf).
  - pose proof (lines_length pre ("into" +:+ LF +:+ tail)). lia.
Qed.

End codec.

(** ** The log entry codec: claims *)

Section codec_claims.

Import IO LogEntry.

(** C8.  The claim is that [readText] rejects every input whose kind line is
    neither "get" nor "merge".  The chain of [if]s has no final [else]: on the
    text of an entry of kind "drop" (any plain word followed by an empty line
    does) [readText] returns normally, having set the source replica only, and
    [parse] accepts the text as a whole. *)
Theorem readText_accepts_unknown_kind (e0 : LogEntry.t) :
  let text := "format version: 1" +:+ LF +:+ "source replica: r1" +:+ LF +:+
              "drop" +:+ LF +:+ LF in
  readText e0 text
    = Ok (mk (znode_name e0) (type e0) "r1" (new_part_name e0) (parts_to_merge e0), "")
  ∧ parse text = Ok (mk "" GET_PART "r1" "" []).
Proof. split; reflexivity. Qed.

(** C10 fails as stated: no source part of this merge entry equals "into", yet
    what [readText] makes of its text has two source parts where the entry has
    one, because the part's name carries a line end. *)
Lemma codec_roundtrip_counterexample :
  let e := mk "" MERGE_PARTS "r1" "20140401_0_1_1" [("20140401_0_0_0" +:+ LF +:+ "x")] in
  type e = MERGE_PARTS ∧ ("into" ∉ parts_to_merge e) ∧
  ∃ e', readText fresh (writeText e) = Ok (e', "") ∧
        parts_to_merge e' = ["20140401_0_0_0"; "x"] ∧ ¬ same_record e' e.
Proof.
  cbv zeta. split; [done |]. split.
  { intros [Hx | Hx]%elem_of_cons; [discriminate Hx | by apply elem_of_nil in Hx]. }
  eexists. split; [vm_compute; reflexivity |]. split; [reflexivity |].
  intros (_ & _ & _ & Hp). discriminate Hp.
Qed.

(** C10, amended.  For a merge entry whose fields carry no line end and no
    tab: if no source part is named "into", [readText] of the text of
    [writeText], into a fresh entry, consumes the text and gives back the type,
    the source replica, the new part name and the source parts; if the source
    parts are [pre ++ "into" :: post] with no "into" in [pre], the loop stops at
    that line and whatever is read has [pre] for its source parts.  And for
    every entry with a source part named "into", nothing that is read from its
    text reproduces the entry. *)
Theorem codec_roundtrip_merge :
  (∀ e e0 : LogEntry.t,
     type e = MERGE_PARTS → parts_to_merge e0 = [] →
     plain (source_replica e) = true → plain (new_part_name e) = true →
     Forall (λ p, plain p = true) (parts_to_merge e) →
     "into" ∉ parts_to_merge e →
     ∃ e', readText e0 (writeText e) = Ok (e', "") ∧ same_record e' e)
  ∧ (∀ (e e0 : LogEntry.t) (pre post : list string),
     type e = MERGE_PARTS → parts_to_merge e0 = [] →
     plain (source_replica e) = true →
     parts_to_merge e = (pre ++ "into" :: post)%list →
     Forall (λ p, plain p = true) pre → "into" ∉ pre →
     ∀ e' rest, readText e0 (writeText e) = Ok (e', rest) → parts_to_merge e' = pre)
  ∧ (∀ (e e0 e' : LogEntry.t) (rest : string),
     parts_to_merge e0 = [] → "into" ∈ parts_to_merge e →
     readText e0 (writeText e) = Ok (e', rest) → ¬ same_record e' e).
Proof.
  split; [| split].
  - intros e e0 Ht H0 Hsrc Hname Hparts Hin.
    rewrite (writeText_merge e Ht).
    rewrite (readText_merge_prefix e0 _ _ _ Hsrc Hparts Hin).
    rewrite (readString_plain_end _ Hname).
    rewrite assertString_self. cbn [mbind Result_bind rbind].
    eexists. split; [reflexivity |]. rewrite H0. by repeat split.
  - intros e e0 pre post Ht H0 Hsrc Hparts Hpre Hin e' rest.
    rewrite (writeText_merge e Ht), Hparts, lines_app, lines_cons.
    rewrite (readText_merge_prefix e0 _ _ _ Hsrc Hpre Hin).
    destruct (readString _) as [n b]. destruct (assertString LF b); [| done | done].
    cbn [mbind Result_bind rbind]. intros [= <- _]. cbn. by rewrite H0.
  - intros e e0 e' rest H0 Hin Hread (_ & _ & _ & Hp).
    apply (readText_no_into e0 e' _ _ H0 Hread). by rewrite Hp.
Qed.

(** The round trip of C10 on a merge of two parts. *)
Lemma codec_roundtrip_merge_witness :
  let e := Example.merge_entry "r1" ["20140401_0_0_0"; "20140401_1_1_0"] "20140401_0_1_1" in
  ∃ e', readText fresh (writeText e) = Ok (e', "") ∧ same_record e' e.
Proof.
  cbv zeta. apply (proj1 codec_roundtrip_merge); try reflexivity.
  - repeat constructor.
  - intros Hin. repeat (apply elem_of_cons in Hin as [Hin | Hin]; [discriminate Hin |]).
    by apply elem_of_nil in Hin.
Defined.

End codec_claims.

(** ** Which entries may be executed *)

Section should_execute.

Context {Data : Type}.
Implicit Types (s : Storage Data) (entry : LogEntry.t).

Lemma shouldExecute_loop_spec s entry (names : list string) :
  ∃ s', shouldExecute_loop entry names s
        = (Ok (bool_decide (Forall (λ n, n ∉ future_parts s) names)), s')
        ∧ future_parts s' = future_parts s.
Proof.
  induction names as [|n names IH]; cbn [shouldExecute_loop]; munfold.
  - exists s. by rewrite bool_decide_eq_true_2.
  - destruct (bool_decide (n ∈ future_parts s)) eqn:Hn.
    + apply bool_decide_eq_true_1 in Hn.
      eexists. split; [rewrite bool_decide_eq_false_2; [reflexivity |] | reflexivity].
      by intros [? _]%Forall_cons.
    + apply bool_decide_eq_false_1 in Hn.
      destruct IH as (s' & -> & Hs'). exists s'. split; [| done].
      do 2 f_equal. apply bool_decide_ext. rewrite Forall_cons. tauto.
Qed.

(** C6.  [shouldExecuteLogEntry] returns true for every GET_PART entry, and
    for a MERGE_PARTS entry it returns true if and only if no name in
    [parts_to_merge] is in [future_parts]. *)
Theorem shouldExecuteLogEntry_spec s entry :
  (LogEntry.type entry = LogEntry.GET_PART →
     (shouldExecuteLogEntry entry s).1 = Ok true)
  ∧ (LogEntry.type entry = LogEntry.MERGE_PARTS →
     ∃ b : bool, (shouldExecuteLogEntry entry s).1 = Ok b ∧
       (b = true ↔ ∀ n, n ∈ LogEntry.parts_to_merge entry → n ∉ future_parts s)).
Proof.
  unfold shouldExecuteLogEntry. split; intros ->; [done |].
  destruct (shouldExecute_loop_spec s entry (LogEntry.parts_to_merge entry)) as (s' & -> & _).
  eexists. split; [done |]. rewrite bool_decide_eq_true. apply Forall_forall.
Qed.

End should_execute.

(** C6 on a queue entry that merges a part which is still being fetched. *)
Lemma shouldExecuteLogEntry_spec_witness :
  let s := set_future_parts {[ "20140401_1_1_0" ]}
             (Example.storage zkutil.empty (Example.Build_Store [] []) []) in
  let entry := Example.merge_entry "r1" ["20140401_0_0_0"; "20140401_1_1_0"] "20140401_0_1_1" in
  ∃ b : bool, (shouldExecuteLogEntry entry s).1 = Ok b ∧
    (b = true ↔ ∀ n, n ∈ LogEntry.parts_to_merge entry → n ∉ future_parts s).
Proof.
  cbv zeta. apply (proj2 (shouldExecuteLogEntry_spec _ _)). reflexivity.
Defined.

(** ** Reconciling the local parts with the coordinator *)

Section check_parts.

Import IO MergeTreeData.
Context {Data : Type} `{!PartStore Data}.
Implicit Types (s : Storage Data) (expected : gset string) (parts : list DataPart).




End check_parts.




(** ** The table structure check *)

Section table_structure.

Import IO MergeTreeData.
Context {Data : Type} `{BackQuotingExact}.
Implicit Types (s : Storage Data) (d : Structure).

Ltac rsimpl := cbn [mbind Result_bind rbind].




(** *** What [createTable] leaves in the coordinator *)

#[local] Arguments String.append !_ _ / : simpl nomatch.

Lemma has_slash_app (p q : string) : has_slash (p +:+ q) = has_slash p || has_slash q.
Proof.
  induction p as [|c p IH]; [done |]. cbn [String.append has_slash].
  by rewrite IH, orb_assoc.
Qed.

(** The parent of [p/name]. *)
Lemma dirname_child (p name : string) :
  has_slash name = false → dirname (p +:+ String "/" name) = p.
Proof.
  intros Hn. induction p as [|c p IH]; cbn [String.append dirname].
  - by rewrite Hn.
  - rewrite has_slash_app. cbn [has_slash]. rewrite bool_decide_eq_true_2 by done.
    rewrite orb_true_r. by rewrite IH.
Qed.

Lemma app_ne_self (p q : string) : q ≠ "" → p +:+ q ≠ p.
Proof.
  intros Hq Heq. apply Hq.
  rewrite <- (app_empty_r p) in Heq at 2. by apply (inj (String.app _)) in Heq.
Qed.





End table_structure.

(** ** The example quoting obeys the laws *)

Section example_quoting.

Import Example.
#[local] Arguments String.append !_ _ / : simpl nomatch.

Lemma read_quoted_body_escape (col_name rest : string) :
  read_quoted_body (escape col_name +:+ String "`"%char rest) = Ok (col_name, rest).
Proof.
  induction col_name as [|c col_name IH]; [done |].
  cbn [escape]. destruct (needs_escape c) eqn:Hc.
  - cbn [String.append read_quoted_body]. rewrite Hc, IH.
    by rewrite bool_decide_eq_false_2, bool_decide_eq_true_2.
  - cbn [String.append read_quoted_body]. rewrite IH.
    unfold needs_escape in Hc. apply orb_false_iff in Hc as [-> ->]. done.
Qed.

Lemma read_quoted_body_exact (k : nat) (buf col_name rest : string) :
  (String.length buf ≤ k)%nat →
  read_quoted_body buf = Ok (col_name, rest) →
  buf = escape col_name +:+ String "`"%char rest.
Proof.
  revert buf col_name rest. induction k as [|k IH]; intros buf col_name rest Hk.
  { destruct buf; [done | simpl in Hk; lia]. }
  destruct buf as [|c buf]; [done |]. cbn [read_quoted_body].
  destruct (bool_decide (c = "`"%char)) eqn:Hq.
  { apply bool_decide_eq_true_1 in Hq as ->. by intros [= <- <-]. }
  destruct (bool_decide (c = "\"%char)) eqn:Hb.
  - apply bool_decide_eq_true_1 in Hb as ->.
    destruct buf as [|d buf]; [done |].
    destruct (needs_escape d) eqn:Hd; [| done].
    destruct (read_quoted_body buf) as [[s r]| |] eqn:Hr; [| done | done].
    cbn. intros [= <- <-].
    apply IH in Hr as ->; [| simpl in Hk; lia].
    cbn [escape]. by rewrite Hd.
  - destruct (read_quoted_body buf) as [[s r]| |] eqn:Hr; [| done | done].
    cbn. intros [= <- <-].
    apply IH in Hr as ->; [| simpl in Hk; lia].
    cbn [escape]. unfold needs_escape. by rewrite Hq, Hb.
Qed.

Lemma read_quoted_body_total (k : nat) (buf : string) :
  (String.length buf ≤ k)%nat → read_quoted_body buf ≠ OutOfFuel.
Proof.
  revert buf. induction k as [|k IH]; intros buf Hk.
  { destruct buf; [done | simpl in Hk; lia]. }
  destruct buf as [|c buf]; [done |]. cbn [read_quoted_body].
  destruct (bool_decide (c = "`"%char)); [done |].
  destruct (bool_decide (c = "\"%char)).
  - destruct buf as [|d buf]; [done |]. destruct (needs_escape d); [| done].
    pose proof (IH buf) as Hb. destruct (read_quoted_body buf) as [[]| |]; [done | done |].
    exfalso. apply Hb; [simpl in Hk; lia | done].
  - pose proof (IH buf) as Hb. destruct (read_quoted_body buf) as [[]| |]; [done | done |].
    exfalso. apply Hb; [simpl in Hk; lia | done].
Qed.

#[local] Instance quoting_exact : BackQuotingExact.
Proof.
  split.
  - intros col_name rest. cbn. rewrite ?app_assoc_s. apply read_quoted_body_escape.
  - intros buf col_name rest. cbn. destruct buf as [|c buf]; [done |].
    destruct (bool_decide (c = "`"%char)) eqn:Hq; [| done].
    apply bool_decide_eq_true_1 in Hq as ->. intros Hr.
    apply (read_quoted_body_exact _ _ _ _ (le_n _)) in Hr as ->.
    by rewrite ?app_assoc_s.
  - intros buf. cbn. destruct buf as [|c buf]; [done |].
    destruct (bool_decide (c = "`"%char)); [| done].
    by apply (read_quoted_body_total (String.length buf)).
Defined.


(** The text of the same table with its first two columns in the other order
    is refused at the first column name. *)
Lemma check_metadata_column_order_example :
  let swapped :=
    {| MergeTreeData.date_column_name := "EventDate";
       MergeTreeData.sampling_expression := None;
       MergeTreeData.index_granularity := 8192; MergeTreeData.mode := 0;
       MergeTreeData.sign_column := "";
       MergeTreeData.primary_expr_ast := Some "CounterID, EventDate";
       MergeTreeData.columns :=
         [("CounterID", "UInt32"); ("EventDate", "Date"); ("a`b", "String")] |} in
  check_metadata structure0 (metadata_text swapped)
  = Throw (Exn.Exception Exn.UNKNOWN_IDENTIFIER).
Proof. vm_compute. reflexivity. Qed.

End example_quoting.

(** ** The merge predicate *)

Section can_merge.

Import IO MergeTreeData AbandonableLockInZooKeeper.
Context {Data : Type} `{!Check}.
Implicit Types (s : Storage Data) (left right : DataPart).




End can_merge.



(** ** Pulling the logs: one multi per entry *)

Section pull_entry.

Import IO.
Context {Data : Type}.
Implicit Types (s : Storage Data) (zk : zkutil.ZooKeeper).

Lemma set_zookeeper_id s : set_zookeeper (zookeeper s) s = s.
Proof. by destruct s. Qed.

(** A [multi] that throws leaves the coordinator as it was. *)
Lemma multi_atomic (ops : list zkutil.Op) zk (e : Exn.t) zk' :
  zkutil.multi ops zk = (Throw e, zk') → zk' = zk.
Proof.
  unfold zkutil.multi. destruct (zkutil.apply_ops _ ops _) as [[rs ns]| |]; congruence.
Qed.

Lemma apply_ops_no_fuel (z : Z) (ops : list zkutil.Op) (ns : gmap string zkutil.Node) :
  zkutil.apply_ops z ops ns ≠ OutOfFuel.
Proof.
  revert ns. induction ops as [|op ops IH]; intros ns; [done |].
  cbn [zkutil.apply_ops].
  assert (Hop : zkutil.apply_op z op ns ≠ OutOfFuel).
  { destruct op; cbn; repeat case_match; done. }
  destruct (zkutil.apply_op z op ns) as [[r ns']| |]; [| done | done].
  cbn. pose proof (IH ns') as Hrec.
  by destruct (zkutil.apply_ops z ops ns') as [[rs ns'']| |].
Qed.

Lemma parse_no_fuel (text : string) : LogEntry.parse text ≠ OutOfFuel.
Proof.
  unfold LogEntry.parse. pose proof (readText_total LogEntry.fresh text) as Ht.
  destruct (LogEntry.readText LogEntry.fresh text) as [[e rest]| |]; [| done | done].
  cbn. by destruct rest.
Qed.

Lemma queue_path_ne_pointer (replica_path suffix replica : string) :
  (replica_path +:+ "/queue/queue-") +:+ suffix
  ≠ replica_path +:+ "/log_pointers/" +:+ replica.
Proof.
  rewrite app_assoc_s. intros Heq. apply (inj (String.app _)) in Heq. discriminate Heq.
Qed.

(** C2.  For the entry of the iterator the loop of [pullLogsToQueue] popped:
    if anything throws (the entry does not parse, or the [multi] fails in the
    coordinator), the storage object and the coordinator are exactly as
    before: no queue node was created, the log pointer was not advanced, and
    the queue in memory has no new entry.  If nothing throws, one [multi]
    created a new node under [/queue] holding the entry's text and set the log
    pointer of the entry's replica to [index + 1], and the entry, named after
    that node, is at the end of the queue in memory. *)
Theorem pull_entry_atomic (iterator : LogIterator) s :
  match pull_entry iterator s with
  | (Throw _, s') => s' = s
  | (OutOfFuel, _) => False
  | (Ok _, s') =>
      ∃ (entry : LogEntry.t) (suffix : string) (node : zkutil.Node),
        let queue_node := (replica_path s +:+ "/queue/queue-") +:+ suffix in
        LogEntry.parse (entry_str iterator) = Ok entry
        ∧ (zkutil.multi
             [ zkutil.Create (replica_path s +:+ "/queue/queue-") (entry_str iterator)
                 zkutil.PersistentSequential;
               zkutil.SetData (replica_path s +:+ "/log_pointers/" +:+ replica iterator)
                 (toString (wrap64 (index iterator + 1))) (-1) ] (zookeeper s)).2
          = zookeeper s'
        ∧ zkutil.nodes (zookeeper s) !! queue_node = None
        ∧ zkutil.nodes (zookeeper s') !! queue_node = Some node
        ∧ zkutil.node_data node = entry_str iterator
        ∧ zkutil.get (zookeeper s') (replica_path s +:+ "/log_pointers/" +:+ replica iterator)
          = Ok (toString (wrap64 (index iterator + 1)))
        ∧ queue s' = (queue s ++
            [LogEntry.mk (basename queue_node) (LogEntry.type entry)
               (LogEntry.source_replica entry) (LogEntry.new_part_name entry)
               (LogEntry.parts_to_merge entry)])%list
  end.
Proof.
  unfold pull_entry. munfold.
  pose proof (parse_no_fuel (entry_str iterator)) as Hp.
  destruct (LogEntry.parse (entry_str iterator)) as [entry| |]; [| done | done].
  unfold zk_multi, zkutil.multi.
  cbn [zkutil.apply_ops zkutil.apply_op zkutil.is_sequential].
  destruct (zkutil.nodes (zookeeper s) !! dirname (replica_path s +:+ "/queue/queue-"))
    as [parent|] eqn:Hparent; [| apply set_zookeeper_id].
  set (suffix := pad10 (toString (zkutil.node_cversion parent))).
  destruct (zkutil.nodes (zookeeper s) !! ((replica_path s +:+ "/queue/queue-") +:+ suffix))
    as [old|] eqn:Hfree; [apply set_zookeeper_id |].
  cbn [mbind Result_bind rbind].
  match goal with
  | |- context [<[_ := ?new]> (<[_ := _]> (zkutil.nodes (zookeeper s)))] => set (node := new)
  end.
  destruct (_ !! (replica_path s +:+ "/log_pointers/" +:+ replica iterator))
    as [ptr|] eqn:Hptr; [| apply set_zookeeper_id].
  cbn [mbind Result_bind rbind].
  unfold tagPartsAsCurrentlyMerging. cbn [LogEntry.type LogEntry.parts_to_merge].
  destruct (LogEntry.type entry) eqn:Htype; munfold;
    exists entry, suffix, node;
    cbn [fst snd zookeeper queue set_zookeeper set_queue set_currently_merging
         zkutil.nodes head default zkutil.getPathCreated];
    (split; [done |]); (split; [done |]); (split; [done |]);
    (split; [rewrite lookup_insert_ne by (symmetry; apply queue_path_ne_pointer);
             apply lookup_insert_eq |]);
    (split; [done |]);
    (split; [unfold zkutil.get, zkutil.tryGet; cbn [zkutil.nodes];
             by rewrite lookup_insert_eq |]);
    by rewrite Htype.
Qed.

(** A turn that throws, whatever it throws, changed nothing. *)
Lemma pull_entry_not_ok (iterator : LogIterator) s (r : Result unit) s' :
  pull_entry iterator s = (r, s') → r ≠ Ok () → s' = s.
Proof.
  unfold pull_entry. munfold.
  destruct (LogEntry.parse (entry_str iterator)) as [entry| |];
    [| by intros [= <- <-] | by intros [= <- <-]].
  unfold zk_multi, zkutil.multi.
  destruct (zkutil.apply_ops _ _ _) as [[rs ns]| |];
    [| intros [= <- <-]; intros _; apply set_zookeeper_id
     | intros [= <- <-]; intros _; apply set_zookeeper_id].
  unfold tagPartsAsCurrentlyMerging. cbn [LogEntry.type].
  destruct (LogEntry.type entry); munfold; by intros [= <- <-].
Qed.

(** Whatever the loop of [pullLogsToQueue] does to the storage object and the
    coordinator, and however it ends, it does through whole entries: queue
    node, log pointer and queue in memory move together. *)
Lemma pull_loop_pulled (fuel : nat) (priority_queue : list LogIterator) (count : Z)
    s (r : Result Z) s' :
  pull_loop fuel priority_queue count s = (r, s') → pulled s s'.
Proof.
  revert priority_queue count s.
  induction fuel as [|fuel IH]; intros [|iterator pq] count s; cbn [pull_loop]; munfold;
    try (intros [= _ <-]; apply pulled_refl).
  destruct (pull_entry iterator s) as [[[]| |] s1] eqn:Hentry.
  - destruct (readEntry _ _ _) as [found it']. intros Hloop.
    eapply pulled_step; [exact Hentry |]. by eapply IH.
  - intros [= _ <-]. rewrite (pull_entry_not_ok _ _ _ _ Hentry) by done. apply pulled_refl.
  - intros [= _ <-]. rewrite (pull_entry_not_ok _ _ _ _ Hentry) by done. apply pulled_refl.
Qed.

End pull_entry.

(** The [multi] undoes what it began: when the log pointer of [r2] is missing
    under [/log_pointers], the SetData fails, and although the Create alone
    would have succeeded, no queue node is left behind and nothing changed. *)
Lemma pull_entry_rollback_example :
  let zk := Example.zk_with [("/t", ""); ("/t/replicas", ""); ("/t/replicas/r1", "");
                             ("/t/replicas/r1/queue", "");
                             ("/t/replicas/r1/log_pointers", "")] in
  let s := Example.storage zk (Example.Build_Store [] []) [] in
  let text := LogEntry.toString (Example.get_entry "r2" "20140401_1_1_0") in
  let iterator := {| replica := "r2"; index := 0; timestamp := 7; entry_str := text |} in
  (zkutil.multi [zkutil.Create "/t/replicas/r1/queue/queue-" text zkutil.PersistentSequential]
     zk).1 = Ok [zkutil.CreateResult "/t/replicas/r1/queue/queue-0000000000"]
  ∧ pull_entry iterator s = (Throw (Exn.KeeperException Exn.ZNoNode), s)
  ∧ zkutil.getChildren (zookeeper (pull_entry iterator s).2) "/t/replicas/r1/queue" = Ok [].
Proof.
  cbv zeta. repeat (match goal with |- _ ∧ _ => split end); vm_compute; reflexivity.
Qed.


(** ** Pulling the logs: the order of the entries *)

Section pull_order.

Import IO Example.
Implicit Types (pq : list LogIterator).

(** The priority queue keeps the iterator with the latest timestamp on top. *)
Lemma pq_push_later_first (x : LogIterator) (pq : list LogIterator) :
  StronglySorted later_first pq → StronglySorted later_first (pq_push x pq).
Proof.
  induction 1 as [|y pq Hs IH Hy]; cbn [pq_push].
  - repeat constructor.
  - unfold LogIterator_lt. case_bool_decide as Hlt.
    + constructor; [by constructor |]. constructor; [unfold later_first; lia |].
      eapply Forall_impl; [exact Hy |]. unfold later_first. intros o Ho. lia.
    + constructor; [done |].
      assert (Hperm : ∀ l, Forall (later_first y) l → Forall (later_first y) (pq_push x l)).
      { clear -Hlt. induction l as [|z l IHl]; intros Hl; cbn [pq_push].
        - constructor; [unfold later_first; lia | done].
        - apply Forall_cons in Hl as [Hz Hl]. case_match.
          + constructor; [unfold later_first; lia |]. by constructor.
          + constructor; [done |]. by apply IHl. }
      by apply Hperm.
Qed.

Lemma pq_top_latest (top : LogIterator) (pq : list LogIterator) :
  StronglySorted later_first (top :: pq) →
  Forall (λ other, timestamp other ≤ timestamp top) pq.
Proof. intros Hs. by apply StronglySorted_inv in Hs as [_ Hs]. Qed.

(** C1.  The claim is that the entries are put in the queue earliest [czxid]
    first.  [std::priority_queue] hands out the greatest element under
    [operator<], and [operator<] compares the timestamps with [<], so the
    entry with the latest [czxid] is popped first: on the two logs above, the
    entry of [r2] (created in transaction 10) is queued before the entry of
    [r1] (created in transaction 9). *)
Theorem pullLogsToQueue_latest_first :
  let s := storage two_logs (Build_Store [] []) [] in
  let czxid_of path := zkutil.czxid <$> (snd <$> zkutil.tryGet two_logs path) in
  czxid_of "/t/replicas/r1/log/log-0000000000" = Some 9
  ∧ czxid_of "/t/replicas/r2/log/log-0000000000" = Some 10
  ∧ (pullLogsToQueue 2 s).1 = Ok ()
  ∧ queue (pullLogsToQueue 2 s).2
    = [ LogEntry.mk "queue-0000000000" LogEntry.GET_PART "r2" "20140401_1_1_0" [];
        LogEntry.mk "queue-0000000001" LogEntry.GET_PART "r1" "20140401_0_0_0" [] ].
Proof. cbv zeta. repeat (match goal with |- _ ∧ _ => split end); vm_compute; reflexivity. Qed.

End pull_order.

(** ** Executing a log entry *)

Section execute.

Import IO MergeTreeData.
Context {Data : Type}.
Context `{!PartStore Data, !PartFetcher, !Shuffle}.
Implicit Types (s : Storage Data) (entry : LogEntry.t).

(** *** Methods that leave the queue alone *)

Lemma same_queue_refl s : same_queue s s.
Proof. by split. Qed.

Lemma same_queue_trans s1 s2 s3 : same_queue s1 s2 → same_queue s2 s3 → same_queue s1 s3.
Proof. intros [H1 H2] [H3 H4]. split; congruence. Qed.

Lemma keeps_queue_ret {A} (a : A) : keeps_queue (Data := Data) (mret a).
Proof. intros s r s' [= _ <-]. apply same_queue_refl. Qed.

Lemma keeps_queue_throw {A} (e : Exn.t) : keeps_queue (Data := Data) (A := A) (throw e).
Proof. intros s r s' [= _ <-]. apply same_queue_refl. Qed.

Lemma keeps_queue_lift {A} (r : Result A) : keeps_queue (Data := Data) (lift r).
Proof. intros s r' s' [= _ <-]. apply same_queue_refl. Qed.

Lemma keeps_queue_get_storage : keeps_queue (Data := Data) get_storage.
Proof. intros s r s' [= _ <-]. apply same_queue_refl. Qed.

Lemma keeps_queue_bind {A B} (m : M Data A) (k : A → M Data B) :
  keeps_queue m → (∀ a, keeps_queue (k a)) → keeps_queue (m ≫= k).
Proof.
  intros Hm Hk s r s'. unfold mbind, M_bind.
  destruct (m s) as [[a| |] s1] eqn:Hms.
  - intros Hks. eapply same_queue_trans; [by eapply Hm | by eapply Hk].
  - intros [= _ <-]. by eapply Hm.
  - intros [= _ <-]. by eapply Hm.
Qed.

Lemma keeps_queue_modify (f : Storage Data → Storage Data) :
  (∀ s, same_queue s (f s)) → keeps_queue (modify f).
Proof. intros Hf s r s' [= _ <-]. apply Hf. Qed.

Lemma keeps_queue_LOG (level : LogLevel) (msg : string) :
  keeps_queue (Data := Data) (LOG level msg).
Proof. apply keeps_queue_modify. by intros []. Qed.

Lemma keeps_queue_increment (ev : ProfileEvent) : keeps_queue (Data := Data) (increment ev).
Proof. apply keeps_queue_modify. by intros []. Qed.

Lemma keeps_queue_set_data (f : Storage Data → Data) :
  keeps_queue (modify (λ s, set_data (f s) s)).
Proof. apply keeps_queue_modify. by intros []. Qed.

Lemma keeps_queue_zk_multi (ops : list zkutil.Op) : keeps_queue (Data := Data) (zk_multi ops).
Proof.
  intros s r s'. unfold zk_multi. destruct (zkutil.multi ops (zookeeper s)).
  intros [= _ <-]. by destruct s.
Qed.

Lemma keeps_queue_zk_get (path : string) : keeps_queue (Data := Data) (zk_get path).
Proof. intros s r s' [= _ <-]. apply same_queue_refl. Qed.

Lemma keeps_queue_zk_getChildren (path : string) :
  keeps_queue (Data := Data) (zk_getChildren path).
Proof. intros s r s' [= _ <-]. apply same_queue_refl. Qed.

Lemma keeps_queue_for_each {A} (f : A → M Data unit) (l : list A) :
  (∀ a, keeps_queue (f a)) → keeps_queue (for_each f l).
Proof.
  intros Hf. induction l as [|a l IH]; cbn [for_each].
  - apply keeps_queue_ret.
  - apply keeps_queue_bind; [apply Hf | by intros _].
Qed.

Ltac keeps :=
  repeat first
    [ apply keeps_queue_ret | apply keeps_queue_throw | apply keeps_queue_lift
    | apply keeps_queue_get_storage | apply keeps_queue_LOG | apply keeps_queue_increment
    | apply keeps_queue_zk_multi | apply keeps_queue_zk_get
    | apply keeps_queue_zk_getChildren
    | apply keeps_queue_set_data
    | apply keeps_queue_for_each; intros ?
    | apply keeps_queue_bind; [| intros ?]
    | progress cbv beta zeta
    | progress case_match ].

Lemma keeps_queue_findActiveReplicaHavingPart (part_name : string) :
  keeps_queue (Data := Data) (findActiveReplicaHavingPart part_name).
Proof. unfold findActiveReplicaHavingPart. keeps. Qed.

Lemma keeps_queue_fetchPart (part_name replica_name : string) :
  keeps_queue (Data := Data) (fetchPart part_name replica_name).
Proof.
  unfold fetchPart. keeps; try (apply (keeps_queue_modify (set_data _)); by intros []).
Qed.

Lemma keeps_queue_fetch_body entry : keeps_queue (Data := Data) (fetch_body entry).
Proof.
  unfold fetch_body. keeps;
    try first [apply keeps_queue_findActiveReplicaHavingPart | apply keeps_queue_fetchPart
              | apply (keeps_queue_modify (set_data _)); by intros []].
Qed.

Lemma keeps_queue_collect_parts entry (names : list string) (parts : list DataPart) :
  keeps_queue (Data := Data) (collect_parts entry names parts).
Proof.
  revert parts. induction names as [|n names IH]; intros parts; cbn [collect_parts].
  - apply keeps_queue_ret.
  - keeps; try apply IH.
Qed.

Lemma keeps_queue_execute_merge entry : keeps_queue (Data := Data) (execute_merge entry).
Proof.
  unfold execute_merge. keeps;
    try first [apply keeps_queue_collect_parts
              | apply (keeps_queue_modify (set_data _)); by intros []].
Qed.

Lemma keeps_queue_execute_decide entry : keeps_queue (Data := Data) (execute_decide entry).
Proof.
  unfold execute_decide. keeps;
    try first [apply keeps_queue_execute_merge | apply keeps_queue_collect_parts
              | apply (keeps_queue_modify (set_data _)); by intros []].
Qed.

(** *** Moving entries behind the merge *)

Implicit Types (q pre post kept moved : list LogEntry.t) (M : LogEntry.t).

(** [M] is the first merge of the queue that takes [part_name]. *)
Lemma find_merge_entry_first pre M post (part_name : string) :
  Forall (λ e, ¬ (LogEntry.type e = LogEntry.MERGE_PARTS
                  ∧ part_name ∈ LogEntry.parts_to_merge e)) pre →
  LogEntry.type M = LogEntry.MERGE_PARTS → part_name ∈ LogEntry.parts_to_merge M →
  find_merge_entry (pre ++ M :: post) part_name = Some (length pre).
Proof.
  intros Hpre Ht Hin. induction Hpre as [|e pre He Hpre IH]; cbn [find_merge_entry app length].
  - by rewrite !bool_decide_eq_true_2.
  - rewrite IH. destruct (bool_decide (_ = _)) eqn:H1; [| done].
    destruct (bool_decide (part_name ∈ _)) eqn:H2; [| done].
    exfalso. apply He. split; by eapply bool_decide_eq_true_1.
Qed.

Lemma splice_loop_spec (pf : gset string) pre kept M post moved (fuel : nat) :
  (length pre ≤ fuel)%nat →
  splice_loop fuel pf (kept ++ pre ++ M :: post ++ moved)
    (length kept) (length kept + length pre)
  = (kept ++ filter (λ e, LogEntry.new_part_name e ∉ pf) pre ++ M :: post ++ moved
     ++ filter (λ e, LogEntry.new_part_name e ∈ pf) pre)%list.
Proof.
  revert kept moved fuel. induction pre as [|e pre IH]; intros kept moved fuel Hf.
  - cbn [app length filter]. rewrite !filter_nil, app_nil_r, Nat.add_0_r.
    destruct fuel as [|fuel]; [done |]. cbn [splice_loop].
    rewrite list_lookup_middle by done. by rewrite decide_True.
  - destruct fuel as [|fuel]; [cbn in Hf; lia |]. cbn [splice_loop app].
    rewrite list_lookup_middle by done. rewrite decide_False by (cbn; lia).
    rewrite !filter_cons.
    destruct (decide (LogEntry.new_part_name e ∈ pf)) as [Hin|Hin].
    + rewrite bool_decide_eq_true_2 by done.
      rewrite decide_False by (intros Hn; by apply Hn).
      cbn [app]. rewrite delete_middle.
      replace (length kept + length (e :: pre) - 1)%nat with (length kept + length pre)%nat
        by (cbn; lia).
      replace ((kept ++ pre ++ M :: post ++ moved) ++ [e])%list
        with (kept ++ pre ++ M :: post ++ (moved ++ [e]))%list
        by (by rewrite <- !app_assoc; cbn [app]; rewrite <- !app_assoc).
      rewrite (IH kept (moved ++ [e])%list fuel) by (cbn in Hf; lia).
      by rewrite <- !app_assoc.
    + rewrite bool_decide_eq_false_2 by done. rewrite decide_True by done.
      replace (kept ++ e :: pre ++ M :: post ++ moved)%list
        with ((kept ++ [e]) ++ pre ++ M :: post ++ moved)%list
        by (by rewrite <- !app_assoc).
      replace (S (length kept)) with (length (kept ++ [e])%list)
        by (rewrite length_app; cbn; lia).
      replace (length kept + length (e :: pre))%nat
        with (length (kept ++ [e])%list + length pre)%nat
        by (rewrite length_app; cbn; lia).
      rewrite (IH (kept ++ [e])%list moved fuel) by (cbn in Hf; lia).
      by rewrite <- !app_assoc.
Qed.

(** What the handler of a failed fetch makes of the queue when [M] is the
    first merge that takes the part: the entries before [M] that produce an
    input of [M] are moved to the end, in their order. *)
Lemma reprioritize_spec entry pre M post :
  Forall (λ e, ¬ (LogEntry.type e = LogEntry.MERGE_PARTS
                  ∧ LogEntry.new_part_name entry ∈ LogEntry.parts_to_merge e)) pre →
  LogEntry.type M = LogEntry.MERGE_PARTS →
  LogEntry.new_part_name entry ∈ LogEntry.parts_to_merge M →
  reprioritize entry (pre ++ M :: post)
  = (filter (λ e, LogEntry.new_part_name e ∉ LogEntry.parts_to_merge M) pre
     ++ M :: post
     ++ filter (λ e, LogEntry.new_part_name e ∈ LogEntry.parts_to_merge M) pre)%list.
Proof.
  intros Hpre Ht Hin. unfold reprioritize.
  rewrite (find_merge_entry_first _ _ _ _ Hpre Ht Hin).
  rewrite list_lookup_middle by done. cbn [fmap option_fmap option_map default].
  rewrite bool_decide_eq_false_2.
  2:{ intros Hempty. apply (not_elem_of_empty (C := gset string) (LogEntry.new_part_name entry)).
      rewrite <- Hempty. by apply elem_of_list_to_set. }
  pose proof (splice_loop_spec (list_to_set (LogEntry.parts_to_merge M)) pre [] M post []
                (length (pre ++ M :: post))) as Hs.
  cbn [app length Nat.add] in Hs. rewrite !app_nil_r in Hs. unfold id. rewrite Hs by (rewrite length_app; lia).
  f_equal; [| do 2 f_equal]; apply list_filter_iff; intros e;
    by rewrite elem_of_list_to_set.
Qed.

(** *** The claims about [executeLogEntry] *)


(** *** The failed fetch *)

(** When [executeLogEntry] throws, not during shutdown, the turn of the
    executor ends with the entry at the end of the queue. *)
Lemma queueThread_execute_failure s entry (x : Exn.t) s2 :
  executeLogEntry entry s = (Throw x, s2) → shutdown_called s2 = false →
  queue (queueThread_execute entry s).2 = (queue s2 ++ [entry])%list.
Proof.
  intros Hexec Hsh. unfold queueThread_execute, try_catch, release_future_part.
  munfold. rewrite Hexec.
  destruct (decide (x = Exn.Exception Exn.NO_REPLICA_HAS_PART));
    cbn [shutdown_called add_log]; by rewrite Hsh.
Qed.

(** C5, amended.  Take a turn of the executor that is not cut short by a
    shutdown, on an entry for part [P] that is not skipped, for which a fetch
    is attempted ([do_fetch]) and fails.  If [M] is the first MERGE_PARTS
    entry of the queue whose [parts_to_merge] include [P], then after the
    handling the queue is: the entries that were before [M] and do not produce
    an input of [M]; [M]; the entries that were after [M]; the entries that
    were before [M] and produce an input of [M]; and, at the tail, the failed
    entry.  So every entry whose [new_part_name] is an input of [M] comes after
    [M]. *)
Theorem fetch_failure_reprioritizes s entry s0 s1 (x : Exn.t) pre M post :
  shutdown_called s = false →
  already_have entry s = false →
  execute_decide entry s = (Ok true, s0) →
  fetch_body entry s0 = (Throw x, s1) →
  queue s = (pre ++ M :: post)%list →
  LogEntry.type M = LogEntry.MERGE_PARTS →
  LogEntry.new_part_name entry ∈ LogEntry.parts_to_merge M →
  Forall (λ e, ¬ (LogEntry.type e = LogEntry.MERGE_PARTS
                  ∧ LogEntry.new_part_name entry ∈ LogEntry.parts_to_merge e)) pre →
  queue (queueThread_execute entry s).2
  = (filter (λ e, LogEntry.new_part_name e ∉ LogEntry.parts_to_merge M) pre
     ++ M :: post
     ++ filter (λ e, LogEntry.new_part_name e ∈ LogEntry.parts_to_merge M) pre
     ++ [entry])%list.
Proof.
  intros Hsh Hhave Hdecide Hfetch Hq Ht Hin Hfirst.
  destruct (keeps_queue_execute_decide entry _ _ _ Hdecide) as [Hq0 Hsh0].
  destruct (keeps_queue_fetch_body entry _ _ _ Hfetch) as [Hq1 Hsh1].
  assert (Hexec : executeLogEntry entry s
                  = (Throw x, set_queue (reprioritize entry (queue s1)) s1)).
  { unfold executeLogEntry. munfold. rewrite Hhave.
    unfold execute_rest. munfold. rewrite Hdecide.
    unfold execute_fetch, try_catch. by rewrite Hfetch. }
  rewrite (queueThread_execute_failure _ _ _ _ Hexec) by (cbn; congruence).
  cbn [queue set_queue]. rewrite Hq1, Hq0, Hq.
  rewrite (reprioritize_spec _ _ _ _ Hfirst Ht Hin).
  rewrite <- !app_assoc. cbn [app]. by rewrite <- !app_assoc.
Qed.

End execute.



(** C5 fails as stated when two merges take the failed part: the handler
    stops at the first, so the entry that produces [X], an input of the second
    merge, stays in front of it. *)
Lemma fetch_failure_counterexample :
  let zk := Example.zk_with [("/t", ""); ("/t/replicas", ""); ("/t/replicas/r1", "");
                             ("/t/replicas/r1/parts", "")] in
  let get_X := Example.get_entry "r2" "X" in
  let M1 := Example.merge_entry "r2" ["P"; "Q"] "A" in
  let M2 := Example.merge_entry "r2" ["P"; "X"] "B" in
  let failed := Example.get_entry "r2" "P" in
  let s := Example.storage zk (Example.Build_Store [] []) [get_X; M1; M2] in
  queue (queueThread_execute failed s).2 = [get_X; M1; M2; failed]
  ∧ LogEntry.type M2 = LogEntry.MERGE_PARTS
  ∧ LogEntry.new_part_name failed ∈ LogEntry.parts_to_merge M2
  ∧ LogEntry.new_part_name get_X ∈ LogEntry.parts_to_merge M2.
Proof.
  cbv zeta. split; [vm_compute; reflexivity |]. split; [reflexivity |].
  split; [apply list_elem_of_here | apply list_elem_of_further, list_elem_of_here].
Qed.

(** C5 on the queue [GET B, MERGE(A,B), GET C] when the fetch of [A] fails:
    the queue becomes [MERGE(A,B), GET C, GET B, GET A]. *)
Lemma fetch_failure_reprioritizes_witness :
  let zk := Example.zk_with [("/t", ""); ("/t/replicas", ""); ("/t/replicas/r1", "");
                             ("/t/replicas/r1/parts", "")] in
  let get_B := Example.get_entry "r2" "B" in
  let merge := Example.merge_entry "r2" ["A"; "B"] "M" in
  let get_C := Example.get_entry "r2" "C" in
  let failed := Example.get_entry "r2" "A" in
  let s := Example.storage zk (Example.Build_Store [] []) [get_B; merge; get_C] in
  queue (queueThread_execute failed s).2 = [merge; get_C; get_B; failed].
Proof.
  cbv zeta.
  refine (fetch_failure_reprioritizes _ _ _ _ (Exn.Exception Exn.NO_REPLICA_HAS_PART)
            [Example.get_entry "r2" "B"] (Example.merge_entry "r2" ["A"; "B"] "M")
            [Example.get_entry "r2" "C"] _ _ _ _ _ _ _ _).
  - reflexivity.
  - vm_compute. reflexivity.
  - vm_compute. reflexivity.
  - vm_compute. reflexivity.
  - reflexivity.
  - reflexivity.
  - apply list_elem_of_here.
  - repeat constructor. intros [Ht _]. discriminate Ht.
Defined.


(** * Further properties of the code *)

(** ** Decimal texts *)

Section decimal.

Import IO.
#[local] Arguments String.append !_ _ / : simpl nomatch.

Lemma is_nat_pretty_N_char (d : N) :
  (d < 10)%N → Ascii.is_nat (pretty_N_char d) = Some (N.to_nat d).
Proof.
  intros Hd.
  assert (d = 0 ∨ d = 1 ∨ d = 2 ∨ d = 3 ∨ d = 4 ∨ d = 5 ∨ d = 6 ∨ d = 7 ∨ d = 8 ∨ d = 9)%N
    as Hcases by lia.
  repeat (destruct Hcases as [-> | Hcases]; [reflexivity |]). by subst d.
Qed.

Lemma pretty_N_go_app (x : N) (s : string) : pretty_N_go x s = pretty_N_go x "" +:+ s.
Proof.
  revert s. induction (N.lt_wf_0 x) as [x _ IH]; intros s.
  destruct (decide (x = 0)%N) as [-> | Hx]; [by rewrite !pretty_N_go_0 |].
  rewrite !(pretty_N_go_step x) by lia.
  assert (Hlt : (x `div` 10 < x)%N) by (apply N.div_lt; lia).
  rewrite (IH _ Hlt (String _ s)), (IH _ Hlt (String _ "")).
  by rewrite app_assoc_s.
Qed.

Lemma app_nonempty (a b : string) : b ≠ "" → a +:+ b ≠ "".
Proof. intros Hb. destruct a; [done | discriminate]. Qed.

Lemma toString_nonempty (x : Z) : toString x ≠ "".
Proof.
  assert (Hpos : ∀ p, pretty (N.pos p) ≠ "").
  { intros p. unfold pretty, pretty_N. rewrite decide_False by done.
    rewrite pretty_N_go_step by lia. rewrite pretty_N_go_app.
    by apply app_nonempty. }
  destruct x as [|p|p]; [done | apply Hpos |].
  unfold toString, pretty, pretty_Z. discriminate.
Qed.

(** Reading the digits of [x] after having read [acc]. *)
Lemma readUIntText_go_pretty (x : N) :
  ∃ k : Z, 0 ≤ k ∧ ∀ acc s,
    0 ≤ acc → acc * 10 ^ k + Z.of_N x < 2 ^ 64 →
    readUIntText_go acc (pretty_N_go x s) = readUIntText_go (acc * 10 ^ k + Z.of_N x) s.
Proof.
  induction (N.lt_wf_0 x) as [x _ IH].
  destruct (decide (x = 0)%N) as [-> | Hx].
  { exists 0. split; [done |]. intros acc s _ _. rewrite pretty_N_go_0. f_equal. lia. }
  destruct (IH (x `div` 10)%N) as (k & Hk & Hrec); [apply N.div_lt; lia |].
  exists (k + 1). split; [lia |]. intros acc s Hacc Hlt.
  rewrite pretty_N_go_step by lia.
  assert (Hdm : Z.of_N x = 10 * Z.of_N (x `div` 10) + Z.of_N (x `mod` 10)).
  { rewrite N2Z.inj_div, N2Z.inj_mod. apply Z_div_mod_eq_full. }
  assert (Hm : 0 ≤ Z.of_N (x `mod` 10) < 10).
  { rewrite N2Z.inj_mod. by apply Z.mod_pos_bound. }
  assert (Hq : 0 ≤ Z.of_N (x `div` 10)) by apply N2Z.is_nonneg.
  rewrite Z.pow_add_r, Z.pow_1_r, Z.mul_assoc in Hlt by lia.
  assert (Ht : 0 ≤ acc * 10 ^ k) by (apply Z.mul_nonneg_nonneg; [done | by apply Z.pow_nonneg]).
  specialize (Hrec acc (String (pretty_N_char (x `mod` 10)) s) Hacc).
  rewrite Z.pow_add_r, Z.pow_1_r, Z.mul_assoc by lia.
  assert (Hstep : ∀ a, readUIntText_go a (String (pretty_N_char (x `mod` 10)) s)
                       = readUIntText_go (wrap64 (a * 10 + Z.of_N (x `mod` 10))) s).
  { intros a. cbn [readUIntText_go]. rewrite is_nat_pretty_N_char by (by apply N.mod_lt).
    by rewrite N_nat_Z. }
  revert Hdm Hm Hq Hlt Ht Hrec Hstep.
  generalize (Z.of_N (x `div` 10)) (Z.of_N (x `mod` 10)) (Z.of_N x) (acc * 10 ^ k).
  intros q m z t -> Hm Hq Hlt Ht Hrec Hstep.
  rewrite Hrec, Hstep by lia.
  f_equal. unfold wrap64. rewrite Z.mod_small; lia.
Qed.

Lemma readUIntText_go_toString (x : Z) (rest : string) :
  0 ≤ x < 2 ^ 64 → readUIntText_go 0 (toString x +:+ rest) = readUIntText_go x rest.
Proof.
  intros Hx. destruct x as [|p|p]; [done | | lia].
  unfold toString, pretty, pretty_Z, pretty, pretty_positive, pretty, pretty_N.
  rewrite decide_False by done. rewrite <- pretty_N_go_app.
  destruct (readUIntText_go_pretty (N.pos p)) as (k & Hk & Hrec).
  rewrite Hrec by (cbn; lia). f_equal.
Qed.

Lemma zero_pad_app (fuel : nat) (s rest : string) :
  ∃ zeros, zero_pad fuel s = zeros +:+ s ∧ readUIntText_go 0 (zeros +:+ s +:+ rest)
                                         = readUIntText_go 0 (s +:+ rest).
Proof.
  revert s. induction fuel as [|fuel IH]; intros s; cbn [zero_pad].
  { by exists "". }
  case_decide; [| by exists ""].
  destruct (IH ("0" +:+ s)) as (zeros & -> & Hread).
  exists (zeros +:+ "0"). rewrite app_assoc_s. split; [done |].
  rewrite !app_assoc_s in Hread |- *. by rewrite Hread.
Qed.

Lemma readUIntText_nonempty (buf : string) :
  buf ≠ "" → readUIntText buf = Ok (readUIntText_go 0 buf).
Proof. by destruct buf. Qed.

(** The decimal text the file writes for an index, alone or padded as in
    the name of a sequential node, is the text [parse<UInt64>] reads as this
    index. *)
Lemma parse_UInt64_toString (x : Z) : 0 ≤ x < 2 ^ 64 → parse_UInt64 (toString x) = Ok x.
Proof.
  intros Hx. unfold parse_UInt64.
  rewrite readUIntText_nonempty by apply toString_nonempty.
  rewrite <- (app_empty_r (toString x)), readUIntText_go_toString by done. done.
Qed.

Lemma parse_UInt64_pad10 (x : Z) :
  0 ≤ x < 2 ^ 64 → parse_UInt64 (pad10 (toString x)) = Ok x.
Proof.
  intros Hx. unfold parse_UInt64, pad10.
  destruct (zero_pad_app 10 (toString x) "") as (zeros & Hz & Hread).
  rewrite !app_empty_r in Hread.
  rewrite readUIntText_nonempty by (rewrite Hz; apply app_nonempty, toString_nonempty).
  rewrite Hz, Hread.
  rewrite <- (app_empty_r (toString x)), readUIntText_go_toString by done. done.
Qed.

End decimal.

(** ** The log entry codec, read the other way *)

Section codec_more.

Import IO LogEntry.

Ltac rsimpl := cbn [mbind Result_bind rbind].

(** What [readString] takes off the buffer is a plain field, and the buffer is
    that field followed by the rest. *)
Lemma readString_inv (buf s rest : string) :
  readString buf = (s, rest) → buf = s +:+ rest ∧ plain s = true.
Proof.
  revert s rest. induction buf as [|c buf IH]; intros s rest; cbn [readString].
  - by intros [= <- <-].
  - destruct (is_field_end c) eqn:Hc; [by intros [= <- <-] |].
    destruct (readString buf) as [s' rest'] eqn:Hr. intros [= <- <-].
    destruct (IH _ _ eq_refl) as [-> Hp]. split; [done |]. cbn [plain]. by rewrite Hc.
Qed.

(** A loop that returns has read plain lines, none of them the end marker,
    and then the end marker. *)
Lemma readText_merge_loop_inv (fuel : nat) (acc ps : list string) (buf rest : string) :
  readText_merge_loop fuel acc buf = Ok (ps, rest) →
  ∃ new, ps = (acc ++ new)%list ∧ Forall (λ p, plain p = true) new ∧ ("into" ∉ new)
         ∧ buf = lines new ("into" +:+ LF +:+ rest).
Proof.
  revert acc buf. induction fuel as [|fuel IH]; intros acc buf; [done |].
  cbn [readText_merge_loop]. destruct (readString buf) as [s b1] eqn:Hs.
  apply readString_inv in Hs as [-> Hplain].
  destruct (assertString LF b1) as [b2| |] eqn:Ha; [| done | done].
  apply assertString_Ok_inv in Ha as ->.
  rsimpl. destruct (decide (s = "into")) as [-> | Hne].
  - intros [= <- <-]. exists []. rewrite app_nil_r.
    split; [done |]. split; [constructor |]. split; [apply not_elem_of_nil | done].
  - intros Hl. destruct (IH _ _ Hl) as (new & -> & Hpl & Hn & ->). exists (s :: new).
    rewrite <- app_assoc. split; [done |]. split; [by constructor |].
    split; [apply not_elem_of_cons; by split | done].
Qed.

Lemma lines_app_s (ps : list string) (tail rest : string) :
  lines ps tail +:+ rest = lines ps (tail +:+ rest).
Proof.
  unfold lines. induction ps as [|p ps IH]; cbn [foldr]; [done |].
  by rewrite !app_assoc_s, IH.
Qed.

(** X1.  Reading is the inverse of writing on everything it accepts with a
    known kind: if [readText], into an entry without source parts, accepts a
    text, then either the text is, byte for byte, what [writeText] gives for
    the entry read, followed by what was left unread; or the kind line of the
    text is neither "get" nor "merge", the text ends with an empty line after
    it, and only the source replica was read. *)
Theorem readText_writeText (e0 e : LogEntry.t) (buf rest : string) :
  parts_to_merge e0 = [] → readText e0 buf = Ok (e, rest) →
  buf = writeText e +:+ rest
  ∨ ∃ kind, kind ≠ "get" ∧ kind ≠ "merge" ∧ plain kind = true
      ∧ buf = "format version: 1" +:+ LF +:+ "source replica: " +:+ source_replica e +:+ LF
              +:+ kind +:+ LF +:+ LF +:+ rest
      ∧ e = mk (znode_name e0) (type e0) (source_replica e) (new_part_name e0) [].
Proof.
  intros H0. unfold readText.
  destruct (assertString _ buf) as [b1| |] eqn:H1; [| done | done].
  apply assertString_Ok_inv in H1 as ->.
  rsimpl. destruct (assertString _ b1) as [b2| |] eqn:H2; [| done | done].
  apply assertString_Ok_inv in H2 as ->.
  rsimpl. destruct (readString b2) as [src b3] eqn:H3.
  apply readString_inv in H3 as [-> Hsrc].
  destruct (assertString LF b3) as [b4| |] eqn:H4; [| done | done].
  apply assertString_Ok_inv in H4 as ->.
  rsimpl. destruct (readString b4) as [kind b5] eqn:H5.
  apply readString_inv in H5 as [-> Hkind].
  destruct (assertString LF b5) as [b6| |] eqn:H6; [| done | done].
  apply assertString_Ok_inv in H6 as ->.
  rsimpl. cbn [znode_name type source_replica new_part_name parts_to_merge].
  rewrite H0. destruct (decide (kind = "get")) as [-> | Hget].
  { destruct (readString b6) as [name b7] eqn:H7.
    apply readString_inv in H7 as [-> Hname]. rsimpl.
    destruct (assertString LF b7) as [b8| |] eqn:H8; [| done | done].
    apply assertString_Ok_inv in H8 as ->.
    rsimpl. intros [= <- <-]. left. unfold writeText.
    cbn [type source_replica new_part_name]. by rewrite !app_assoc_s. }
  destruct (decide (kind = "merge")) as [-> | Hmerge].
  - destruct (readText_merge_loop _ _ b6) as [[ps b7]| |] eqn:Hl; [| done | done].
    apply readText_merge_loop_inv in Hl as (new & -> & Hpl & Hn & ->).
    rsimpl. destruct (readString b7) as [name b8] eqn:H7.
    apply readString_inv in H7 as [-> Hname]. rsimpl.
    destruct (assertString LF b8) as [b9| |] eqn:H8; [| done | done].
    apply assertString_Ok_inv in H8 as ->.
    rsimpl. intros [= <- <-]. left. rewrite writeText_merge by done.
    cbn [source_replica new_part_name parts_to_merge app].
    rewrite !app_assoc_s, lines_app_s. by rewrite !app_assoc_s.
  - rsimpl. destruct (assertString LF b6) as [b7| |] eqn:H7; [| done | done].
    apply assertString_Ok_inv in H7 as ->.
    rsimpl. intros [= <- <-]. right. exists kind.
    cbn [source_replica]. by rewrite !app_assoc_s.
Qed.

(** X2.  [readText] assigns the fields it reads and clears nothing: of the
    text [writeText] gives an entry whose fields are plain, it reads back the
    type, the source replica and the new part name (for a GET_PART entry as
    well as for a MERGE_PARTS entry with no source part named "into"), but the
    source parts it reads are appended to those the target entry already had,
    and a GET_PART text leaves the target's source parts in place. *)
Theorem readText_keeps_parts (e0 e : LogEntry.t) :
  plain (source_replica e) = true → plain (new_part_name e) = true →
  (type e = MERGE_PARTS →
     Forall (λ p, plain p = true) (parts_to_merge e) ∧ ("into" ∉ parts_to_merge e)) →
  readText e0 (writeText e)
  = Ok (mk (znode_name e0) (type e) (source_replica e) (new_part_name e)
          (match type e with
           | GET_PART => parts_to_merge e0
           | MERGE_PARTS => (parts_to_merge e0 ++ parts_to_merge e)%list
           end), "").
Proof.
  intros Hsrc Hname Hparts. destruct (type e) eqn:Ht.
  - unfold readText, writeText. rewrite Ht. rewrite !app_assoc_s.
    change ("format version: 1" +:+ LF +:+ ?r) with (("format version: 1" +:+ LF) +:+ r).
    rewrite assertString_app. rsimpl.
    rewrite assertString_app. rsimpl.
    rewrite (readString_plain _ _ Hsrc). rewrite assertString_app. rsimpl.
    rewrite (readString_plain "get" _ eq_refl). rewrite assertString_app. rsimpl.
    rewrite decide_True by done.
    cbn [znode_name type source_replica new_part_name parts_to_merge].
    rewrite (readString_plain_end _ Hname). rsimpl.
    by rewrite assertString_self.
  - destruct (Hparts eq_refl) as [Hpl Hin].
    rewrite (writeText_merge e Ht).
    rewrite (readText_merge_prefix e0 _ _ _ Hsrc Hpl Hin).
    rewrite (readString_plain_end _ Hname).
    by rewrite assertString_self.
Qed.

End codec_more.

(** X1 on the text of a merge of two parts. *)
Lemma readText_writeText_witness :
  let e := Example.merge_entry "r1" ["20140401_0_0_0"; "20140401_1_1_0"] "20140401_0_1_1" in
  let text := LogEntry.writeText e in
  text = LogEntry.writeText e +:+ ""
  ∨ ∃ kind, kind ≠ "get" ∧ kind ≠ "merge" ∧ IO.plain kind = true
      ∧ text = "format version: 1" +:+ IO.LF +:+ "source replica: "
               +:+ LogEntry.source_replica e +:+ IO.LF +:+ kind +:+ IO.LF +:+ IO.LF +:+ ""
      ∧ e = LogEntry.mk (LogEntry.znode_name LogEntry.fresh) (LogEntry.type LogEntry.fresh)
              (LogEntry.source_replica e) (LogEntry.new_part_name LogEntry.fresh) [].
Proof.
  cbv zeta. apply (readText_writeText LogEntry.fresh); [reflexivity |].
  vm_compute. reflexivity.
Defined.

(** X2 on a GET_PART text read into an entry that was a merge before. *)
Lemma readText_keeps_parts_witness :
  let e0 := Example.merge_entry "r1" ["20140401_0_0_0"; "20140401_1_1_0"] "20140401_0_1_1" in
  let e := Example.get_entry "r2" "20140401_2_2_0" in
  LogEntry.readText e0 (LogEntry.writeText e)
  = Ok (LogEntry.mk "" LogEntry.GET_PART "r2" "20140401_2_2_0"
          ["20140401_0_0_0"; "20140401_1_1_0"], "").
Proof.
  cbv zeta.
  refine (readText_keeps_parts
            (Example.merge_entry "r1" ["20140401_0_0_0"; "20140401_1_1_0"] "20140401_0_1_1")
            (Example.get_entry "r2" "20140401_2_2_0") _ _ _);
    [reflexivity | reflexivity | intros Ht; discriminate Ht].
Defined.

(** ** What a method leaves as it was *)

Section frames.

Context {Data : Type}.
Implicit Types (s : Storage Data).

Lemma preserves_ret {A B} (f : Storage Data → B) (a : A) : preserves f (mret a).
Proof. by intros s r s' [= _ <-]. Qed.

Lemma preserves_throw {A B} (f : Storage Data → B) (e : Exn.t) :
  preserves (A := A) f (throw e).
Proof. by intros s r s' [= _ <-]. Qed.

Lemma preserves_out_of_fuel {A B} (f : Storage Data → B) : preserves (A := A) f out_of_fuel.
Proof. by intros s r s' [= _ <-]. Qed.

Lemma preserves_lift {A B} (f : Storage Data → B) (r : Result A) : preserves f (lift r).
Proof. by intros s r' s' [= _ <-]. Qed.

Lemma preserves_get_storage {B} (f : Storage Data → B) : preserves f get_storage.
Proof. by intros s r s' [= _ <-]. Qed.

Lemma preserves_bind {A A' B} (f : Storage Data → B) (m : M Data A) (k : A → M Data A') :
  preserves f m → (∀ a, preserves f (k a)) → preserves f (m ≫= k).
Proof.
  intros Hm Hk s r s'. unfold mbind, M_bind.
  destruct (m s) as [[a| |] s1] eqn:Hms.
  - intros Hks. etrans; [by eapply Hk | by eapply Hm].
  - intros [= _ <-]. by eapply Hm.
  - intros [= _ <-]. by eapply Hm.
Qed.

Lemma preserves_try_catch {A B} (f : Storage Data → B) (m : M Data A)
    (handler : Exn.t → M Data A) :
  preserves f m → (∀ e, preserves f (handler e)) → preserves f (try_catch m handler).
Proof.
  intros Hm Hh s r s'. unfold try_catch.
  destruct (m s) as [[a|e|] s1] eqn:Hms.
  - intros [= _ <-]. by eapply Hm.
  - intros Hhs. etrans; [by eapply Hh | by eapply Hm].
  - intros [= _ <-]. by eapply Hm.
Qed.

Lemma preserves_modify {B} (f : Storage Data → B) (g : Storage Data → Storage Data) :
  (∀ s, f (g s) = f s) → preserves f (modify g).
Proof. intros Hg s r s' [= _ <-]. apply Hg. Qed.

Lemma preserves_for_each {A B} (f : Storage Data → B) (body : A → M Data unit) (l : list A) :
  (∀ a, preserves f (body a)) → preserves f (for_each body l).
Proof.
  intros Hb. induction l as [|a l IH]; cbn [for_each].
  - apply preserves_ret.
  - apply preserves_bind; [apply Hb | by intros _].
Qed.

Lemma preserves_zk_get {B} (f : Storage Data → B) (path : string) : preserves f (zk_get path).
Proof. by intros s r s' [= _ <-]. Qed.

Lemma preserves_zk_tryGet {B} (f : Storage Data → B) (path : string) :
  preserves f (zk_tryGet path).
Proof. by intros s r s' [= _ <-]. Qed.

Lemma preserves_zk_getChildren {B} (f : Storage Data → B) (path : string) :
  preserves f (zk_getChildren path).
Proof. by intros s r s' [= _ <-]. Qed.

Lemma preserves_zk_multi {B} (f : Storage Data → B) (ops : list zkutil.Op) :
  (∀ zk s, f (set_zookeeper zk s) = f s) → preserves f (zk_multi ops).
Proof.
  intros Hf s r s'. unfold zk_multi. destruct (zkutil.multi ops (zookeeper s)).
  intros [= _ <-]. apply Hf.
Qed.

Lemma preserves_zk_create {B} (f : Storage Data → B) (path data : string)
    (mode : zkutil.CreateMode) :
  (∀ zk s, f (set_zookeeper zk s) = f s) → preserves f (zk_create path data mode).
Proof.
  intros Hf s r s'. unfold zk_create. destruct (zkutil.create path data mode (zookeeper s)).
  intros [= _ <-]. apply Hf.
Qed.

Lemma preserves_zk_tryRemove {B} (f : Storage Data → B) (path : string) :
  (∀ zk s, f (set_zookeeper zk s) = f s) → preserves f (zk_tryRemove path).
Proof.
  intros Hf s r s'. unfold zk_tryRemove. destruct (zkutil.tryRemove path (zookeeper s)).
  intros [= _ <-]. apply Hf.
Qed.

End frames.

(** Framing a method built from the primitives: the members a primitive
    writes are compared by computation. *)
Ltac frame :=
  repeat first
    [ apply preserves_ret | apply preserves_throw | apply preserves_lift
    | apply preserves_get_storage | apply preserves_out_of_fuel
    | apply preserves_zk_get | apply preserves_zk_tryGet | apply preserves_zk_getChildren
    | apply preserves_modify; intros []; reflexivity
    | apply preserves_zk_multi; intros ? []; reflexivity
    | apply preserves_zk_create; intros ? []; reflexivity
    | apply preserves_zk_tryRemove; intros ? []; reflexivity
    | apply preserves_for_each; intros ?
    | apply preserves_try_catch; [| intros ?]
    | apply preserves_bind; [| intros ?]
    | progress cbv beta zeta
    | progress case_match ].

(** ** The queue of the executor *)

Section executor.

Import IO MergeTreeData.
Context {Data : Type}.
Context `{!PartStore Data, !PartFetcher, !Shuffle}.
Implicit Types (s : Storage Data) (entry : LogEntry.t) (q : list LogEntry.t).

Lemma splice_loop_Permutation (fuel : nat) (pf : gset string) q (it merge_entry : nat) :
  splice_loop fuel pf q it merge_entry ≡ₚ q.
Proof.
  revert q it merge_entry. induction fuel as [|fuel IH]; intros q it merge_entry; [done |].
  cbn [splice_loop]. destruct (q !! it) as [e0|] eqn:Hit; [| done].
  case_decide; [done |]. case_match; [| apply IH].
  rewrite IH. rewrite (delete_Permutation q it e0 Hit) at 2.
  by rewrite Permutation_app_comm.
Qed.

(** X3.  The handler of a failed fetch only reorders the queue: whatever the
    queue and the failed entry are, the queue it leaves has the same entries,
    each as often as before. *)
Theorem reprioritize_Permutation entry q : reprioritize entry q ≡ₚ q.
Proof.
  unfold reprioritize. destruct (find_merge_entry q _) as [merge_entry|]; [| done].
  case_match; [done |]. apply splice_loop_Permutation.
Qed.

(** *** Which entry a turn takes *)

Lemma shouldExecuteLogEntry_executable s s0 entry :
  future_parts s = future_parts s0 →
  ∃ (b : bool) s', shouldExecuteLogEntry entry s = (Ok b, s')
    ∧ future_parts s' = future_parts s0 ∧ (b = true ↔ executable s0 entry).
Proof.
  intros Hfp. unfold shouldExecuteLogEntry, executable.
  destruct (LogEntry.type entry).
  - exists true, s. by split; [| split].
  - destruct (shouldExecute_loop_spec s entry (LogEntry.parts_to_merge entry))
      as (s' & -> & Hs').
    eexists _, s'. split; [done |]. split; [congruence |].
    rewrite bool_decide_eq_true, Hfp. naive_solver.
Qed.

Lemma find_work_spec q (pos : nat) s s0 :
  future_parts s = future_parts s0 →
  ∃ w s', find_work q pos s = (Ok w, s')
    ∧ match w with
      | None => Forall (λ e, ¬ executable s0 e) q
      | Some (p, entry) =>
          ∃ pre post, q = (pre ++ entry :: post)%list ∧ p = (pos + length pre)%nat
            ∧ executable s0 entry ∧ Forall (λ e, ¬ executable s0 e) pre
      end.
Proof.
  revert pos s. induction q as [|it q IH]; intros pos s Hfp; cbn [find_work].
  { exists None, s. by split. }
  munfold.
  destruct (shouldExecuteLogEntry_executable s s0 it Hfp) as (b & s1 & -> & Hfp1 & Hb).
  destruct b.
  - exists (Some (pos, it)), s1. split; [done |]. exists [], q.
    cbn [app length]. rewrite Nat.add_0_r. split; [done |]. split; [done |].
    split; [by apply Hb | constructor].
  - destruct (IH (S pos) s1 Hfp1) as (w & s' & -> & Hw). exists w, s'. split; [done |].
    assert (Hno : ¬ executable s0 it) by (intros Hx%Hb; discriminate Hx).
    destruct w as [[p entry]|]; [| by constructor].
    destruct Hw as (pre & post & -> & -> & Hx & Hpre). exists (it :: pre), post.
    cbn [app length]. split; [done |]. split; [lia |]. split; [done | by constructor].
Qed.



(** X4.  The scan of [queueThread] takes the first entry of the queue that may
    be executed: a GET_PART, or a MERGE_PARTS none of whose source parts is in
    [future_parts].  Every entry in front of the one it takes is a merge
    waiting for a part, and it takes none exactly when every entry is. *)
Theorem find_work_first s :
  ∃ w s', find_work (queue s) 0 s = (Ok w, s')
    ∧ match w with
      | None => ∀ e, e ∈ queue s → ¬ executable s e
      | Some (p, entry) =>
          queue s !! p = Some entry ∧ executable s entry
          ∧ ∀ (i : nat) e, (i < p)%nat → queue s !! i = Some e → ¬ executable s e
      end.
Proof.
  destruct (find_work_spec (queue s) 0 s s eq_refl) as (w & s' & Hw & Hspec).
  exists w, s'. split; [done |]. destruct w as [[p entry]|].
  - destruct Hspec as (pre & post & -> & -> & Hx & Hpre). cbn [Nat.add].
    split; [by apply list_lookup_middle |]. split; [done |].
    intros i e Hi Hl. rewrite lookup_app_l in Hl by done.
    by eapply (Forall_lookup_1 _ _ _ _ Hpre).
  - intros e He. by eapply (proj1 (Forall_forall _ _) Hspec).
Qed.

(** *** What a turn does to the queue *)




End executor.


(** ** Executing an entry: the replica to fetch from, and failures *)

Section execute_more.

Import IO MergeTreeData.
Context {Data : Type}.
Context `{!PartStore Data, !PartFetcher, !Shuffle}.
Implicit Types (s : Storage Data) (entry : LogEntry.t).

(** X6.  Provided the shuffle only rearranges the replicas:
    [findActiveReplicaHavingPart] changes nothing; the replica it returns is
    one of the children of [/replicas] which has both the node of the part
    under its [/parts] and the node [/is_active]; and it throws
    NO_REPLICA_HAS_PART exactly when [/replicas] can be listed and none of its
    children has both (otherwise it throws what listing [/replicas] throws). *)
Theorem findActiveReplicaHavingPart_spec (part_name : string) s :
  (∀ replicas, random_shuffle replicas ≡ₚ replicas) →
  let has replica :=
    zkutil.exists_ (zookeeper s)
      (zookeeper_path s +:+ "/replicas/" +:+ replica +:+ "/parts/" +:+ part_name)
    && zkutil.exists_ (zookeeper s)
         (zookeeper_path s +:+ "/replicas/" +:+ replica +:+ "/is_active") in
  let listed := zkutil.getChildren (zookeeper s) (zookeeper_path s +:+ "/replicas") in
  match findActiveReplicaHavingPart part_name s with
  | (Ok replica, s') =>
      s' = s ∧ has replica = true ∧ ∃ replicas, listed = Ok replicas ∧ replica ∈ replicas
  | (Throw e, s') =>
      s' = s
      ∧ (listed = Throw e
         ∨ e = Exn.Exception Exn.NO_REPLICA_HAS_PART
           ∧ ∃ replicas, listed = Ok replicas ∧ ∀ replica, replica ∈ replicas → has replica = false)
  | (OutOfFuel, _) => False
  end.
Proof.
  intros Hshuffle. cbv zeta. unfold findActiveReplicaHavingPart, zk_getChildren. munfold.
  destruct (zkutil.getChildren _ _) as [replicas|e|] eqn:Hlist.
  - destruct (List.find _ _) as [replica|] eqn:Hfind.
    + apply find_some in Hfind as [Hin Hhas]. split; [done |]. split; [done |].
      exists replicas. split; [done |].
      apply list_elem_of_In in Hin. by rewrite (Hshuffle replicas) in Hin.
    + split; [done |]. right. split; [done |]. exists replicas. split; [done |].
      intros replica Hin. apply (find_none _ _ Hfind).
      apply list_elem_of_In. by rewrite (Hshuffle replicas).
  - split; [done | by left].
  - unfold zkutil.getChildren in Hlist. by destruct (_ !! _).
Qed.

(** *** A failure leaves the coordinator as it was *)

Lemma multi_not_ok (ops : list zkutil.Op) (zk zk' : zkutil.ZooKeeper)
    (r : Result (list zkutil.OpResult)) :
  zkutil.multi ops zk = (r, zk') → (∀ rs, r ≠ Ok rs) → zk' = zk.
Proof.
  unfold zkutil.multi. destruct (zkutil.apply_ops _ ops _) as [[rs ns]| |].
  - intros [= <- _] Hr. by destruct (Hr rs).
  - by intros [= _ <-].
  - by intros [= _ <-].
Qed.

Lemma zk_multi_not_ok (ops : list zkutil.Op) s s' (r : Result (list zkutil.OpResult)) :
  zk_multi ops s = (r, s') → (∀ rs, r ≠ Ok rs) → s' = s.
Proof.
  unfold zk_multi. destruct (zkutil.multi ops (zookeeper s)) as [r' zk] eqn:Hm.
  intros [= -> <-] Hr. rewrite (multi_not_ok _ _ _ _ Hm Hr). by destruct s.
Qed.

Lemma preserves_findActiveReplicaHavingPart {B} (f : Storage Data → B) (part_name : string) :
  preserves f (findActiveReplicaHavingPart part_name).
Proof. unfold findActiveReplicaHavingPart. frame. Qed.

Lemma preserves_collect_parts {B} (f : Storage Data → B) entry (names : list string)
    (parts : list DataPart) :
  (∀ level msg s, f (add_log level msg s) = f s) →
  preserves f (collect_parts entry names parts).
Proof.
  intros Hf. revert parts. induction names as [|n names IH]; intros parts;
    cbn [collect_parts]; frame.
  - apply preserves_modify. intros s. apply Hf.
  - apply IH.
Qed.

(** A loop whose body always returns and leaves the coordinator alone. *)
Lemma for_each_quiet {A} (body : A → M Data unit) (l : list A) s :
  (∀ a s, ∃ s', body a s = (Ok (), s') ∧ zookeeper s' = zookeeper s) →
  ∃ s', for_each body l s = (Ok (), s') ∧ zookeeper s' = zookeeper s.
Proof.
  intros Hbody. revert s. induction l as [|a l IH]; intros s; cbn [for_each].
  { by exists s. }
  unfold mbind, M_bind. destruct (Hbody a s) as (s1 & -> & Hzk1).
  destruct (IH s1) as (s' & -> & Hzk). exists s'. split; [done | congruence].
Qed.

Lemma fetchPart_not_ok (part_name replica : string) s (r : Result unit) s' :
  fetchPart part_name replica s = (r, s') → r ≠ Ok () → zookeeper s' = zookeeper s.
Proof.
  unfold fetchPart, zk_get. munfold.
  destruct (zkutil.get _ _) as [host_port_str| |]; [| by intros [= _ <-] | by intros [= _ <-]].
  cbn [zookeeper add_log].
  destruct (parse_host_port host_port_str) as [[host port]| |];
    [| by intros [= _ <-] | by intros [= _ <-]].
  destruct (fetcher_fetchPart _ _ _ _) as [part| |];
    [| by intros [= _ <-] | by intros [= _ <-]].
  destruct (renameTempPartAndReplace part _) as [removed_parts d].
  match goal with
  | |- context [for_each ?body removed_parts ?s0] =>
      destruct (for_each_quiet body removed_parts s0) as (s1 & -> & Hzk1);
        [intros a s2; eexists; split; [reflexivity | by destruct s2] |]
  end.
  cbn [zookeeper set_data add_log] in Hzk1.
  destruct (zk_multi _ s1) as [[rs| |] s2] eqn:Hm.
  - by intros [= <- _] [].
  - intros [= _ <-] _. by rewrite (zk_multi_not_ok _ _ _ _ Hm).
  - intros [= _ <-] _. by rewrite (zk_multi_not_ok _ _ _ _ Hm).
Qed.

Lemma fetch_body_not_ok entry s (r : Result unit) s' :
  fetch_body entry s = (r, s') → r ≠ Ok () → zookeeper s' = zookeeper s.
Proof.
  unfold fetch_body. munfold.
  destruct (findActiveReplicaHavingPart _ s) as [[replica| |] s0] eqn:Hfind;
    pose proof (preserves_findActiveReplicaHavingPart zookeeper _ _ _ _ Hfind) as Hzk0;
    [| by intros [= _ <-] | by intros [= _ <-]].
  destruct (fetchPart _ replica s0) as [[[]| |] s1] eqn:Hfetch.
  - destruct (LogEntry.type entry); by intros [= <- _] [].
  - intros [= _ <-] _. by rewrite (fetchPart_not_ok _ _ _ _ _ Hfetch).
  - intros [= _ <-] _. by rewrite (fetchPart_not_ok _ _ _ _ _ Hfetch).
Qed.

Lemma execute_merge_not_merged entry s (r : Result bool) s' :
  execute_merge entry s = (r, s') → r ≠ Ok false → zookeeper s' = zookeeper s.
Proof.
  unfold execute_merge. munfold.
  destruct (collect_parts entry _ [] s) as [[[have_all_parts parts]| |] s0] eqn:Hc;
    pose proof (preserves_collect_parts zookeeper _ _ _ ltac:(by intros ?? []) _ _ _ Hc)
      as Hzk0;
    [| by intros [= _ <-] | by intros [= _ <-]].
  destruct have_all_parts; cbn [negb]; [| by intros [= _ <-]].
  destruct (mergeParts parts _ (data s0)) as [merged d].
  destruct merged as [part| |]; [| by intros [= _ <-] | by intros [= _ <-]].
  destruct (zk_multi _ (set_data d s0)) as [[rs| |] s1] eqn:Hm.
  - by intros [= <- _] [].
  - intros [= _ <-] _. by rewrite (zk_multi_not_ok _ _ _ _ Hm).
  - intros [= _ <-] _. by rewrite (zk_multi_not_ok _ _ _ _ Hm).
Qed.

Lemma executeLogEntry_not_ok entry s (r : Result unit) s' :
  executeLogEntry entry s = (r, s') → r ≠ Ok () → zookeeper s' = zookeeper s.
Proof.
  unfold executeLogEntry. munfold. destruct (already_have entry s).
  { destruct (negb _); by intros [= <- _] []. }
  unfold execute_rest, execute_decide. munfold.
  assert (Hfetch : ∀ s2, zookeeper s2 = zookeeper s →
            execute_fetch entry s2 = (r, s') → r ≠ Ok () → zookeeper s' = zookeeper s).
  { intros s2 Hzk2. unfold execute_fetch, try_catch.
    destruct (fetch_body entry s2) as [[[]|x|] s3] eqn:Hf.
    - by intros [= <- _] [].
    - munfold. intros [= _ <-] _. cbn [zookeeper set_queue].
      by rewrite (fetch_body_not_ok _ _ _ _ Hf).
    - intros [= _ <-] _. by rewrite (fetch_body_not_ok _ _ _ _ Hf). }
  destruct (is_own_get entry s);
    (destruct (LogEntry.type entry); [apply Hfetch; by destruct s |]);
    match goal with
    | |- context [execute_merge entry ?s1] =>
        destruct (execute_merge entry s1) as [[do_fetch| |] s2] eqn:Hmerge;
          pose proof (execute_merge_not_merged _ _ _ _ Hmerge) as Hzk2;
          cbn [zookeeper add_log] in Hzk2
    end;
    try (intros [= _ <-] _; by apply Hzk2);
    (destruct do_fetch; [apply Hfetch; by apply Hzk2 | by intros [= <- _] []]).
Qed.

(** X7.  Whenever [executeLogEntry] does not return normally, the coordinator
    is exactly as it was before the call: the nodes of the parts are written
    by one [multi], the last thing that can fail.  (The local part store may
    have changed: the fetched or merged part is added to it before the
    [multi].)  The turn of [queueThread] that ran it leaves the coordinator
    as it was too: the queue node of the entry is not removed; and when
    [executeLogEntry] threw, the entry is put back at the end of the queue in
    memory, unless a shutdown was requested: then it is dropped from memory
    only. *)
Theorem executeLogEntry_failure_coordinator entry s (r : Result unit) s1 :
  executeLogEntry entry s = (r, s1) → r ≠ Ok () →
  zookeeper s1 = zookeeper s
  ∧ zookeeper (queueThread_execute entry s).2 = zookeeper s
  ∧ (∀ x, r = Throw x →
       (queueThread_execute entry s).1 = Ok ()
       ∧ queue (queueThread_execute entry s).2
         = if shutdown_called s1 then queue s1 else (queue s1 ++ [entry])%list).
Proof.
  intros Hexec Hr. pose proof (executeLogEntry_not_ok _ _ _ _ Hexec Hr) as Hzk.
  split; [done |].
  unfold queueThread_execute, try_catch, release_future_part, release_currently_merging.
  munfold. rewrite Hexec. destruct r as [[]|x|]; [done | |].
  - destruct (decide (x = Exn.Exception Exn.NO_REPLICA_HAS_PART));
      cbn [shutdown_called add_log]; destruct (shutdown_called s1);
      destruct (LogEntry.type entry);
      cbn [fst snd zookeeper queue add_log set_future_parts set_currently_merging set_queue];
      (split; [done |]); by intros ? [= <-].
  - cbn [fst snd]. split; [done |]. intros x Hx. discriminate Hx.
Qed.

(** *** A merge with a source part missing *)

(** The part is here under its own name. *)
Lemma collect_parts_spec entry (names : list string) (parts : list DataPart) s :
  ∃ (have_all_parts : bool) found s',
    collect_parts entry names parts s = (Ok (have_all_parts, found), s')
    ∧ data s' = data s ∧ zookeeper s' = zookeeper s ∧ queue s' = queue s
    ∧ profile_events s' = profile_events s
    ∧ (have_all_parts = true ↔
       Forall (λ n, ∃ part, getContainingPart (data s) n = Some part ∧ name part = n) names).
Proof.
  revert parts s. induction names as [|n names IH]; intros parts s; cbn [collect_parts].
  { exists true, parts, s. by repeat (split; [done |]). }
  munfold. destruct (getContainingPart (data s) n) as [part|] eqn:Hpart.
  2:{ exists false, parts, s. repeat (split; [done |]).
      intros [(p & Hp & _) _]%Forall_cons. congruence. }
  destruct (decide (name part ≠ n)) as [Hne | Heq%dec_stable].
  { eexists false, parts, _. split; [done |]. cbn [data zookeeper queue profile_events add_log].
    repeat (split; [done |]).
    intros [(p & Hp' & Hp) _]%Forall_cons. congruence. }
  destruct (IH (parts ++ [part])%list s) as (b & found & s' & -> & Hd & Hz & Hq & Hp & Hb).
  exists b, found, s'. repeat (split; [done |]). rewrite Hb, Forall_cons.
  split; [| by intros [_ ?]]. intros Hall. split; [by exists part | done].
Qed.

(** X8.  The merge branch of [executeLogEntry] asks for a fetch instead
    ([do_fetch]) exactly when some source part is not in the local store under
    its own name (it is missing, or covered by a part of another name): then
    the merger is not called and nothing changes but the log; and when every
    source part is here, the branch never asks for a fetch. *)
Theorem execute_merge_missing_part entry s :
  let here n := ∃ part, getContainingPart (data s) n = Some part ∧ name part = n in
  (¬ Forall here (LogEntry.parts_to_merge entry) →
     ∃ s', execute_merge entry s = (Ok true, s')
           ∧ data s' = data s ∧ zookeeper s' = zookeeper s ∧ queue s' = queue s
           ∧ profile_events s' = profile_events s)
  ∧ (Forall here (LogEntry.parts_to_merge entry) →
     (execute_merge entry s).1 ≠ Ok true).
Proof.
  cbv zeta. unfold execute_merge. munfold.
  destruct (collect_parts_spec entry (LogEntry.parts_to_merge entry) [] s)
    as (b & found & s0 & -> & Hd & Hz & Hq & Hp & Hb).
  split.
  - intros Hmissing. destruct b; [by destruct Hmissing; apply Hb |].
    cbn [negb]. eexists. split; [done |]. by destruct s0.
  - intros Hall. apply Hb in Hall as ->. cbn [negb].
    destruct (mergeParts found _ (data s0)) as [merged d].
    destruct merged as [part| |]; [| done | done].
    destruct (zk_multi _ (set_data d s0)) as [[rs| |] s1]; done.
Qed.

End execute_more.

(** X6 with the identity for a shuffle, on a table whose only other replica
    has the part but is not active. *)
Lemma findActiveReplicaHavingPart_spec_witness :
  let zk := Example.zk_with [("/t", ""); ("/t/replicas", ""); ("/t/replicas/r2", "");
                             ("/t/replicas/r2/parts", "");
                             ("/t/replicas/r2/parts/20140401_0_0_0", "")] in
  let s := Example.storage zk (Example.Build_Store [] []) [] in
  (findActiveReplicaHavingPart "20140401_0_0_0" s).1
  = Throw (Exn.Exception Exn.NO_REPLICA_HAS_PART)
  ∧ match findActiveReplicaHavingPart "20140401_0_0_0" s with
    | (Ok replica, s') => True
    | (Throw e, s') =>
        s' = s
        ∧ (zkutil.getChildren (zookeeper s) "/t/replicas" = Throw e
           ∨ e = Exn.Exception Exn.NO_REPLICA_HAS_PART
             ∧ ∃ replicas, zkutil.getChildren (zookeeper s) "/t/replicas" = Ok replicas
                 ∧ ∀ replica, replica ∈ replicas →
                     zkutil.exists_ (zookeeper s)
                       ("/t" +:+ "/replicas/" +:+ replica +:+ "/parts/" +:+ "20140401_0_0_0")
                     && zkutil.exists_ (zookeeper s)
                          ("/t" +:+ "/replicas/" +:+ replica +:+ "/is_active") = false)
    | (OutOfFuel, _) => False
    end.
Proof.
  cbv zeta. split; [vm_compute; reflexivity |].
  pose proof (findActiveReplicaHavingPart_spec "20140401_0_0_0"
                (Example.storage
                   (Example.zk_with [("/t", ""); ("/t/replicas", ""); ("/t/replicas/r2", "");
                                     ("/t/replicas/r2/parts", "");
                                     ("/t/replicas/r2/parts/20140401_0_0_0", "")])
                   (Example.Build_Store [] []) [])
                (λ replicas, reflexivity replicas)) as Hspec.
  cbv zeta in Hspec.
  destruct (findActiveReplicaHavingPart _ _) as [[replica|e|] s']; [done | exact Hspec | done].
Defined.

(** X7 on the entry of a part that no replica has. *)
Lemma executeLogEntry_failure_coordinator_witness :
  let zk := Example.zk_with [("/t", ""); ("/t/replicas", ""); ("/t/replicas/r1", "");
                             ("/t/replicas/r1/parts", "")] in
  let s := Example.storage zk (Example.Build_Store [] []) [] in
  let entry := Example.get_entry "r2" "20140401_0_0_0" in
  zookeeper (executeLogEntry entry s).2 = zookeeper s
  ∧ zookeeper (queueThread_execute entry s).2 = zookeeper s
  ∧ queue (queueThread_execute entry s).2 = [entry].
Proof.
  cbv zeta.
  pose proof (executeLogEntry_failure_coordinator
              (Example.get_entry "r2" "20140401_0_0_0")
              (Example.storage
                 (Example.zk_with [("/t", ""); ("/t/replicas", ""); ("/t/replicas/r1", "");
                                   ("/t/replicas/r1/parts", "")])
                 (Example.Build_Store [] []) [])
              (Throw (Exn.Exception Exn.NO_REPLICA_HAS_PART))
              (executeLogEntry (Example.get_entry "r2" "20140401_0_0_0")
                 (Example.storage
                    (Example.zk_with [("/t", ""); ("/t/replicas", "");
                                      ("/t/replicas/r1", ""); ("/t/replicas/r1/parts", "")])
                    (Example.Build_Store [] []) [])).2) as H.
  assert (H1 : executeLogEntry (Example.get_entry "r2" "20140401_0_0_0")
      (Example.storage
         (Example.zk_with
            [("/t", ""); ("/t/replicas", ""); ("/t/replicas/r1", "");
             ("/t/replicas/r1/parts", "")])
         {| Example.parts := []; Example.detached := [] |} []) =
    (Throw (Exn.Exception Exn.NO_REPLICA_HAS_PART),
     (executeLogEntry (Example.get_entry "r2" "20140401_0_0_0")
        (Example.storage
           (Example.zk_with
              [("/t", ""); ("/t/replicas", ""); ("/t/replicas/r1", "");
               ("/t/replicas/r1/parts", "")])
           {| Example.parts := []; Example.detached := [] |} [])).2)).
  { vm_compute. reflexivity. }
  specialize (H H1 ltac:(discriminate)).
  destruct H as (Hzk & Hturn & Hqueue).
  split; [exact Hzk |]. split; [exact Hturn |].
  rewrite (proj2 (Hqueue _ eq_refl)). vm_compute. reflexivity.
Defined.

(** X8 on a merge of two parts of which the second is not here. *)
Lemma execute_merge_missing_part_witness :
  let have := Example.part "20140401_0_0_0" 0 0 in
  let s := Example.storage zkutil.empty (Example.Build_Store [have] []) [] in
  let entry := Example.merge_entry "r2" ["20140401_0_0_0"; "20140401_1_1_0"] "20140401_0_1_1" in
  ∃ s', execute_merge entry s = (Ok true, s')
        ∧ data s' = data s ∧ zookeeper s' = zookeeper s ∧ queue s' = queue s
        ∧ profile_events s' = profile_events s.
Proof.
  cbv zeta. apply (proj1 (execute_merge_missing_part _ _)).
  intros [_ [(part & Hpart & _) _]%Forall_cons]%Forall_cons. discriminate Hpart.
Defined.

(** ** Pulling the logs: the pointer and the queue *)

Section pull_more.

Import IO.
Context {Data : Type}.
Implicit Types (s : Storage Data) (zk : zkutil.ZooKeeper).

Lemma wrap64_range (x : Z) : 0 ≤ wrap64 x < 2 ^ 64.
Proof. unfold wrap64. by apply Z.mod_pos_bound. Qed.

(** What a turn of the loop that returned left behind. *)
Lemma pull_entry_Ok_inv (iterator : LogIterator) s s' :
  pull_entry iterator s = (Ok (), s') →
  replica_path s' = replica_path s ∧ log s' = log s
  ∧ (∃ entry, queue s' = (queue s ++ [entry])%list)
  ∧ ∃ node, zkutil.nodes (zookeeper s')
              !! (replica_path s +:+ "/log_pointers/" +:+ replica iterator) = Some node
            ∧ zkutil.node_data node = toString (wrap64 (index iterator + 1)).
Proof.
  unfold pull_entry. munfold.
  destruct (LogEntry.parse (entry_str iterator)) as [entry| |]; [| done | done].
  unfold zk_multi, zkutil.multi.
  cbn [zkutil.apply_ops zkutil.apply_op zkutil.is_sequential].
  destruct (zkutil.nodes (zookeeper s) !! dirname (replica_path s +:+ "/queue/queue-"))
    as [parent|]; [| done].
  destruct (zkutil.nodes (zookeeper s) !! _) as [old|]; [done |].
  cbn [mbind Result_bind rbind].
  destruct (_ !! (replica_path s +:+ "/log_pointers/" +:+ replica iterator))
    as [ptr|]; [| done].
  cbn [mbind Result_bind rbind].
  unfold tagPartsAsCurrentlyMerging. cbn [LogEntry.type LogEntry.parts_to_merge].
  destruct (LogEntry.type entry); munfold; intros [= <-];
    cbn [replica_path log queue zookeeper set_zookeeper set_queue set_currently_merging
         zkutil.nodes];
    (split; [done |]); (split; [done |]); (split; [by eexists |]);
    eexists; (split; [apply lookup_insert_eq | done]).
Qed.

(** X9.  The log pointer is read back as it was written: after a turn of the
    loop of [pullLogsToQueue] for an entry of replica [P] at index [i], the
    first loop of the next [pullLogsToQueue] finds the pointer of [P] and
    starts the iterator of [P] at index [i + 1] (modulo 2^64), and changes
    nothing. *)
Theorem pull_resumes_after_entry (iterator : LogIterator) s s' :
  pull_entry iterator s = (Ok (), s') →
  pull_init_iterator (replica iterator) s'
  = (Ok {| replica := replica iterator; index := wrap64 (index iterator + 1);
           timestamp := 0; entry_str := "" |}, s').
Proof.
  intros (Hrp & _ & _ & node & Hnode & Hdata)%pull_entry_Ok_inv.
  unfold pull_init_iterator, zk_tryGet, zkutil.tryGet. munfold.
  rewrite Hrp, Hnode, Hdata.
  by rewrite parse_UInt64_toString by apply wrap64_range.
Qed.

(** *** The queue only grows *)

Lemma pull_entry_queue (iterator : LogIterator) s (r : Result unit) s' :
  pull_entry iterator s = (r, s') →
  log s' = log s
  ∧ ((r = Ok () ∧ ∃ entry, queue s' = (queue s ++ [entry])%list)
     ∨ (r ≠ Ok () ∧ queue s' = queue s)).
Proof.
  intros Hpull. destruct r as [[]| |].
  - apply pull_entry_Ok_inv in Hpull as (_ & Hlog & Hq & _). split; [done | by left].
  - rewrite (pull_entry_not_ok _ _ _ _ Hpull) by done. split; [done | by right].
  - rewrite (pull_entry_not_ok _ _ _ _ Hpull) by done. split; [done | by right].
Qed.

Lemma pull_loop_stop (count : Z) s s' (r : Result Z) :
  queue s' = queue s → log s' = log s → (∀ n, r = Ok n → n = count) →
  ∃ new, queue s' = (queue s ++ new)%list ∧ log s' = log s
         ∧ ∀ n, r = Ok n → n = count + Z.of_nat (length new).
Proof.
  intros Hq Hlog Hr. exists []. rewrite app_nil_r. split; [done |]. split; [done |].
  intros n Hn. rewrite (Hr n Hn). cbn. lia.
Qed.

Lemma pull_loop_queue (fuel : nat) (priority_queue : list LogIterator) (count : Z)
    s (r : Result Z) s' :
  pull_loop fuel priority_queue count s = (r, s') →
  ∃ new, queue s' = (queue s ++ new)%list ∧ log s' = log s
         ∧ ∀ n, r = Ok n → n = count + Z.of_nat (length new).
Proof.
  revert priority_queue count s.
  induction fuel as [|fuel IH]; intros [|iterator pq] count s; cbn [pull_loop]; munfold.
  - intros [= <- <-]. apply pull_loop_stop; [done | done | by intros n [= <-]].
  - intros [= <- <-]. apply pull_loop_stop; [done | done | intros n Hn; discriminate Hn].
  - intros [= <- <-]. apply pull_loop_stop; [done | done | by intros n [= <-]].
  - destruct (pull_entry iterator s) as [[[]| |] s1] eqn:Hentry;
      destruct (pull_entry_queue _ _ _ _ Hentry) as [Hlog [[Hr [entry Hq]] | [Hr Hq]]];
      try done.
    + destruct (readEntry _ _ _) as [found it']. intros Hloop.
      destruct (IH _ _ _ Hloop) as (new & Hq' & Hlog' & Hn). exists (entry :: new).
      split; [by rewrite Hq', Hq, <- app_assoc |]. split; [congruence |].
      intros n Hr'. rewrite (Hn n Hr'). cbn [length]. lia.
    + intros [= <- <-]. apply pull_loop_stop; [done | done | intros n Hn; discriminate Hn].
    + intros [= <- <-]. apply pull_loop_stop; [done | done | intros n Hn; discriminate Hn].
Qed.

Lemma preserves_pull_init {B} (f : Storage Data → B) (replicas : list string)
    (priority_queue : list LogIterator) :
  (∀ zk s, f (set_zookeeper zk s) = f s) →
  preserves f (pull_init replicas priority_queue).
Proof.
  intros Hf. revert priority_queue.
  induction replicas as [|replica replicas IH]; intros pq; cbn [pull_init]; frame;
    try apply IH.
  all: unfold pull_init_iterator; frame; by apply preserves_zk_create.
Qed.

(** X10.  [pullLogsToQueue] only appends to the queue in memory: however it
    ends, the entries that were queued are still there, in their places, in
    front of the new ones; and when it returns, it has written "Pulled N
    entries to queue" to the log exactly when it appended entries, N being
    their number. *)
Theorem pullLogsToQueue_appends (fuel : nat) s :
  ∃ new, queue (pullLogsToQueue fuel s).2 = (queue s ++ new)%list
    ∧ ((pullLogsToQueue fuel s).1 = Ok () →
       log (pullLogsToQueue fuel s).2
       = (log s ++ match new with
                   | [] => []
                   | _ => [(DEBUG, "Pulled " +:+ toString (Z.of_nat (length new))
                                   +:+ " entries to queue")]
                   end)%list).
Proof.
  unfold pullLogsToQueue, zk_getChildren. munfold.
  destruct (zkutil.getChildren _ _) as [replicas| |];
    [| exists []; by rewrite app_nil_r | exists []; by rewrite app_nil_r].
  destruct (pull_init replicas [] s) as [[pq| |] s0] eqn:Hinit;
    pose proof (preserves_pull_init queue _ _ ltac:(by intros ? []) _ _ _ Hinit) as Hq0;
    pose proof (preserves_pull_init log _ _ ltac:(by intros ? []) _ _ _ Hinit) as Hl0;
    [| exists []; by rewrite app_nil_r | exists []; by rewrite app_nil_r].
  destruct (pull_loop fuel pq 0 s0) as [[count| |] s1] eqn:Hloop;
    destruct (pull_loop_queue _ _ _ _ _ _ Hloop) as (new & Hq1 & Hl1 & Hn);
    exists new; cbn [fst snd]; [| by rewrite Hq1, Hq0 | by rewrite Hq1, Hq0].
  rewrite (Hn count eq_refl), Z.add_0_l.
  destruct new as [|entry new].
  - rewrite bool_decide_eq_false_2 by (cbn; lia). cbn [fst snd].
    split; [by rewrite Hq1, Hq0 |]. intros _. rewrite app_nil_r. congruence.
  - rewrite bool_decide_eq_true_2 by (cbn [length]; lia). cbn [fst snd queue log add_log].
    split; [by rewrite Hq1, Hq0 |]. intros _. congruence.
Qed.

End pull_more.

(** X9 on the entry of replica [r2] at index 0, pulled by replica [r1]. *)
Lemma pull_resumes_after_entry_witness :
  let zk := Example.zk_with [("/t", ""); ("/t/replicas", ""); ("/t/replicas/r1", "");
                             ("/t/replicas/r1/queue", "");
                             ("/t/replicas/r1/log_pointers", "");
                             ("/t/replicas/r1/log_pointers/r2", "0")] in
  let s := Example.storage zk (Example.Build_Store [] []) [] in
  let text := LogEntry.toString (Example.get_entry "r2" "20140401_1_1_0") in
  let iterator := {| replica := "r2"; index := 0; timestamp := 7; entry_str := text |} in
  pull_init_iterator "r2" (pull_entry iterator s).2
  = (Ok {| replica := "r2"; index := 1; timestamp := 0; entry_str := "" |},
     (pull_entry iterator s).2).
Proof.
  cbv zeta.
  refine (pull_resumes_after_entry
            {| replica := "r2"; index := 0; timestamp := 7;
               entry_str := LogEntry.toString (Example.get_entry "r2" "20140401_1_1_0") |}
            (Example.storage
               (Example.zk_with [("/t", ""); ("/t/replicas", ""); ("/t/replicas/r1", "");
                                 ("/t/replicas/r1/queue", "");
                                 ("/t/replicas/r1/log_pointers", "");
                                 ("/t/replicas/r1/log_pointers/r2", "0")])
               (Example.Build_Store [] []) []) _ _).
  vm_compute. reflexivity.
Defined.

(** ** Bringing a replica up *)

Section activate.

Import IO.
Context {Data : Type}.
Implicit Types (s : Storage Data) (zk : zkutil.ZooKeeper).

Lemma exists_is_Some zk (path : string) :
  zkutil.exists_ zk path = true ↔ is_Some (zkutil.nodes zk !! path).
Proof. unfold zkutil.exists_. apply bool_decide_eq_true. Qed.

Lemma replica_child_ne (replica_path a b : string) :
  a ≠ b → replica_path +:+ a ≠ replica_path +:+ b.
Proof. intros Hab Heq. by apply (inj (String.app _)) in Heq. Qed.

(** When [/is_active] is there, the [multi] is refused and nothing changes. *)
Lemma activateReplica_active (host : string) (port : Z) s :
  zkutil.exists_ (zookeeper s) (replica_path s) = true →
  zkutil.exists_ (zookeeper s) (replica_path s +:+ "/is_active") = true →
  activateReplica host port s = (Throw (Exn.Exception Exn.REPLICA_IS_ALREADY_ACTIVE), s).
Proof.
  intros [parent Hparent]%exists_is_Some [node Hnode]%exists_is_Some.
  unfold activateReplica, try_catch, zk_multi, zkutil.multi. munfold.
  cbn [zkutil.apply_ops zkutil.apply_op zkutil.is_sequential].
  rewrite (dirname_child (replica_path s) "is_active" eq_refl), Hparent, Hnode.
  cbn [mbind Result_bind rbind]. rewrite decide_True by done.
  by rewrite set_zookeeper_id.
Qed.

(** X11.  [activateReplica] announces the replica once.  If the replica's
    node and its [/is_active] exist, it throws REPLICA_IS_ALREADY_ACTIVE and
    changes nothing: [/host] keeps its text.  If it returns, [/is_active]
    exists, [/host] holds "host: H\nport: P\n" for the host and port given, and
    nothing else of the storage object changed; every further call then throws
    REPLICA_IS_ALREADY_ACTIVE and leaves that [/host] in place. *)
Theorem activateReplica_once (host : string) (port : Z) s :
  (zkutil.exists_ (zookeeper s) (replica_path s) = true →
   zkutil.exists_ (zookeeper s) (replica_path s +:+ "/is_active") = true →
   activateReplica host port s = (Throw (Exn.Exception Exn.REPLICA_IS_ALREADY_ACTIVE), s))
  ∧ (∀ s', activateReplica host port s = (Ok (), s') →
       s' = set_zookeeper (zookeeper s') s
       ∧ zkutil.exists_ (zookeeper s') (replica_path s +:+ "/is_active") = true
       ∧ zkutil.get (zookeeper s') (replica_path s +:+ "/host") = Ok (host_text host port)
       ∧ ∀ host' port',
           activateReplica host' port' s'
           = (Throw (Exn.Exception Exn.REPLICA_IS_ALREADY_ACTIVE), s')).
Proof.
  split; [apply activateReplica_active |].
  intros s'. unfold activateReplica at 1. unfold try_catch, zk_multi, zkutil.multi. munfold.
  cbn [zkutil.apply_ops zkutil.apply_op zkutil.is_sequential].
  rewrite (dirname_child (replica_path s) "is_active" eq_refl).
  destruct (zkutil.nodes (zookeeper s) !! replica_path s) as [parent|] eqn:Hparent.
  2:{ cbn [mbind Result_bind rbind]. by rewrite decide_False. }
  destruct (zkutil.nodes (zookeeper s) !! (replica_path s +:+ "/is_active")) as [old|] eqn:Hfree.
  { cbn [mbind Result_bind rbind]. by rewrite decide_True. }
  cbn [mbind Result_bind rbind].
  assert (Hne1 : replica_path s +:+ "/is_active" ≠ replica_path s +:+ "/host")
    by (by apply replica_child_ne).
  assert (Hne2 : replica_path s ≠ replica_path s +:+ "/host")
    by (apply not_eq_sym, app_ne_self; discriminate).
  assert (Hne3 : replica_path s ≠ replica_path s +:+ "/is_active")
    by (apply not_eq_sym, app_ne_self; discriminate).
  rewrite lookup_insert_ne by done. rewrite lookup_insert_ne by (by apply not_eq_sym).
  destruct (zkutil.nodes (zookeeper s) !! (replica_path s +:+ "/host")) as [host_node|] eqn:Hhost.
  2:{ cbn [mbind Result_bind rbind]. by rewrite decide_False. }
  cbn [mbind Result_bind rbind]. intros [= <-].
  cbn [zookeeper set_zookeeper replica_path zkutil.nodes].
  split; [done |]. split.
  { apply exists_is_Some. cbn [zkutil.nodes].
    rewrite lookup_insert_ne by (by apply not_eq_sym). rewrite lookup_insert_eq. by eexists. }
  split.
  { unfold zkutil.get, zkutil.tryGet. cbn [zkutil.nodes]. by rewrite lookup_insert_eq. }
  intros host' port'. apply activateReplica_active; apply exists_is_Some;
    cbn [zookeeper set_zookeeper replica_path zkutil.nodes].
  - rewrite !lookup_insert_ne by done. rewrite lookup_insert_eq. by eexists.
  - rewrite lookup_insert_ne by (by apply not_eq_sym). rewrite lookup_insert_eq. by eexists.
Qed.

(** X12.  What [activateReplica] writes to [/host], [fetchPart] reads back:
    for a host name without line end or tab and a port number, the text
    "host: H\nport: P\n" parses to the host and the port. *)
Theorem host_text_parsed (host : string) (port : Z) :
  plain host = true → 0 ≤ port < 65536 →
  parse_host_port (host_text host port) = Ok (host, port).
Proof.
  intros Hhost Hport. unfold parse_host_port, host_text.
  rewrite assertString_app. cbn [mbind Result_bind rbind].
  rewrite (readString_plain _ _ Hhost).
  rewrite <- (app_assoc_s LF "port: "), assertString_app. cbn [mbind Result_bind rbind].
  rewrite readUIntText_nonempty by (apply not_eq_sym, not_eq_sym, app_nonempty; discriminate).
  rewrite readUIntText_go_toString by lia.
  by cbn.
Qed.

End activate.

(** X11 on a replica that is brought up twice. *)
Lemma activateReplica_once_witness :
  let zk := Example.zk_with [("/t", ""); ("/t/replicas", ""); ("/t/replicas/r1", "");
                             ("/t/replicas/r1/host", "")] in
  let s := Example.storage zk (Example.Build_Store [] []) [] in
  let s' := (activateReplica "example01" 9009 s).2 in
  zkutil.get (zookeeper s') "/t/replicas/r1/host" = Ok (host_text "example01" 9009)
  ∧ activateReplica "example02" 9010 s'
    = (Throw (Exn.Exception Exn.REPLICA_IS_ALREADY_ACTIVE), s').
Proof.
  cbv zeta.
  destruct (proj2 (activateReplica_once "example01" 9009
                     (Example.storage
                        (Example.zk_with [("/t", ""); ("/t/replicas", "");
                                          ("/t/replicas/r1", "");
                                          ("/t/replicas/r1/host", "")])
                        (Example.Build_Store [] []) []))
              _ ltac:(vm_compute; reflexivity)) as (_ & _ & Hhost & Hagain).
  split; [exact Hhost | exact (Hagain "example02" 9010)].
Defined.

(** X12 on a host and a port. *)
Lemma host_text_parsed_witness :
  parse_host_port (host_text "example01" 9009) = Ok ("example01", 9009).
Proof. apply host_text_parsed; [reflexivity | lia]. Defined.

(** ** Is the table empty, and what the queue is loaded from *)

Section table_state.

Import IO MergeTreeData.
Context {Data : Type}.
Context `{!PartStore Data}.
Implicit Types (s : Storage Data) (zk : zkutil.ZooKeeper).

Lemma isTableEmpty_loop_empty (replicas : list string) s :
  Forall (λ replica,
    zkutil.getChildren (zookeeper s)
      (zookeeper_path s +:+ "/replicas/" +:+ replica +:+ "/parts") = Ok []) replicas →
  isTableEmpty_loop replicas s = (Ok true, s).
Proof.
  induction 1 as [|replica replicas Hreplica _ IH]; cbn [isTableEmpty_loop]; [done |].
  unfold zk_getChildren. munfold. by rewrite Hreplica.
Qed.

(** X13.  [isTableEmpty] changes nothing and answers by the first replica,
    in the order the coordinator lists the children of [/replicas], whose
    [/parts] is not an empty list of children: false if it has children, and
    what listing it throws if it cannot be listed (a replica whose nodes are
    not all created yet); true if there is no such replica. *)
Theorem isTableEmpty_spec s (replicas : list string) :
  zkutil.getChildren (zookeeper s) (zookeeper_path s +:+ "/replicas") = Ok replicas →
  let parts_of replica :=
    zkutil.getChildren (zookeeper s)
      (zookeeper_path s +:+ "/replicas/" +:+ replica +:+ "/parts") in
  (Forall (λ replica, parts_of replica = Ok []) replicas → isTableEmpty s = (Ok true, s))
  ∧ (∀ pre replica post,
       replicas = (pre ++ replica :: post)%list →
       Forall (λ replica', parts_of replica' = Ok []) pre →
       parts_of replica ≠ Ok [] →
       isTableEmpty s
       = (match parts_of replica with
          | Ok _ => Ok false
          | Throw e => Throw e
          | OutOfFuel => OutOfFuel
          end, s)).
Proof.
  intros Hlist. cbv zeta. unfold isTableEmpty, zk_getChildren. munfold. rewrite Hlist.
  split; [apply isTableEmpty_loop_empty |].
  intros pre replica post -> Hpre Hparts. clear Hlist.
  induction Hpre as [|replica' pre Hreplica' _ IH]; cbn [app isTableEmpty_loop];
    unfold zk_getChildren; munfold.
  - destruct (zkutil.getChildren _ _) as [[|part parts]| |]; done.
  - by rewrite Hreplica'.
Qed.

(** *** Loading the queue *)

Lemma load_entry_inv (child : string) s (r : Result unit) s' :
  load_entry child s = (r, s') →
  (r ≠ Ok () ∧ s' = s)
  ∨ (r = Ok () ∧ ∃ text entry,
       zkutil.get (zookeeper s) (replica_path s +:+ "/queue/" +:+ child) = Ok text
       ∧ LogEntry.parse text = Ok entry
       ∧ s' = set_queue
                (queue s ++ [LogEntry.mk child (LogEntry.type entry)
                               (LogEntry.source_replica entry)
                               (LogEntry.new_part_name entry)
                               (LogEntry.parts_to_merge entry)])%list
                (match LogEntry.type entry with
                 | LogEntry.MERGE_PARTS =>
                     set_currently_merging
                       (currently_merging s ∪ list_to_set (LogEntry.parts_to_merge entry)) s
                 | LogEntry.GET_PART => s
                 end)).
Proof.
  unfold load_entry, zk_get. munfold.
  destruct (zkutil.get _ _) as [text| |] eqn:Hget;
    [| intros [= <- <-]; by left | intros [= <- <-]; by left].
  destruct (LogEntry.parse text) as [entry| |] eqn:Hparse;
    [| intros [= <- <-]; by left | intros [= <- <-]; by left].
  unfold tagPartsAsCurrentlyMerging. cbn [LogEntry.type LogEntry.parts_to_merge].
  destruct (LogEntry.type entry) eqn:Ht; munfold; intros [= <- <-]; right;
    (split; [done |]); exists text, entry; rewrite Ht; by repeat (split; [done |]).
Qed.

Lemma for_each_load_entry (children : list string) s (r : Result unit) s' :
  for_each load_entry children s = (r, s') →
  zookeeper s' = zookeeper s ∧ data s' = data s ∧ replica_path s' = replica_path s
  ∧ ∃ new done_ rest,
      children = (done_ ++ rest)%list ∧ queue s' = (queue s ++ new)%list
      ∧ loaded_from (zookeeper s) (replica_path s) done_ new
      ∧ (r = Ok () → rest = [])
      ∧ ∀ part_name, part_name ∈ currently_merging s' ↔
          part_name ∈ currently_merging s
          ∨ ∃ entry, entry ∈ new ∧ LogEntry.type entry = LogEntry.MERGE_PARTS
                     ∧ part_name ∈ LogEntry.parts_to_merge entry.
Proof.
  revert s. induction children as [|child children IH]; intros s; cbn [for_each].
  { intros [= <- <-]. repeat (split; [done |]). exists [], [], [].
    rewrite ?app_nil_r. repeat (split; [done |]). split; [constructor |]. split; [done |].
    intros p. split; [by left |]. intros [? | (e & []%elem_of_nil & _)]. done. }
  unfold mbind, M_bind at 1.
  destruct (load_entry child s) as [r1 s1] eqn:Hload.
  apply load_entry_inv in Hload as [[Hr ->] | (-> & text & entry & Hget & Hparse & ->)].
  { destruct r1 as [[]| |]; [done | |]; intros [= <- <-]; repeat (split; [done |]);
      exists [], [], (child :: children);
      rewrite ?app_nil_r; repeat (split; [done |]); (split; [constructor |]);
      (split; [intros Hx; discriminate Hx |]);
      intros p; (split; [by left |]); by intros [? | (e' & []%elem_of_nil & _)]. }
  intros Hrest. apply IH in Hrest as (Hzk & Hd & Hrp & new & done_ & rest & -> & Hq & Hl & Hr & Hcm).
  set (loaded := LogEntry.mk child (LogEntry.type entry) (LogEntry.source_replica entry)
                   (LogEntry.new_part_name entry) (LogEntry.parts_to_merge entry)) in *.
  assert (Hframe : ∀ s0, zookeeper (set_queue (queue s ++ [loaded])%list s0) = zookeeper s0
                         ∧ data (set_queue (queue s ++ [loaded])%list s0) = data s0
                         ∧ replica_path (set_queue (queue s ++ [loaded])%list s0)
                           = replica_path s0) by done.
  assert (Hs1 : ∀ X : Type, ∀ f : Storage Data → X,
            (∀ cm s0, f (set_currently_merging cm s0) = f s0) →
            f (match LogEntry.type entry with
               | LogEntry.MERGE_PARTS =>
                   set_currently_merging
                     (currently_merging s ∪ list_to_set (LogEntry.parts_to_merge entry)) s
               | LogEntry.GET_PART => s
               end) = f s).
  { intros X f Hf. by destruct (LogEntry.type entry). }
  destruct (Hframe (match LogEntry.type entry with
                    | LogEntry.MERGE_PARTS =>
                        set_currently_merging
                          (currently_merging s ∪ list_to_set (LogEntry.parts_to_merge entry)) s
                    | LogEntry.GET_PART => s
                    end)) as (Hz1 & Hd1 & Hrp1).
  rewrite Hz1, (Hs1 _ zookeeper) in Hzk by done.
  rewrite Hd1, (Hs1 _ data) in Hd by done.
  rewrite Hrp1, (Hs1 _ replica_path) in Hrp by done.
  rewrite Hz1, (Hs1 _ zookeeper), Hrp1, (Hs1 _ replica_path) in Hl by done.
  repeat (split; [done |]). exists (loaded :: new), (child :: done_), rest.
  split; [done |]. split.
  { rewrite Hq. cbn [queue set_queue]. by rewrite <- app_assoc. }
  split.
  { constructor; [| done]. split; [done |]. exists text, entry. by repeat (split; [done |]). }
  split; [done |].
  intros p. rewrite Hcm. cbn [currently_merging set_queue].
  setoid_rewrite elem_of_cons. destruct (LogEntry.type entry) eqn:Ht.
  - split; [intros [? | (e & ? & ? & ?)]; [by left | right; exists e; by eauto] |].
    intros [? | (e & [-> | ?] & Hte & ?)]; [by left | | right; exists e; by eauto].
    subst loaded. cbn in Hte. congruence.
  - cbn [currently_merging set_currently_merging]. rewrite elem_of_union, elem_of_list_to_set.
    split.
    + intros [[? | ?] | (e & ? & ? & ?)]; [by left | | right; exists e; by eauto].
      right. exists loaded. by repeat (split; [by eauto |]).
    + intros [? | (e & [-> | ?] & Hte & Hin)]; [by left; left | | right; exists e; by eauto].
      left. by right.
Qed.


(** *** Is a big merge running *)

Lemma has_big_merge_loop_spec (names : list string) s :
  ∃ (b : bool) s', has_big_merge_loop names s = (Ok b, s')
    ∧ data s' = data s ∧ structure s' = structure s ∧ zookeeper s' = zookeeper s
    ∧ queue s' = queue s ∧ currently_merging s' = currently_merging s
    ∧ (b = true ↔ Exists (big_part_here s) names).
Proof.
  revert s. induction names as [|n names IH]; intros s; cbn [has_big_merge_loop].
  { exists false, s. repeat (split; [done |]). by intros ?%Exists_nil. }
  munfold.
  assert (Hstep : ∀ s0, data s0 = data s → structure s0 = structure s →
            zookeeper s0 = zookeeper s → queue s0 = queue s →
            currently_merging s0 = currently_merging s → ¬ big_part_here s n →
            ∃ (b : bool) s', has_big_merge_loop names s0 = (Ok b, s')
              ∧ data s' = data s ∧ structure s' = structure s ∧ zookeeper s' = zookeeper s
              ∧ queue s' = queue s ∧ currently_merging s' = currently_merging s
              ∧ (b = true ↔ Exists (big_part_here s) (n :: names))).
  { intros s0 Hd Hst Hz Hq Hcm Hno.
    destruct (IH s0) as (b & s' & -> & Hd' & Hst' & Hz' & Hq' & Hcm' & Hb).
    exists b, s'. split; [done |]. repeat (split; [congruence |]).
    rewrite Hb, Exists_cons. unfold big_part_here. rewrite Hd, Hst. tauto. }
  destruct (getContainingPart (data s) n) as [part|] eqn:Hpart.
  2:{ apply Hstep; try done. intros (p & Hp & _). congruence. }
  destruct (decide (name part ≠ n)) as [Hne | Heq%dec_stable].
  { apply Hstep; try done. intros (p & Hp & Hn & _). congruence. }
  destruct (bool_decide (25 * 1024 * 1024 < _)) eqn:Hbig.
  - apply bool_decide_eq_true_1 in Hbig. exists true, s. repeat (split; [done |]).
    split; [intros _ | done]. apply Exists_cons. left. by exists part.
  - apply bool_decide_eq_false_1 in Hbig. apply Hstep; try done.
    intros (p & Hp & _ & Hlt). congruence.
Qed.

(** X15.  The leader counts a big merge as running exactly when some name in
    [currently_merging] is a part of the local store, under that very name,
    whose size times the index granularity, computed in 64 bits, exceeds
    25 MiB; names that are gone or covered by another part do not count.
    Looking for it changes nothing but the log. *)
Theorem has_big_merge_spec s :
  ∃ (b : bool) s', has_big_merge s = (Ok b, s')
    ∧ data s' = data s ∧ zookeeper s' = zookeeper s ∧ queue s' = queue s
    ∧ currently_merging s' = currently_merging s
    ∧ (b = true ↔ ∃ part_name, part_name ∈ currently_merging s ∧ big_part_here s part_name).
Proof.
  unfold has_big_merge. munfold.
  destruct (has_big_merge_loop_spec (elements (currently_merging s)) s)
    as (b & s' & -> & Hd & _ & Hz & Hq & Hcm & Hb).
  exists b, s'. repeat (split; [done |]). rewrite Hb, Exists_exists.
  by setoid_rewrite elem_of_elements.
Qed.

End table_state.

(** X13 on a table with the replicas [r1], without parts, and [r2], with
    one. *)
Lemma isTableEmpty_spec_witness :
  let zk := Example.zk_with [("/t", ""); ("/t/replicas", "");
                             ("/t/replicas/r1", ""); ("/t/replicas/r1/parts", "");
                             ("/t/replicas/r2", ""); ("/t/replicas/r2/parts", "");
                             ("/t/replicas/r2/parts/20140401_0_0_0", "")] in
  let s := Example.storage zk (Example.Build_Store [] []) [] in
  isTableEmpty s = (Ok false, s).
Proof.
  cbv zeta.
  refine (proj2 (isTableEmpty_spec
                   (Example.storage
                      (Example.zk_with [("/t", ""); ("/t/replicas", "");
                                        ("/t/replicas/r1", ""); ("/t/replicas/r1/parts", "");
                                        ("/t/replicas/r2", ""); ("/t/replicas/r2/parts", "");
                                        ("/t/replicas/r2/parts/20140401_0_0_0", "")])
                      (Example.Build_Store [] []) [])
                   ["r1"; "r2"] _) ["r1"] "r2" [] _ _ _).
  - vm_compute. reflexivity.
  - reflexivity.
  - repeat constructor.
  - vm_compute. discriminate.
Defined.

(** ** The first replica of a new table *)

Section paths.

Import IO.
#[local] Arguments String.append !_ _ / : simpl nomatch.

Lemma dirname_split (p : string) :
  has_slash p = true → p = dirname p +:+ String "/" (basename p).
Proof.
  induction p as [|c p IH]; [done |]. cbn [has_slash dirname basename].
  destruct (has_slash p) eqn:Hp.
  - intros _. cbn [String.append]. by rewrite <- IH.
  - rewrite orb_false_r. intros Hc. rewrite Hc.
    apply bool_decide_eq_true_1 in Hc as ->. done.
Qed.

Lemma dirname_no_slash (p : string) : has_slash p = false → dirname p = "".
Proof.
  destruct p as [|c p]; [done |]. cbn [has_slash dirname].
  intros [_ ->]%orb_false_iff. done.
Qed.

Lemma dirname_replica (zookeeper_path replica_name : string) :
  has_slash replica_name = false →
  dirname (zookeeper_path +:+ "/replicas/" +:+ replica_name) = zookeeper_path +:+ "/replicas".
Proof.
  intros Hn.
  change (zookeeper_path +:+ "/replicas/" +:+ replica_name)
    with (zookeeper_path +:+ ("/replicas" +:+ String "/" replica_name)).
  rewrite <- app_assoc_s. by apply dirname_child.
Qed.

End paths.

(** Two paths under the same node differ when what follows the node does. *)
Ltac path_ne :=
  let Heq := fresh "Heq" in
  intros Heq; rewrite ?app_assoc_s in Heq;
  repeat (apply (inj (String.app _)) in Heq);
  first
    [ discriminate Heq
    | by (eapply app_ne_self; [| exact Heq])
    | by (eapply app_ne_self; [| symmetry; exact Heq]) ].

Section coordinator_contents.

Import IO.
Context {Data : Type}.
Implicit Types (s : Storage Data) (zk : zkutil.ZooKeeper).

Lemma contents_lookup zk (path : string) :
  contents zk !! path = zkutil.node_data <$> zkutil.nodes zk !! path.
Proof. apply lookup_fmap. Qed.

Lemma get_contents zk (path data : string) :
  contents zk !! path = Some data → zkutil.get zk path = Ok data.
Proof.
  rewrite contents_lookup. unfold zkutil.get, zkutil.tryGet.
  destruct (zkutil.nodes zk !! path); [by intros [= <-] | done].
Qed.

Lemma exists_contents zk (path : string) :
  zkutil.exists_ zk path = bool_decide (is_Some (contents zk !! path)).
Proof.
  unfold zkutil.exists_. apply bool_decide_ext. rewrite contents_lookup.
  by rewrite fmap_is_Some.
Qed.

(** A path no node lies directly under has no children. *)
Lemma children_nil zk (path : string) :
  path ≠ "" → (∀ child, contents zk !! (path +:+ String "/" child) = None) →
  zkutil.children (zkutil.nodes zk) path = [].
Proof.
  intros Hpath Hfree. unfold zkutil.children.
  assert (Hall : ∀ kv, kv ∈ map_to_list (zkutil.nodes zk) →
            (if decide (kv.1 ≠ "" ∧ dirname kv.1 = path) then Some (basename kv.1) else None)
            = None).
  { intros [k n] Hin%elem_of_map_to_list. cbn [fst]. case_decide as Hk; [| done].
    destruct Hk as [Hk Hdir]. exfalso.
    destruct (has_slash k) eqn:Hslash.
    - pose proof (Hfree (basename k)) as Hnone.
      rewrite <- Hdir, <- (dirname_split k Hslash), contents_lookup, Hin in Hnone. done.
    - apply Hpath. rewrite <- Hdir. by apply dirname_no_slash. }
  induction (map_to_list (zkutil.nodes zk)) as [|kv l IH]; [done |].
  cbn [omap list_omap]. rewrite Hall by apply list_elem_of_here.
  apply IH. intros kv' Hin. apply Hall. by apply list_elem_of_further.
Qed.

Lemma getChildren_nil zk (path : string) :
  path ≠ "" → is_Some (contents zk !! path) →
  (∀ child, contents zk !! (path +:+ String "/" child) = None) →
  zkutil.getChildren zk path = Ok [].
Proof.
  intros Hpath Hnode Hfree. unfold zkutil.getChildren.
  rewrite contents_lookup, fmap_is_Some in Hnode. destruct Hnode as [n ->].
  by rewrite children_nil.
Qed.

(** Creating a node under an existing parent, at a free path. *)
Lemma zk_create_contents (path data : string) (mode : zkutil.CreateMode) s :
  zkutil.is_sequential mode = false →
  is_Some (contents (zookeeper s) !! dirname path) →
  contents (zookeeper s) !! path = None →
  ∃ zk', zk_create path data mode s = (Ok path, set_zookeeper zk' s)
         ∧ contents zk' = <[path := data]> (contents (zookeeper s)).
Proof.
  intros Hmode Hparent Hfree. unfold zk_create, zkutil.create, zkutil.multi.
  cbn [zkutil.apply_ops zkutil.apply_op]. rewrite Hmode.
  rewrite contents_lookup, fmap_is_Some in Hparent. destruct Hparent as [parent Hparent].
  rewrite contents_lookup, fmap_None in Hfree. rewrite Hparent, Hfree.
  cbn [mbind Result_bind rbind]. eexists. split; [reflexivity |].
  unfold contents. cbn [zkutil.nodes]. rewrite !fmap_insert. cbn [zkutil.node_data].
  f_equal. apply insert_id. by rewrite lookup_fmap, Hparent.
Qed.

End coordinator_contents.

(** Looking a path up in what a sequence of creations left. *)
Ltac lookup_path :=
  repeat first
    [ rewrite lookup_insert_eq
    | rewrite lookup_insert_ne by path_ne ].

Section first_replica.

Import IO MergeTreeData.
Context {Data : Type}.
Context `{!PartStore Data, !BackQuoting}.
Implicit Types (s : Storage Data) (zk : zkutil.ZooKeeper).

Hypothesis read_write_quoted :
  ∀ name rest, readBackQuotedString (writeBackQuotedString name +:+ rest) = Ok (name, rest).

Lemma check_columns_written (cols : list (string * string)) (rest : string) :
  check_columns cols (write_columns cols +:+ rest) = Ok rest.
Proof.
  induction cols as [|[col_name col_type] cols IH]; cbn [check_columns write_columns]; [done |].
  rewrite !app_assoc_s, read_write_quoted. cbn [mbind Result_bind rbind].
  rewrite decide_False by (by intros []).
  rewrite assertString_app. cbn [mbind Result_bind rbind].
  rewrite assertString_app. cbn [mbind Result_bind rbind].
  rewrite assertString_app. cbn [mbind Result_bind rbind].
  apply IH.
Qed.

Lemma assertString_app2 (a b rest : string) :
  assertString (a +:+ b) (a +:+ b +:+ rest) = Ok rest.
Proof. rewrite <- (app_assoc_s a b rest). apply assertString_app. Qed.

Lemma assertString_app3 (a b c rest : string) :
  assertString (a +:+ b +:+ c) (a +:+ b +:+ c +:+ rest) = Ok rest.
Proof.
  rewrite <- (app_assoc_s b c rest), <- (app_assoc_s a (b +:+ c) rest).
  apply assertString_app.
Qed.

(** The checks accept the text [createTable] writes for the same table. *)
Lemma check_metadata_written (d : Structure) : check_metadata d (metadata_text d) = Ok ().
Proof.
  unfold check_metadata, metadata_text.
  rewrite assertString_app. cbn [mbind Result_bind rbind].
  do 6 (rewrite assertString_app2; cbn [mbind Result_bind rbind];
        rewrite assertString_app; cbn [mbind Result_bind rbind]).
  rewrite assertString_app3. cbn [mbind Result_bind rbind].
  rewrite <- (app_empty_r (write_columns _)), check_columns_written.
  done.
Qed.

Lemma createTable_contents s :
  let zp := zookeeper_path s in
  is_Some (contents (zookeeper s) !! dirname zp) →
  contents (zookeeper s) !! zp = None →
  (∀ suffix, contents (zookeeper s) !! (zp +:+ String "/" suffix) = None) →
  ∃ zk', createTable s = (Ok (), set_zookeeper zk' s)
    ∧ contents zk'
      = <[zp +:+ "/temp" := ""]>
          (<[zp +:+ "/leader_election" := ""]>
             (<[zp +:+ "/block_numbers" := ""]>
                (<[zp +:+ "/blocks" := ""]>
                   (<[zp +:+ "/replicas" := ""]>
                      (<[zp +:+ "/metadata" := metadata_text (structure s)]>
                         (<[zp := ""]> (contents (zookeeper s)))))))).
Proof.
  cbv zeta. intros Hparent Hzp Hfree. unfold createTable. munfold.
  destruct (zk_create_contents (zookeeper_path s) "" zkutil.Persistent s eq_refl Hparent Hzp)
    as (zk1 & -> & Hc1).
  repeat
    match goal with
    | |- context [zk_create (zookeeper_path s +:+ String "/" ?child) ?data ?mode ?s0] =>
        let zk' := fresh "zk" in
        let Hc' := fresh "Hc" in
        destruct (zk_create_contents (zookeeper_path s +:+ String "/" child) data mode s0
                    eq_refl) as (zk' & -> & Hc');
          [ rewrite (dirname_child (zookeeper_path s) child eq_refl);
            cbn [zookeeper set_zookeeper];
            repeat match goal with H : contents _ = _ |- _ => rewrite H end;
            lookup_path; by eexists
          | cbn [zookeeper set_zookeeper];
            repeat match goal with H : contents _ = _ |- _ => rewrite H end;
            lookup_path; apply Hfree
          | cbn [zookeeper set_zookeeper structure] in Hc' |- * ]
    end.
  eexists. split; [reflexivity |].
  repeat match goal with H : contents _ = _ |- _ => rewrite H end. done.
Qed.

Lemma createReplica_contents s :
  let rp := replica_path s in
  is_Some (contents (zookeeper s) !! dirname rp) →
  contents (zookeeper s) !! rp = None →
  (∀ suffix, contents (zookeeper s) !! (rp +:+ String "/" suffix) = None) →
  ∃ zk', createReplica s = (Ok (), set_zookeeper zk' s)
    ∧ contents zk'
      = <[rp +:+ "/parts" := ""]>
          (<[rp +:+ "/queue" := ""]>
             (<[rp +:+ "/log_pointers" := ""]>
                (<[rp +:+ "/log" := ""]>
                   (<[rp +:+ "/host" := ""]>
                      (<[rp := ""]> (contents (zookeeper s))))))).
Proof.
  cbv zeta. intros Hparent Hrp Hfree. unfold createReplica. munfold.
  destruct (zk_create_contents (replica_path s) "" zkutil.Persistent s eq_refl Hparent Hrp)
    as (zk1 & -> & Hc1).
  repeat
    match goal with
    | |- context [zk_create (replica_path s +:+ String "/" ?child) ?data ?mode ?s0] =>
        let zk' := fresh "zk" in
        let Hc' := fresh "Hc" in
        destruct (zk_create_contents (replica_path s +:+ String "/" child) data mode s0
                    eq_refl) as (zk' & -> & Hc');
          [ rewrite (dirname_child (replica_path s) child eq_refl);
            cbn [zookeeper set_zookeeper];
            repeat match goal with H : contents _ = _ |- _ => rewrite H end;
            lookup_path; by eexists
          | cbn [zookeeper set_zookeeper];
            repeat match goal with H : contents _ = _ |- _ => rewrite H end;
            lookup_path; apply Hfree
          | cbn [zookeeper set_zookeeper replica_path] in Hc' |- * ]
    end.
  eexists. split; [reflexivity |].
  repeat match goal with H : contents _ = _ |- _ => rewrite H end. done.
Qed.

Lemma activateReplica_contents (host : string) (port : Z) s :
  let rp := replica_path s in
  is_Some (contents (zookeeper s) !! rp) →
  contents (zookeeper s) !! (rp +:+ "/is_active") = None →
  is_Some (contents (zookeeper s) !! (rp +:+ "/host")) →
  ∃ zk', activateReplica host port s = (Ok (), set_zookeeper zk' s)
    ∧ contents zk'
      = <[rp +:+ "/host" := host_text host port]>
          (<[rp +:+ "/is_active" := ""]> (contents (zookeeper s))).
Proof.
  cbv zeta. intros Hparent Hfree Hhost.
  unfold activateReplica, try_catch, zk_multi, zkutil.multi. munfold.
  cbn [zkutil.apply_ops zkutil.apply_op zkutil.is_sequential].
  rewrite (dirname_child (replica_path s) "is_active" eq_refl).
  rewrite contents_lookup, fmap_is_Some in Hparent. destruct Hparent as [parent Hparent].
  rewrite contents_lookup, fmap_None in Hfree.
  rewrite contents_lookup, fmap_is_Some in Hhost. destruct Hhost as [host_node Hhost].
  rewrite Hparent, Hfree. cbn [mbind Result_bind rbind].
  rewrite lookup_insert_ne by path_ne. rewrite lookup_insert_ne by path_ne.
  rewrite Hhost. cbn [mbind Result_bind rbind].
  eexists. split; [reflexivity |].
  unfold contents. cbn [zkutil.nodes]. rewrite !fmap_insert.
  cbn [zkutil.node_data zkutil.set_node_data]. do 2 f_equal.
  apply insert_id. by rewrite lookup_fmap, Hparent.
Qed.

(** X16.  Bringing up the first replica of a new table.  Let the quoting
    read back the names it writes, let the replica's name have no slash, and
    let the coordinator hold the parent of the table's path but no node at
    that path or below.  Then the constructor, called without [attach], goes
    through: it creates the table's nodes with the table's metadata, finds the
    table empty and its structure right, creates the replica's nodes, loads an
    empty queue and announces itself.  The coordinator gains exactly these
    fourteen nodes, and nothing else of the storage object changes. *)
Theorem first_replica_startup (zk : zkutil.ZooKeeper) (d : Data) (definition : Structure)
    (zookeeper_path_ replica_name_ host : string) (port : Z) :
  let s := init zk d definition zookeeper_path_ replica_name_ in
  let zp := zookeeper_path s in
  let rp := replica_path s in
  has_slash replica_name_ = false →
  is_Some (contents zk !! dirname zp) →
  contents zk !! zp = None →
  (∀ suffix, contents zk !! (zp +:+ String "/" suffix) = None) →
  ∃ zk', startup false host port s = (Ok (), set_zookeeper zk' s)
    ∧ contents zk'
      = <[rp +:+ "/host" := host_text host port]>
          (<[rp +:+ "/is_active" := ""]>
          (<[rp +:+ "/parts" := ""]>
          (<[rp +:+ "/queue" := ""]>
          (<[rp +:+ "/log_pointers" := ""]>
          (<[rp +:+ "/log" := ""]>
          (<[rp +:+ "/host" := ""]>
          (<[rp := ""]>
          (<[zp +:+ "/temp" := ""]>
          (<[zp +:+ "/leader_election" := ""]>
          (<[zp +:+ "/block_numbers" := ""]>
          (<[zp +:+ "/blocks" := ""]>
          (<[zp +:+ "/replicas" := ""]>
          (<[zp +:+ "/metadata" := metadata_text definition]>
          (<[zp := ""]> (contents zk))))))))))))))).
Proof.
  cbv zeta. set (s := init zk d definition zookeeper_path_ replica_name_).
  assert (Hrp : replica_path s = zookeeper_path s +:+ "/replicas/" +:+ replica_name_) by done.
  assert (Hzk : zookeeper s = zk) by done.
  assert (Hst : structure s = definition) by done.
  clearbody s. intros Hname Hparent Hzp Hfree. rewrite <- Hzk in Hparent, Hzp, Hfree |- *.
  assert (Hzp_ne : zookeeper_path s ≠ "").
  { intros Hempty. rewrite Hempty in Hparent, Hzp. cbn in Hparent.
    rewrite Hzp in Hparent. by destruct Hparent. }
  unfold startup. munfold. cbn [negb].
  rewrite exists_contents, bool_decide_eq_false_2 by (rewrite Hzp; by intros []).
  cbn [negb].
  destruct (createTable_contents s Hparent Hzp Hfree) as (zk1 & -> & Hc1).
  (* isTableEmpty *)
  unfold isTableEmpty, zk_getChildren. munfold. cbn [zookeeper_path zookeeper set_zookeeper].
  rewrite (getChildren_nil zk1 (zookeeper_path s +:+ "/replicas")).
  2:{ by apply app_nonempty. }
  2:{ rewrite Hc1. lookup_path. by eexists. }
  2:{ intros child. rewrite Hc1, app_assoc_s. lookup_path. apply Hfree. }
  cbn [isTableEmpty_loop]. munfold. cbn [negb].
  (* checkTableStructure *)
  unfold checkTableStructure, zk_get. munfold.
  cbn [zookeeper_path zookeeper set_zookeeper structure].
  rewrite (get_contents zk1 _ (metadata_text (structure s)))
    by (rewrite Hc1; by lookup_path).
  rewrite check_metadata_written.
  (* createReplica *)
  destruct (createReplica_contents (set_zookeeper zk1 s)) as (zk2 & Hcreate & Hc2).
  { cbn [replica_path zookeeper set_zookeeper]. rewrite Hrp, (dirname_replica _ _ Hname), Hc1.
    lookup_path. by eexists. }
  { cbn [replica_path zookeeper set_zookeeper]. rewrite Hrp, Hc1. lookup_path. apply Hfree. }
  { intros suffix. cbn [replica_path zookeeper set_zookeeper].
    rewrite Hrp, Hc1, !app_assoc_s. lookup_path. apply Hfree. }
  rewrite Hcreate. cbn [replica_path zookeeper set_zookeeper] in Hc2 |- *.
  (* loadQueue *)
  unfold loadQueue, zk_getChildren. munfold. cbn [replica_path zookeeper set_zookeeper].
  rewrite (getChildren_nil zk2 (replica_path s +:+ "/queue")).
  2:{ by apply app_nonempty. }
  2:{ rewrite Hc2. lookup_path. by eexists. }
  2:{ intros child. rewrite Hc2, Hc1, Hrp, !app_assoc_s. lookup_path. apply Hfree. }
  change (merge_sort String.le []) with (@nil string). cbn [for_each]. munfold.
  (* activateReplica *)
  destruct (activateReplica_contents host port (set_zookeeper zk2 (set_zookeeper zk1 s)))
    as (zk3 & Hact & Hc3).
  { cbn [replica_path zookeeper set_zookeeper]. rewrite Hc2. lookup_path. by eexists. }
  { cbn [replica_path zookeeper set_zookeeper].
    rewrite Hc2, Hc1, Hrp, !app_assoc_s. lookup_path. apply Hfree. }
  { cbn [replica_path zookeeper set_zookeeper]. rewrite Hc2. lookup_path. by eexists. }
  rewrite Hact. cbn [replica_path zookeeper set_zookeeper] in Hc3 |- *.
  exists zk3. split; [done |]. by rewrite Hc3, Hc2, Hc1, Hst.
Qed.

End first_replica.

(** X16 on the example table, created at [/t] on a coordinator that holds
    the root only. *)
Lemma first_replica_startup_witness :
  let s := init zkutil.empty (Example.Build_Store [] []) Example.structure0 "/t/" "r1" in
  (startup false "example01" 9009 s).1 = Ok ()
  ∧ zookeeper_path s = "/t" ∧ replica_path s = "/t/replicas/r1".
Proof.
  cbv zeta. split; [| split; reflexivity].
  assert (Hquoting : ∀ name rest,
            readBackQuotedString (writeBackQuotedString name +:+ rest) = Ok (name, rest)).
  { intros name rest. cbn. rewrite ?app_assoc_s. apply read_quoted_body_escape. }
  destruct (first_replica_startup Hquoting zkutil.empty (Example.Build_Store [] [])
              Example.structure0 "/t/" "r1" "example01" 9009)
    as (zk' & -> & _); [reflexivity | by exists "" | reflexivity | | reflexivity].
  intros suffix. unfold contents, zkutil.empty. cbn [zkutil.nodes].
  rewrite lookup_fmap, lookup_singleton_ne; [done | discriminate].
Defined.

(** ** Between the leader's log and the queue *)

Section log_and_queue.

Import IO MergeTreeData.
Context {Data : Type}.
Context `{!AbandonableLockInZooKeeper.Check}.
Implicit Types (s : Storage Data) (zk : zkutil.ZooKeeper).

Lemma dirname_pointer (replica_path replica : string) :
  has_slash replica = false →
  dirname (replica_path +:+ "/log_pointers/" +:+ replica) = replica_path +:+ "/log_pointers".
Proof.
  intros Hn.
  change (replica_path +:+ "/log_pointers/" +:+ replica)
    with (replica_path +:+ ("/log_pointers" +:+ String "/" replica)).
  rewrite <- app_assoc_s. by apply dirname_child.
Qed.

(** X17.  Where a replica starts in the log of a peer it has no pointer for.
    If the pointer of [replica] does not exist (its parent [/log_pointers]
    does), the first loop of [pullLogsToQueue] creates it: with "0" when the
    peer's log has no entries, and otherwise with the index [n] that the least
    name among the log's nodes, [log-] followed by [n] padded to ten digits,
    stands for; and the iterator of the peer starts at that index. *)
Theorem pull_init_iterator_first (replica : string) s (entries : list string) (n : Z) :
  let pointer := replica_path s +:+ "/log_pointers/" +:+ replica in
  has_slash replica = false →
  is_Some (contents (zookeeper s) !! (replica_path s +:+ "/log_pointers")) →
  contents (zookeeper s) !! pointer = None →
  zkutil.getChildren (zookeeper s) (zookeeper_path s +:+ "/replicas/" +:+ replica +:+ "/log")
    = Ok entries →
  (merge_sort String.le entries = [] ∧ n = 0
   ∨ 0 ≤ n < 2 ^ 64
     ∧ head (merge_sort String.le entries) = Some ("log-" +:+ pad10 (toString n))) →
  ∃ zk', pull_init_iterator replica s
         = (Ok {| replica := replica; index := n; timestamp := 0; entry_str := "" |},
            set_zookeeper zk' s)
       ∧ contents zk' = <[pointer := toString n]> (contents (zookeeper s)).
Proof.
  cbv zeta. intros Hname Hparent Hfree Hlist Hfirst.
  unfold pull_init_iterator, zk_tryGet, zkutil.tryGet, zk_getChildren. munfold.
  pose proof Hfree as Hnode. rewrite contents_lookup, fmap_None in Hnode. rewrite Hnode, Hlist.
  assert (Hindex : match merge_sort String.le entries with
                   | [] => Ok 0
                   | entry :: _ => parse_UInt64 (substr_from 4 entry)
                   end = Ok n).
  { destruct Hfirst as [[-> ->] | [Hn Hhead]]; [done |].
    destruct (merge_sort String.le entries) as [|entry rest]; [done |].
    injection Hhead as ->.
    change (substr_from 4 ("log-" +:+ pad10 (toString n))) with (pad10 (toString n)).
    by apply parse_UInt64_pad10. }
  rewrite Hindex.
  destruct (zk_create_contents (replica_path s +:+ "/log_pointers/" +:+ replica) (toString n)
              zkutil.Persistent s eq_refl) as (zk' & -> & Hc); [| done |].
  { by rewrite dirname_pointer. }
  by exists zk'.
Qed.

(** *** A queued merge keeps its parts from being selected again *)

Lemma pull_entry_tags (iterator : LogIterator) s s' (entry : LogEntry.t) :
  pull_entry iterator s = (Ok (), s') →
  LogEntry.parse (entry_str iterator) = Ok entry →
  LogEntry.type entry = LogEntry.MERGE_PARTS →
  currently_merging s' = currently_merging s ∪ list_to_set (LogEntry.parts_to_merge entry).
Proof.
  unfold pull_entry. munfold. intros Hpull Hparse Htype. rewrite Hparse in Hpull.
  revert Hpull. unfold zk_multi. destruct (zkutil.multi _ _) as [[rs| |] zk']; [| done | done].
  unfold tagPartsAsCurrentlyMerging. cbn [LogEntry.type LogEntry.parts_to_merge].
  rewrite Htype. munfold. by intros [= <-].
Qed.

(** X18.  Once [pullLogsToQueue] has put a MERGE_PARTS entry in the queue,
    [canMergeParts] refuses every pair of parts of which one is a source part
    of that merge, whatever lies between them, and without asking the
    coordinator. *)
Theorem queued_merge_blocks_selection (iterator : LogIterator) s s' (entry : LogEntry.t)
    (fuel : nat) (left right : DataPart) :
  pull_entry iterator s = (Ok (), s') →
  LogEntry.parse (entry_str iterator) = Ok entry →
  LogEntry.type entry = LogEntry.MERGE_PARTS →
  name left ∈ LogEntry.parts_to_merge entry ∨ name right ∈ LogEntry.parts_to_merge entry →
  canMergeParts fuel left right s' = (Ok false, s').
Proof.
  intros Hpull Hparse Htype Hin. unfold canMergeParts. munfold.
  rewrite (pull_entry_tags _ _ _ _ Hpull Hparse Htype).
  destruct Hin as [Hin | Hin].
  - rewrite bool_decide_eq_true_2; [done |].
    apply elem_of_union_r. by apply elem_of_list_to_set.
  - rewrite (bool_decide_eq_true_2 (name right ∈ _)), orb_true_r; [done |].
    apply elem_of_union_r. by apply elem_of_list_to_set.
Qed.

(** *** What the leader logs is what is pulled *)

Lemma parse_merge_text (source new_part : string) (sources : list string) :
  plain source = true → plain new_part = true →
  Forall (λ p, plain p = true) sources → "into" ∉ sources →
  LogEntry.parse
    (LogEntry.toString (LogEntry.mk "" LogEntry.MERGE_PARTS source new_part sources))
  = Ok (LogEntry.mk "" LogEntry.MERGE_PARTS source new_part sources).
Proof.
  intros Hsource Hnew Hplain Hinto. unfold LogEntry.parse, LogEntry.toString.
  rewrite (writeText_merge (LogEntry.mk "" LogEntry.MERGE_PARTS source new_part sources)
             eq_refl).
  cbn [LogEntry.source_replica LogEntry.parts_to_merge LogEntry.new_part_name].
  rewrite (readText_merge_prefix LogEntry.fresh _ _ _ Hsource Hplain Hinto).
  rewrite (readString_plain_end _ Hnew), assertString_self.
  done.
Qed.

(** X19.  The merge the leader writes to its log is the merge the replicas
    pull.  Let the names of the replica, of the merged part and of the parts
    chosen be plain, none of the parts being named "into", and let the
    replica's path be [/replicas/<name>] under the table's.  When
    [mergeSelectingThread] creates the log node, the node is the one
    [LogIterator::readEntry] looks up for this replica at the index the
    coordinator gave it (the counter of [/log]), its timestamp is the id of
    the creating transaction, and [LogEntry::parse] makes of its text the
    MERGE_PARTS entry of this replica with the parts' names in their order. *)
Theorem log_merge_entry_read_back (parts : list DataPart) (merged_name : string) s
    (parent : zkutil.Node) :
  let log_index := zkutil.node_cversion parent in
  let entry := LogEntry.mk "" LogEntry.MERGE_PARTS (replica_name s) merged_name
                 (name <$> parts) in
  replica_path s = zookeeper_path s +:+ "/replicas/" +:+ replica_name s →
  plain (replica_name s) = true → plain merged_name = true →
  Forall (λ part, plain (name part) = true) parts → "into" ∉ name <$> parts →
  zkutil.nodes (zookeeper s) !! (replica_path s +:+ "/log") = Some parent →
  zkutil.nodes (zookeeper s)
    !! ((replica_path s +:+ "/log/log-") +:+ pad10 (toString log_index)) = None →
  ∃ s', log_merge_entry parts merged_name s = (Ok (), s')
    ∧ readEntry {| replica := replica_name s; index := log_index;
                   timestamp := 0; entry_str := "" |}
        (zookeeper s') (zookeeper_path s)
      = (true, {| replica := replica_name s; index := log_index;
                  timestamp := zkutil.zxid (zookeeper s) + 1;
                  entry_str := LogEntry.toString entry |})
    ∧ LogEntry.parse (LogEntry.toString entry) = Ok entry.
Proof.
  cbv zeta. intros Hrp Hreplica Hmerged Hparts Hinto Hparent Hfree.
  unfold log_merge_entry, zk_create, zkutil.create, zkutil.multi. munfold.
  cbn [zkutil.apply_ops zkutil.apply_op zkutil.is_sequential].
  assert (Hdir : dirname (replica_path s +:+ "/log/log-") = replica_path s +:+ "/log").
  { change (replica_path s +:+ "/log/log-")
      with (replica_path s +:+ ("/log" +:+ String "/" "log-")).
    rewrite <- app_assoc_s. by apply dirname_child. }
  rewrite Hdir, Hparent, Hfree. cbn [mbind Result_bind rbind].
  eexists. split; [reflexivity |]. split.
  - unfold readEntry, zkutil.tryGet.
    cbn [replica index timestamp entry_str zookeeper set_zookeeper zkutil.nodes].
    replace (zookeeper_path s +:+ "/replicas/" +:+ replica_name s +:+ "/log/log-" +:+
             pad10 (toString (zkutil.node_cversion parent)))
      with ((replica_path s +:+ "/log/log-") +:+ pad10 (toString (zkutil.node_cversion parent)))
      by (by rewrite Hrp, !app_assoc_s).
    by rewrite lookup_insert_eq.
  - apply parse_merge_text; [done | done | | done].
    by apply Forall_fmap.
Qed.

End log_and_queue.

(** X17 on replica [r1], which has no pointer into the log of [r2], whose
    first entry is at index 3. *)
Lemma pull_init_iterator_first_witness :
  let zk := Example.zk_with [("/t", ""); ("/t/replicas", ""); ("/t/replicas/r1", "");
                             ("/t/replicas/r1/log_pointers", "");
                             ("/t/replicas/r2", ""); ("/t/replicas/r2/log", "");
                             ("/t/replicas/r2/log/log-0000000004", "");
                             ("/t/replicas/r2/log/log-0000000003", "")] in
  let s := Example.storage zk (Example.Build_Store [] []) [] in
  (pull_init_iterator "r2" s).1
  = Ok {| replica := "r2"; index := 3; timestamp := 0; entry_str := "" |}
  ∧ zkutil.get (zookeeper (pull_init_iterator "r2" s).2) "/t/replicas/r1/log_pointers/r2"
    = Ok "3".
Proof.
  cbv zeta.
  assert (Hlist :
    zkutil.getChildren
      (zookeeper
         (Example.storage
            (Example.zk_with [("/t", ""); ("/t/replicas", ""); ("/t/replicas/r1", "");
                              ("/t/replicas/r1/log_pointers", "");
                              ("/t/replicas/r2", ""); ("/t/replicas/r2/log", "");
                              ("/t/replicas/r2/log/log-0000000004", "");
                              ("/t/replicas/r2/log/log-0000000003", "")])
            (Example.Build_Store [] []) []))
      ("/t" +:+ "/replicas/" +:+ "r2" +:+ "/log")
    = Ok ["log-0000000003"; "log-0000000004"]).
  { vm_compute. reflexivity. }
  assert (Hhead : head (merge_sort String.le ["log-0000000003"; "log-0000000004"])
                  = Some ("log-" +:+ IO.pad10 (IO.toString 3))).
  { vm_compute. reflexivity. }
  destruct (pull_init_iterator_first "r2"
              (Example.storage
                 (Example.zk_with [("/t", ""); ("/t/replicas", ""); ("/t/replicas/r1", "");
                                   ("/t/replicas/r1/log_pointers", "");
                                   ("/t/replicas/r2", ""); ("/t/replicas/r2/log", "");
                                   ("/t/replicas/r2/log/log-0000000004", "");
                                   ("/t/replicas/r2/log/log-0000000003", "")])
                 (Example.Build_Store [] []) [])
              ["log-0000000003"; "log-0000000004"] 3 eq_refl)
    as (zk' & Hinit & Hc);
    [ exists ""; vm_compute; reflexivity | vm_compute; reflexivity | exact Hlist
    | right; split; [lia | exact Hhead] |].
  rewrite Hinit.
  split; [reflexivity |]. apply get_contents. cbn [snd zookeeper set_zookeeper].
  rewrite Hc. apply lookup_insert_eq.
Defined.

(** X18 on a merge of two parts pulled from the log of [r2]. *)
Lemma queued_merge_blocks_selection_witness :
  let zk := Example.zk_with [("/t", ""); ("/t/replicas", ""); ("/t/replicas/r1", "");
                             ("/t/replicas/r1/queue", "");
                             ("/t/replicas/r1/log_pointers", "");
                             ("/t/replicas/r1/log_pointers/r2", "0")] in
  let s := Example.storage zk (Example.Build_Store [] []) [] in
  let entry :=
    Example.merge_entry "r2" ["20140401_0_0_0"; "20140401_1_1_0"] "20140401_0_1_1" in
  let iterator := {| replica := "r2"; index := 0; timestamp := 7;
                     entry_str := LogEntry.toString entry |} in
  let s' := (pull_entry iterator s).2 in
  canMergeParts 0 (Example.part "20140401_1_1_0" 1 1) (Example.part "20140401_2_2_0" 2 2) s'
  = (Ok false, s').
Proof.
  cbv zeta.
  assert (Hpull :
    pull_entry
      {| replica := "r2"; index := 0; timestamp := 7;
         entry_str :=
           LogEntry.toString
             (Example.merge_entry "r2" ["20140401_0_0_0"; "20140401_1_1_0"]
                "20140401_0_1_1") |}
      (Example.storage
         (Example.zk_with [("/t", ""); ("/t/replicas", ""); ("/t/replicas/r1", "");
                           ("/t/replicas/r1/queue", "");
                           ("/t/replicas/r1/log_pointers", "");
                           ("/t/replicas/r1/log_pointers/r2", "0")])
         (Example.Build_Store [] []) [])
    = (Ok (),
       (pull_entry
          {| replica := "r2"; index := 0; timestamp := 7;
             entry_str :=
               LogEntry.toString
                 (Example.merge_entry "r2" ["20140401_0_0_0"; "20140401_1_1_0"]
                    "20140401_0_1_1") |}
          (Example.storage
             (Example.zk_with [("/t", ""); ("/t/replicas", ""); ("/t/replicas/r1", "");
                               ("/t/replicas/r1/queue", "");
                               ("/t/replicas/r1/log_pointers", "");
                               ("/t/replicas/r1/log_pointers/r2", "0")])
             (Example.Build_Store [] []) [])).2)).
  { vm_compute. reflexivity. }
  refine (queued_merge_blocks_selection _ _ _
            (Example.merge_entry "r2" ["20140401_0_0_0"; "20140401_1_1_0"] "20140401_0_1_1")
            0 (Example.part "20140401_1_1_0" 1 1) (Example.part "20140401_2_2_0" 2 2)
            Hpull _ _ _).
  - vm_compute. reflexivity.
  - reflexivity.
  - left. apply list_elem_of_further, list_elem_of_here.
Defined.

(** X19 on the merge of two parts that replica [r1] logs as its first
    entry. *)
Lemma log_merge_entry_read_back_witness :
  let zk := Example.zk_with [("/t", ""); ("/t/replicas", ""); ("/t/replicas/r1", "");
                             ("/t/replicas/r1/log", "")] in
  let s := Example.storage zk (Example.Build_Store [] []) [] in
  let parts := [Example.part "20140401_0_0_0" 0 0; Example.part "20140401_1_1_0" 1 1] in
  (log_merge_entry parts "20140401_0_1_1" s).1 = Ok ()
  ∧ (readEntry {| replica := "r1"; index := 0; timestamp := 0; entry_str := "" |}
       (zookeeper (log_merge_entry parts "20140401_0_1_1" s).2) "/t").1 = true.
Proof.
  cbv zeta.
  destruct (log_merge_entry_read_back
              [Example.part "20140401_0_0_0" 0 0; Example.part "20140401_1_1_0" 1 1]
              "20140401_0_1_1"
              (Example.storage
                 (Example.zk_with [("/t", ""); ("/t/replicas", ""); ("/t/replicas/r1", "");
                                   ("/t/replicas/r1/log", "")])
                 (Example.Build_Store [] []) [])
              {| zkutil.node_data := ""; zkutil.node_stat := {| zkutil.czxid := 4 |};
                 zkutil.node_ephemeral := false; zkutil.node_cversion := 0 |})
    as (s' & Hlog & Hread & _).
  - reflexivity.
  - reflexivity.
  - reflexivity.
  - repeat constructor.
  - intros Hin. repeat (apply elem_of_cons in Hin as [Hin | Hin]; [discriminate Hin |]).
    by apply elem_of_nil in Hin.
  - vm_compute. reflexivity.
  - vm_compute. reflexivity.
  - rewrite Hlog. split; [reflexivity |]. exact (f_equal fst Hread).
Defined.

(** ** The queue across a restart *)

Section restart.

Import IO MergeTreeData.
Context {Data : Type}.
Context `{!AbandonableLockInZooKeeper.Check}.
Implicit Types (s : Storage Data) (zk : zkutil.ZooKeeper).

Lemma has_slash_pretty_N_go (x : N) (s : string) :
  has_slash (pretty_N_go x s) = has_slash s.
Proof.
  revert s. induction (N.lt_wf_0 x) as [x _ IH]; intros s.
  destruct (decide (x = 0)%N) as [-> | Hx]; [by rewrite pretty_N_go_0 |].
  rewrite pretty_N_go_step by lia.
  rewrite IH by (apply N.div_lt; lia).
  cbn [has_slash]. unfold pretty_N_char. by repeat case_match.
Qed.

(** A decimal text has no slash, padded or not. *)
Lemma has_slash_toString (x : Z) : has_slash (toString x) = false.
Proof.
  assert (Hpos : ∀ p, has_slash (pretty (N.pos p)) = false).
  { intros p. unfold pretty, pretty_N. rewrite decide_False by done.
    by rewrite has_slash_pretty_N_go. }
  destruct x as [|p|p]; [done | apply Hpos |].
  change (has_slash ("-" +:+ pretty (N.pos p)) = false). by rewrite has_slash_app, Hpos.
Qed.

Lemma has_slash_zero_pad (fuel : nat) (s : string) :
  has_slash (zero_pad fuel s) = has_slash s.
Proof.
  revert s. induction fuel as [|fuel IH]; intros s; cbn [zero_pad]; [done |].
  case_decide; [| done]. by rewrite IH.
Qed.

(** The name of [p/name]. *)
Lemma basename_child (p name : string) :
  has_slash name = false → basename (p +:+ String "/" name) = name.
Proof.
  intros Hn. induction p as [|c p IH].
  - change (basename (String "/" name) = name). cbn [basename]. by rewrite Hn.
  - change (basename (String c (p +:+ String "/" name)) = name). cbn [basename].
    rewrite has_slash_app. cbn [has_slash]. rewrite bool_decide_eq_true_2 by done.
    rewrite orb_true_r. exact IH.
Qed.

(** A node is listed among the children of its parent. *)
Lemma elem_of_children (ns : gmap string zkutil.Node) (p : string) (node : zkutil.Node) :
  ns !! p = Some node → p ≠ "" → basename p ∈ zkutil.children ns (dirname p).
Proof.
  intros Hp Hne. unfold zkutil.children. apply list_elem_of_omap.
  exists (p, node). split; [by apply elem_of_map_to_list |].
  cbn [fst]. by rewrite decide_True.
Qed.

(** What a turn of the loop of [pullLogsToQueue] that returns leaves: a node
    under [/queue], named [queue-] and a decimal suffix, with the text of the
    entry, and the entry named after it at the end of the queue. *)
Lemma pull_entry_node (iterator : LogIterator) s s' :
  pull_entry iterator s = (Ok (), s') →
  ∃ (entry : LogEntry.t) (suffix : string) (node : zkutil.Node),
    has_slash suffix = false
    ∧ LogEntry.parse (entry_str iterator) = Ok entry
    ∧ zkutil.nodes (zookeeper s') !! ((replica_path s +:+ "/queue/queue-") +:+ suffix)
      = Some node
    ∧ zkutil.node_data node = entry_str iterator
    ∧ replica_path s' = replica_path s
    ∧ queue s' = (queue s ++
        [LogEntry.mk ("queue-" +:+ suffix) (LogEntry.type entry)
           (LogEntry.source_replica entry) (LogEntry.new_part_name entry)
           (LogEntry.parts_to_merge entry)])%list.
Proof.
  unfold pull_entry. munfold.
  destruct (LogEntry.parse (entry_str iterator)) as [entry| |]; [| done | done].
  unfold zk_multi, zkutil.multi.
  cbn [zkutil.apply_ops zkutil.apply_op zkutil.is_sequential].
  destruct (zkutil.nodes (zookeeper s) !! dirname (replica_path s +:+ "/queue/queue-"))
    as [parent|]; [| done].
  set (suffix := pad10 (toString (zkutil.node_cversion parent))).
  assert (Hsuffix : has_slash suffix = false).
  { unfold suffix, pad10. by rewrite has_slash_zero_pad, has_slash_toString. }
  assert (Hname : basename ((replica_path s +:+ "/queue/queue-") +:+ suffix)
                  = "queue-" +:+ suffix).
  { rewrite app_assoc_s.
    change ("/queue/queue-" +:+ suffix) with ("/queue" +:+ String "/" ("queue-" +:+ suffix)).
    rewrite <- app_assoc_s. apply basename_child. by rewrite has_slash_app, Hsuffix. }
  destruct (zkutil.nodes (zookeeper s) !! _) as [old|]; [done |].
  cbn [mbind Result_bind rbind].
  destruct (_ !! (replica_path s +:+ "/log_pointers/" +:+ replica iterator))
    as [ptr|]; [| done].
  cbn [mbind Result_bind rbind].
  unfold tagPartsAsCurrentlyMerging. cbn [LogEntry.type LogEntry.parts_to_merge].
  cbn [head default id zkutil.getPathCreated]. rewrite Hname.
  destruct (LogEntry.type entry) eqn:Htype; munfold; intros [= <-];
    cbn [replica_path log queue zookeeper set_zookeeper set_queue set_currently_merging
         zkutil.nodes];
    eexists entry, suffix, _; rewrite Htype;
    (split; [done |]); (split; [done |]);
    (split; [rewrite lookup_insert_ne by (apply not_eq_sym, queue_path_ne_pointer);
             apply lookup_insert_eq |]);
    done.
Qed.

(** X20.  The queue survives a restart.  After a turn of the loop of
    [pullLogsToQueue] that returned, a storage object that is brought up on
    the same coordinator with the same replica path, and whose [loadQueue]
    returns, has the entry just queued among the entries it loads: under the
    same node name and with the same type, source replica, new part name and
    source parts. *)
Theorem pulled_entry_reloaded (iterator : LogIterator) s s' s0 s1 :
  pull_entry iterator s = (Ok (), s') →
  zookeeper s0 = zookeeper s' → replica_path s0 = replica_path s' →
  loadQueue s0 = (Ok (), s1) →
  ∃ entry new,
    last (queue s') = Some entry ∧ queue s1 = (queue s0 ++ new)%list ∧ entry ∈ new.
Proof.
  intros Hpull Hzk Hrp.
  apply pull_entry_node in Hpull
    as (parsed & suffix & node & Hsuffix & Hparse & Hnode & Hdata & Hrp' & Hq).
  assert (Hpath : (replica_path s +:+ "/queue/queue-") +:+ suffix
                  = (replica_path s +:+ "/queue") +:+ String "/" ("queue-" +:+ suffix)).
  { by rewrite !app_assoc_s. }
  assert (Hno : has_slash ("queue-" +:+ suffix) = false) by by rewrite has_slash_app, Hsuffix.
  rewrite Hpath in Hnode. rewrite Hrp' in Hrp.
  unfold loadQueue, zk_getChildren. munfold. rewrite Hrp, Hzk.
  unfold zkutil.getChildren.
  destruct (zkutil.nodes (zookeeper s') !! (replica_path s +:+ "/queue")) as [dir|];
    [| done].
  intros Hload. apply for_each_load_entry in Hload
    as (_ & _ & _ & new & done_ & rest & Hsplit & Hnew & Hl & Hr & _).
  rewrite (Hr eq_refl), app_nil_r in Hsplit. subst done_.
  eexists _, new. split; [by rewrite Hq, last_snoc |]. split; [done |].
  assert (Hin : "queue-" +:+ suffix
                ∈ merge_sort String.le
                    (zkutil.children (zkutil.nodes (zookeeper s')) (replica_path s +:+ "/queue"))).
  { rewrite merge_sort_Permutation.
    rewrite <- (basename_child (replica_path s +:+ "/queue") _ Hno) at 1.
    rewrite <- (dirname_child (replica_path s +:+ "/queue") _ Hno) at 2.
    apply (elem_of_children _ _ node Hnode). by apply app_nonempty. }
  apply list_elem_of_lookup in Hin as [i Hi].
  destruct (Forall2_lookup_l _ _ _ _ _ Hl Hi)
    as (e & He & Hname & text & parsed' & Hget & Hparse' & Hsame).
  rewrite Hzk, Hrp in Hget.
  assert (Htext : text = entry_str iterator).
  { unfold zkutil.get, zkutil.tryGet in Hget.
    replace (replica_path s +:+ "/queue/" +:+ "queue-" +:+ suffix)
      with ((replica_path s +:+ "/queue") +:+ String "/" ("queue-" +:+ suffix)) in Hget
      by by rewrite !app_assoc_s.
    rewrite Hnode in Hget. congruence. }
  subst text. rewrite Hparse in Hparse'. injection Hparse' as <-.
  apply list_elem_of_lookup. exists i. rewrite He. f_equal.
  destruct e as [zn ty src np ps]. destruct Hsame as (Hty & Hsrc & Hnp & Hps).
  cbn [LogEntry.znode_name LogEntry.type LogEntry.source_replica LogEntry.new_part_name
       LogEntry.parts_to_merge] in *.
  by subst.
Qed.

End restart.

(** X20 on the entry of replica [r2] at index 0, pulled by replica [r1],
    which is then brought up again with an empty queue. *)
Lemma pulled_entry_reloaded_witness :
  let zk := Example.zk_with [("/t", ""); ("/t/replicas", ""); ("/t/replicas/r1", "");
                             ("/t/replicas/r1/queue", "");
                             ("/t/replicas/r1/log_pointers", "");
                             ("/t/replicas/r1/log_pointers/r2", "0")] in
  let s := Example.storage zk (Example.Build_Store [] []) [] in
  let text := LogEntry.toString (Example.get_entry "r2" "20140401_1_1_0") in
  let iterator := {| replica := "r2"; index := 0; timestamp := 7; entry_str := text |} in
  let s' := (pull_entry iterator s).2 in
  let s0 := Example.storage (zookeeper s') (Example.Build_Store [] []) [] in
  ∃ entry new,
    last (queue s') = Some entry
    ∧ queue (loadQueue s0).2 = (queue s0 ++ new)%list ∧ entry ∈ new.
Proof.
  cbv zeta.
  assert (Hpull :
    pull_entry
      {| replica := "r2"; index := 0; timestamp := 7;
         entry_str := LogEntry.toString (Example.get_entry "r2" "20140401_1_1_0") |}
      (Example.storage
         (Example.zk_with [("/t", ""); ("/t/replicas", ""); ("/t/replicas/r1", "");
                           ("/t/replicas/r1/queue", "");
                           ("/t/replicas/r1/log_pointers", "");
                           ("/t/replicas/r1/log_pointers/r2", "0")])
         (Example.Build_Store [] []) [])
    = (Ok (),
       (pull_entry
          {| replica := "r2"; index := 0; timestamp := 7;
             entry_str := LogEntry.toString (Example.get_entry "r2" "20140401_1_1_0") |}
          (Example.storage
             (Example.zk_with [("/t", ""); ("/t/replicas", ""); ("/t/replicas/r1", "");
                               ("/t/replicas/r1/queue", "");
                               ("/t/replicas/r1/log_pointers", "");
                               ("/t/replicas/r1/log_pointers/r2", "0")])
             (Example.Build_Store [] []) [])).2)).
  { vm_compute. reflexivity. }
  match type of Hpull with
  | _ = (_, ?s') =>
      assert (Hrp : replica_path
                      (Example.storage (zookeeper s') (Example.Build_Store [] []) [])
                    = replica_path s') by (vm_compute; reflexivity);
      assert (Hload :
        loadQueue (Example.storage (zookeeper s') (Example.Build_Store [] []) [])
        = (Ok (),
           (loadQueue (Example.storage (zookeeper s') (Example.Build_Store [] []) [])).2))
        by (vm_compute; reflexivity)
  end.
  match type of Hload with
  | loadQueue ?s0 = (_, ?s1) =>
      exact (pulled_entry_reloaded _ _ _ s0 s1 Hpull eq_refl Hrp Hload)
  end.
Defined.

(** ** What a fetch and a merge register in the coordinator *)

Section register.

Import IO MergeTreeData.
Context {Data : Type}.
Context `{!PartStore Data, !PartFetcher, !Shuffle}.
Implicit Types (s : Storage Data) (zk : zkutil.ZooKeeper).

Lemma apply_op_create_contents (z : Z) (path data : string) (ns ns' : gmap string zkutil.Node)
    (r : zkutil.OpResult) :
  zkutil.apply_op z (zkutil.Create path data zkutil.Persistent) ns = Ok (r, ns') →
  zkutil.node_data <$> ns' = <[path := data]> (zkutil.node_data <$> ns).
Proof.
  cbn [zkutil.apply_op zkutil.is_sequential].
  destruct (ns !! dirname path) as [parent|] eqn:Hparent; [| done].
  destruct (ns !! path); [done |]. intros [= _ <-].
  rewrite !fmap_insert. cbn [zkutil.node_data]. f_equal.
  apply insert_id. by rewrite lookup_fmap, Hparent.
Qed.

Lemma apply_op_remove_contents (z : Z) (path : string) (version : Z)
    (ns ns' : gmap string zkutil.Node) (r : zkutil.OpResult) :
  zkutil.apply_op z (zkutil.Remove path version) ns = Ok (r, ns') →
  zkutil.node_data <$> ns' = delete path (zkutil.node_data <$> ns).
Proof.
  cbn [zkutil.apply_op]. destruct (ns !! path); [| done].
  destruct (zkutil.children ns path); [| done]. intros [= _ <-].
  rewrite <- fmap_delete. apply map_eq. intros k. rewrite !lookup_fmap.
  destruct (decide (k = dirname path)) as [-> | Hk].
  - rewrite lookup_alter_eq. by destruct (delete path ns !! dirname path).
  - by rewrite lookup_alter_ne.
Qed.

Lemma foldr_delete_delete (k : string) (m : gmap string string) (l : list string) :
  foldr delete (delete k m) l = delete k (foldr delete m l).
Proof.
  induction l as [|k' l IH]; [done |]. cbn [foldr]. by rewrite IH, delete_delete.
Qed.

(** The removals at the end of the [multi] take the nodes of the parts out. *)
Lemma remove_part_ops_contents (z : Z) (replica_path : string) (removed : list DataPart)
    (ns ns' : gmap string zkutil.Node) (rs : list zkutil.OpResult) :
  zkutil.apply_ops z (remove_part_ops replica_path removed) ns = Ok (rs, ns') →
  zkutil.node_data <$> ns'
  = foldr delete (zkutil.node_data <$> ns) (flat_map (part_paths replica_path) removed).
Proof.
  revert ns ns' rs. induction removed as [|part removed IH]; intros ns ns' rs.
  { by intros [= _ <-]. }
  unfold remove_part_ops. cbn [flat_map app zkutil.apply_ops].
  destruct (zkutil.apply_op z _ ns) as [[r1 ns1]| |] eqn:H1; [| done | done].
  apply apply_op_remove_contents in H1.
  cbn [mbind Result_bind rbind].
  destruct (zkutil.apply_op z _ ns1) as [[r2 ns2]| |] eqn:H2; [| done | done].
  apply apply_op_remove_contents in H2.
  cbn [mbind Result_bind rbind].
  destruct (zkutil.apply_ops z _ ns2) as [[rs' ns3]| |] eqn:H3; [| done | done].
  apply IH in H3. cbn [mbind Result_bind rbind]. intros [= _ <-].
  rewrite H3, H2, H1. unfold part_paths at 2. cbn [app foldr].
  by rewrite !foldr_delete_delete.
Qed.

(** The [multi] that [fetchPart] and the merge branch end with. *)
Lemma register_multi (replica_path : string) (part : DataPart) (removed : list DataPart)
    zk zk' (rs : list zkutil.OpResult) :
  zkutil.multi (create_part_ops replica_path part ++ remove_part_ops replica_path removed)%list
    zk = (Ok rs, zk') →
  registered replica_path part removed (contents zk) (contents zk').
Proof.
  unfold zkutil.multi, create_part_ops. cbn [app zkutil.apply_ops].
  destruct (zkutil.apply_op _ _ (zkutil.nodes zk)) as [[r1 ns1]| |] eqn:H1; [| done | done].
  apply apply_op_create_contents in H1.
  cbn [mbind Result_bind rbind].
  destruct (zkutil.apply_op _ _ ns1) as [[r2 ns2]| |] eqn:H2; [| done | done].
  apply apply_op_create_contents in H2.
  cbn [mbind Result_bind rbind].
  destruct (zkutil.apply_ops _ _ ns2) as [[rs' ns3]| |] eqn:H3; [| done | done].
  apply remove_part_ops_contents in H3.
  cbn [mbind Result_bind rbind]. intros [= _ <-].
  unfold registered, contents. cbn [zkutil.nodes]. by rewrite H3, H2, H1.
Qed.



(** The loop over the source parts, when it finds them all, has changed
    nothing and collected them in the order of their names. *)
Lemma collect_parts_found entry (names : list string) (parts found : list DataPart) s s' :
  collect_parts entry names parts s = (Ok (true, found), s') →
  s' = s
  ∧ ∃ new, found = (parts ++ new)%list
      ∧ Forall2 (λ n part, getContainingPart (data s) n = Some part ∧ name part = n)
          names new.
Proof.
  revert parts. induction names as [|n names IH]; intros parts; cbn [collect_parts].
  { intros [= <- <-]. split; [done |]. exists []. by rewrite app_nil_r. }
  munfold. destruct (getContainingPart (data s) n) as [part|] eqn:Hpart; [| done].
  destruct (decide (name part ≠ n)) as [Hne | Heq%dec_stable]; [done |].
  intros Hrec. destruct (IH _ Hrec) as (-> & new & -> & Hall). split; [done |].
  exists (part :: new). rewrite <- app_assoc. split; [done |]. by constructor.
Qed.

(** X22.  What a merge that was carried out has done.  When the merge branch
    of [executeLogEntry] ends without asking for a fetch, every source part
    was in the local store under its own name; the merger was called on them,
    in the order of the entry, with the entry's new part name; the old parts
    were cleared from the store; and in the coordinator the node of the part
    the merger returned and its [/checksums] are there, the two nodes of every
    source part are gone, and every other node is as it was.  One
    ReplicatedPartMerges event is counted and the queue is untouched. *)
Theorem execute_merge_registers entry s s' :
  execute_merge entry s = (Ok false, s') →
  ∃ (parts : list DataPart) (merged : DataPart) (d : Data),
    Forall2 (λ n part, getContainingPart (data s) n = Some part ∧ name part = n)
      (LogEntry.parts_to_merge entry) parts
    ∧ mergeParts parts (LogEntry.new_part_name entry) (data s) = (Ok merged, d)
    ∧ data s' = clearOldParts d
    ∧ registered (replica_path s) merged parts
        (contents (zookeeper s)) (contents (zookeeper s'))
    ∧ queue s' = queue s
    ∧ profile_events s' = (profile_events s ++ [ReplicatedPartMerges])%list.
Proof.
  unfold execute_merge. unfold mbind, M_bind at 1.
  destruct (collect_parts entry _ [] s) as [[[have_all_parts found]| |] s1] eqn:Hcollect;
    [| done | done].
  destruct have_all_parts; cbn [negb]; [| munfold; done].
  apply collect_parts_found in Hcollect as (-> & new & -> & Hall). cbn [app].
  munfold. destruct (mergeParts new _ (data s)) as [merged d] eqn:Hmerge.
  destruct merged as [merged| |]; [| done | done].
  cbn [replica_path set_data]. unfold zk_multi. cbn [zookeeper set_data].
  destruct (zkutil.multi _ (zookeeper s)) as [[rs| |] zk'] eqn:Hmulti; [| done | done].
  apply register_multi in Hmulti. intros [= <-].
  cbn [zookeeper data queue profile_events add_profile_event set_zookeeper set_data].
  exists new, merged, d. by repeat (split; [done |]).
Qed.



End register.


(** X22 on a merge of two parts that are both here. *)
Lemma execute_merge_registers_witness :
  let zk := Example.zk_with [("/t", ""); ("/t/replicas", ""); ("/t/replicas/r1", "");
                             ("/t/replicas/r1/parts", "");
                             ("/t/replicas/r1/parts/20140401_0_0_0", "");
                             ("/t/replicas/r1/parts/20140401_0_0_0/checksums", "");
                             ("/t/replicas/r1/parts/20140401_1_1_0", "");
                             ("/t/replicas/r1/parts/20140401_1_1_0/checksums", "")] in
  let d := Example.Build_Store [Example.part "20140401_0_0_0" 0 0;
                                Example.part "20140401_1_1_0" 1 1] [] in
  let s := Example.storage zk d [] in
  let entry := Example.merge_entry "r1" ["20140401_0_0_0"; "20140401_1_1_0"]
                 "20140401_0_1_1" in
  let s' := (execute_merge entry s).2 in
  zkutil.exists_ (zookeeper s') "/t/replicas/r1/parts/20140401_0_1_1" = true
  ∧ zkutil.exists_ (zookeeper s') "/t/replicas/r1/parts/20140401_0_0_0" = false
  ∧ ∃ parts merged,
      registered "/t/replicas/r1" merged parts
        (contents (zookeeper s)) (contents (zookeeper s')).
Proof.
  cbv zeta.
  assert (Hmerge :
    execute_merge
      (Example.merge_entry "r1" ["20140401_0_0_0"; "20140401_1_1_0"] "20140401_0_1_1")
      (Example.storage
         (Example.zk_with [("/t", ""); ("/t/replicas", ""); ("/t/replicas/r1", "");
                           ("/t/replicas/r1/parts", "");
                           ("/t/replicas/r1/parts/20140401_0_0_0", "");
                           ("/t/replicas/r1/parts/20140401_0_0_0/checksums", "");
                           ("/t/replicas/r1/parts/20140401_1_1_0", "");
                           ("/t/replicas/r1/parts/20140401_1_1_0/checksums", "")])
         (Example.Build_Store [Example.part "20140401_0_0_0" 0 0;
                               Example.part "20140401_1_1_0" 1 1] []) [])
    = (Ok false,
       (execute_merge
          (Example.merge_entry "r1" ["20140401_0_0_0"; "20140401_1_1_0"] "20140401_0_1_1")
          (Example.storage
             (Example.zk_with [("/t", ""); ("/t/replicas", ""); ("/t/replicas/r1", "");
                               ("/t/replicas/r1/parts", "");
                               ("/t/replicas/r1/parts/20140401_0_0_0", "");
                               ("/t/replicas/r1/parts/20140401_0_0_0/checksums", "");
                               ("/t/replicas/r1/parts/20140401_1_1_0", "");
                               ("/t/replicas/r1/parts/20140401_1_1_0/checksums", "")])
             (Example.Build_Store [Example.part "20140401_0_0_0" 0 0;
                                   Example.part "20140401_1_1_0" 1 1] []) [])).2)).
  { vm_compute. reflexivity. }
  split; [vm_compute; reflexivity |]. split; [vm_compute; reflexivity |].
  destruct (execute_merge_registers _ _ _ Hmerge)
    as (parts & merged & d & _ & _ & _ & Hreg & _).
  exists parts, merged. exact Hreg.
Defined.

